(** * Scraping scripts: a shallow embedding and its checked properties

    The repository holds several near-duplicate scraping scripts
    ([dairitenbosyuu/scrape.py], [dairitenhonpo/scrape.py],
    [franchise_no_madoguti/scrape.py], [repre/scrape.py], [tabelog_all.py]).
    Each script is embedded in a module of its own.  What the scripts
    obtain from the outside (HTTP responses, the nodes BeautifulSoup returns
    for a query, the rows of the input CSV) is an explicit argument of the
    embedded functions; everything the scripts compute from it is a Rocq
    function that evaluates. *)

From Stdlib Require Import ZArith Lia DecimalString.
From stdpp Require Import gmap list sorting strings.

Open Scope N_scope.

(** * Python values *)

Module Py.

(** A Python [str] is a sequence of Unicode code points; [len] counts code
    points, not bytes. *)
Abbreviation str := (list N).

(** String literals of this file are UTF-8; [u] decodes one to code points. *)
Fixpoint utf8_decode (bs : list N) : str :=
  match bs with
  | [] => []
  | b0 :: r0 =>
    if b0 <? 0x80 then b0 :: utf8_decode r0
    else
      match r0 with
      | [] => []
      | b1 :: r1 =>
        if b0 <? 0xE0 then ((b0 mod 32) * 64 + b1 mod 64) :: utf8_decode r1
        else
          match r1 with
          | [] => []
          | b2 :: r2 =>
            if b0 <? 0xF0
            then ((b0 mod 16) * 4096 + (b1 mod 64) * 64 + b2 mod 64)
                   :: utf8_decode r2
            else
              match r2 with
              | [] => []
              | b3 :: r3 =>
                ((b0 mod 8) * 262144 + (b1 mod 64) * 4096
                 + (b2 mod 64) * 64 + b3 mod 64) :: utf8_decode r3
              end
          end
      end
  end.

Definition u (s : string) : str :=
  utf8_decode (map Ascii.N_of_ascii (String.list_ascii_of_string s)).

(** [str.isspace] on one code point; the same set is what [str.split],
    [str.strip] and the regular expression class [\s] use. *)
Definition isspace (c : N) : bool :=
  ((0x09 <=? c) && (c <=? 0x0D)) || ((0x1C <=? c) && (c <=? 0x20))
  || (c =? 0x85) || (c =? 0xA0) || (c =? 0x1680)
  || ((0x2000 <=? c) && (c <=? 0x200A))
  || (c =? 0x2028) || (c =? 0x2029) || (c =? 0x202F) || (c =? 0x205F)
  || (c =? 0x3000).

Fixpoint lstrip (s : str) : str :=
  match s with
  | c :: s' => if isspace c then lstrip s' else s
  | [] => []
  end.

Definition rstrip (s : str) : str := rev (lstrip (rev s)).

(** [s.strip()] *)
Definition strip (s : str) : str := rstrip (lstrip s).

(** [s.split()]: the maximal runs of non-whitespace.  [cur] is the run being
    read, reversed. *)
Fixpoint split_aux (cur : str) (s : str) : list str :=
  match s with
  | [] => match cur with [] => [] | _ => [rev cur] end
  | c :: s' =>
    if isspace c
    then match cur with [] => split_aux [] s' | _ => rev cur :: split_aux [] s' end
    else split_aux (c :: cur) s'
  end.

Definition split (s : str) : list str := split_aux [] s.

(** [sep.join(ws)] *)
Fixpoint join (sep : str) (ws : list str) : str :=
  match ws with
  | [] => []
  | [w] => w
  | w :: ws' => w ++ sep ++ join sep ws'
  end.

(** [re.sub(r"\s+", " ", s)]: every maximal whitespace run becomes one
    space.  [in_ws] tells that the previous code point was whitespace. *)
Fixpoint sub_ws_aux (in_ws : bool) (s : str) : str :=
  match s with
  | [] => []
  | c :: s' =>
    if isspace c
    then (if in_ws then sub_ws_aux true s' else 0x20 :: sub_ws_aux true s')
    else c :: sub_ws_aux false s'
  end.

Definition sub_ws (s : str) : str := sub_ws_aux false s.

(** [s.startswith(p)] *)
Fixpoint startswith (p s : str) : bool :=
  match p, s with
  | [], _ => true
  | _ :: _, [] => false
  | a :: p', b :: s' => (a =? b) && startswith p' s'
  end.

(** [p in s] on strings: substring containment. *)
Fixpoint contains (p s : str) : bool :=
  startswith p s || match s with [] => false | _ :: s' => contains p s' end.

(** Truthiness of a string: [if s:] holds for the non-empty ones. *)
Definition truthy (s : str) : bool := match s with [] => false | _ => true end.

(** A Python [dict] with string keys and values.  Iteration follows
    insertion order, and assigning to a key that is present keeps its
    position, so a dict is a key-unique association list. *)
Abbreviation dict := (list (str * str)).

Fixpoint dget (k : str) (d : dict) : option str :=
  match d with
  | [] => None
  | (k', v) :: d' => if decide (k' = k) then Some v else dget k d'
  end.

(** [d[k] = v] *)
Fixpoint dset (k v : str) (d : dict) : dict :=
  match d with
  | [] => [(k, v)]
  | (k', v') :: d' =>
    if decide (k' = k) then (k, v) :: d' else (k', v') :: dset k v d'
  end.

(** [list(d.keys())] *)
Definition keys (d : dict) : list str := d.*1.

(** [k in d] *)
Definition has_key (k : str) (d : dict) : bool := bool_decide (k ∈ keys d).

(** [d.get(k, default)] *)
Definition dget_default (k : str) (default : str) (d : dict) : str :=
  match dget k d with Some v => v | None => default end.

(** [d.setdefault(k, v)] used as a statement. *)
Definition setdefault (k v : str) (d : dict) : dict :=
  if has_key k d then d else dset k v d.

(** [s.replace(old, new)] for a pattern [old] of one code point. *)
Definition replace1 (old : N) (new : str) (s : str) : str :=
  flat_map (fun c => if c =? old then new else [c]) s.

(** [str(n)] for an [int]. *)
Definition str_of_Z (z : Z) : str :=
  map Ascii.N_of_ascii
      (String.list_ascii_of_string (DecimalString.NilZero.string_of_int (Z.to_int z))).

(** [a <= b] on strings: lexicographic on code points. *)
Fixpoint str_le (a b : str) : bool :=
  match a, b with
  | [], _ => true
  | _ :: _, [] => false
  | x :: a', y :: b' => (x <? y) || ((x =? y) && str_le a' b')
  end.

Definition str_leR : relation str := fun a b => str_le a b = true.

Global Instance str_leR_dec : RelDecision str_leR.
Proof. intros a b. unfold str_leR. apply _. Defined.

(** Exceptions, as far as the [except] clauses of the scripts tell them
    apart.  [HTTPError] carries [e.response.status_code] when the exception
    has a response.  [HTTPError] and [Timeout] are subclasses of
    [requests.RequestException]; [RequestException] stands for its other
    subclasses (connection errors and the like), [OtherException] for every
    [Exception] outside that hierarchy.  The string is [str(e)]. *)
Inductive exn :=
  | HTTPError (status : option Z) (msg : str)
  | Timeout (msg : str)
  | RequestException (msg : str)
  | OtherException (msg : str).

Definition exn_msg (e : exn) : str :=
  match e with
  | HTTPError _ m | Timeout m | RequestException m | OtherException m => m
  end.

(** [isinstance(e, requests.RequestException)] *)
Definition is_request_exception (e : exn) : bool :=
  match e with OtherException _ => false | _ => true end.

(** What a call does: it returns a value or raises. *)
Inductive outcome (A : Type) :=
  | Returned (a : A)
  | Raised (e : exn).
Arguments Returned {A} a.
Arguments Raised {A} e.

(** What the scripts read of a [requests.Response]: the status code and
    [resp.text] under the encoding the script selects. *)
Record http_response := { status_code : Z; text : str }.

(** The input CSV as [csv.reader] yields it: a list of rows, each a list of
    cells.  Opening the file may raise instead. *)
Abbreviation csv_rows := (list (list str)).

(** How a script run ends and what it leaves behind: the process exit
    status, the URLs handed to the worker pool, and the table written (header
    and rows), if one was written. *)
Record run := {
  exit_status : Z;
  submitted : list str;
  written : option (list str * list (list str))
}.

(** The input file of a run: absent, present but failing to open or to
    decode, or read as rows. *)
Inductive input_file :=
  | Missing
  | Unreadable (e : exn)
  | Rows (rows : csv_rows).

(** [open(path)] followed by reading all rows. *)
Definition open_csv (f : input_file) : outcome csv_rows :=
  match f with
  | Missing => Raised (OtherException (u "No such file or directory"))
  | Unreadable e => Raised e
  | Rows rows => Returned rows
  end.

(** ** Pieces of regular expressions *)

(** What a greedy [.+] or [.*] takes: the code points up to the next line
    feed. *)
Fixpoint dots (s : str) : str :=
  match s with
  | c :: s' => if c =? 0x0A then [] else c :: dots s'
  | [] => []
  end.

(** [$] matches at the end of the string and before a final line feed. *)
Definition at_end (s : str) : bool :=
  match s with
  | [] => true
  | [c] => c =? 0x0A
  | _ => false
  end.

(** The tail [\s*(.+)] of a pattern, followed by [$] when [anchored]: the
    greedy [\s*] gives whitespace back only as far as [(.+)] needs it.  The
    result is the text of the group. *)
Fixpoint ws_dots (anchored : bool) (s : str) : option str :=
  match s with
  | [] => None
  | c :: s' =>
    let here :=
      let v := dots s in
      if truthy v && (negb anchored || at_end (drop (length v) s))
      then Some v else None in
    if isspace c
    then match ws_dots anchored s' with Some v => Some v | None => here end
    else here
  end.

(** [any(p in s for p in ps)]: what [re.search] answers for an alternation
    of literals. *)
Definition contains_any (ps : list str) (s : str) : bool :=
  existsb (fun p => contains p s) ps.

(** Lower case on the ASCII letters.  Where the scripts compare a lowered
    string with an ASCII word, no other code point can make a difference. *)
Definition lower_ascii (c : N) : N :=
  if (0x41 <=? c) && (c <=? 0x5A) then c + 32 else c.

(** The error [resp.raise_for_status()] raises; the scripts only print its
    message, kept here as the status. *)
Definition status_error (status : Z) : exn :=
  HTTPError (Some status) (str_of_Z status).

(** The loop [for k in ks: if k not in cols: cols.append(k)], which three of
    the scripts run with a set [seen] holding the same strings as [cols]. *)
Definition append_new (cols : list str) (ks : list str) : list str :=
  fold_left (fun cs k => if bool_decide (k ∈ cs) then cs else cs ++ [k]) ks cols.

(** The distinct strings of a list, each at its first occurrence: the
    "first-seen order" of the specification. *)
Fixpoint first_seen (l : list str) : list str :=
  match l with
  | [] => []
  | x :: l' => x :: filter (fun y => y ≠ x) (first_seen l')
  end.

(** The union of the keys of the records outside [required], in first-seen
    order. *)
Definition union_first_seen (required : list str) (records : list dict) : list str :=
  first_seen (filter (fun k => k ∉ required) (concat (map keys records))).

(** [csv.DictWriter(f, fieldnames, extrasaction="ignore").writerow(rec)]:
    one cell per field name, the empty string where the record lacks the
    key; keys outside [fieldnames] are not written. *)
Definition writerow (fieldnames : list str) (rec : dict) : list str :=
  map (fun k => dget_default k [] rec) fieldnames.

(** A word: a non-empty string without whitespace. *)
Definition is_word (w : str) : bool :=
  truthy w && forallb (fun c => negb (isspace c)) w.

(** A text that whitespace normalization leaves as it is. *)
Definition normal (s : str) : Prop := strip (sub_ws s) = s.

(** A dict as the table parsers build it: no key twice, no empty key or
    value, keys and values normalized. *)
Definition clean (d : dict) : Prop :=
  NoDup (keys d)
  ∧ Forall (fun kv => fst kv ≠ [] ∧ snd kv ≠ [] ∧ normal (fst kv) ∧ normal (snd kv)) d.

End Py.

Import Py.

(** * [repre/scrape.py] *)

Module Repre.

(** [key_map] of [parse_company_table], in declaration order. *)
Definition key_map : list (str * str) := Eval vm_compute in
  [ (u "名称", u "名称"); (u "住所", u "住所"); (u "TEL", u "TEL");
    (u "電話", u "TEL"); (u "設立", u "設立"); (u "資本金", u "資本金");
    (u "年商", u "年商"); (u "部署", u "部署"); (u "従業員", u "従業員");
    (u "事業", u "事業") ].

Definition TEL : str := Eval vm_compute in u "TEL".

(** The inner loop over [key_map.keys()]: the first label contained in the
    key decides, a key without a match is kept as it is. *)
Fixpoint norm_key_in (km : list (str * str)) (key : str) : str :=
  match km with
  | [] => key
  | (k, v) :: km' => if contains k key then v else norm_key_in km' key
  end.

Definition norm_key (key : str) : str := norm_key_in key_map key.

(** A table as [parse_company_table] reads it: for each [tr], the texts
    [get_text(separator=" ", strip=True)] of its [td]/[th] cells. *)
Abbreviation table := (list (list str)).

(** One iteration of the loop over the rows. *)
Definition row_step (data : dict) (cells : list str) : dict :=
  match cells with
  | key :: val :: _ => dset (norm_key key) (strip (sub_ws val)) data
  | _ => data
  end.

Definition parse_company_table (t : table) : dict :=
  let data := fold_left row_step t [] in
  if has_key TEL data then data else dset TEL [] data.

(** ** [build_row], [scrape_company_info_single], [process_url] *)

Definition fieldnames : list str := Eval vm_compute in
  [ u "取得日時"; u "取得URL"; u "名称"; u "住所"; u "TEL"; u "設立";
    u "資本金"; u "年商"; u "部署"; u "従業員"; u "事業" ].

Definition COL_NAME : str := Eval vm_compute in u "名称".
Definition COL_ADDR : str := Eval vm_compute in u "住所".

(** What [scrape_company_info_single] queries of a document: the table
    [find_recruit_company_table] returns, and [find_all("table")]. *)
Record soup := {
  recruit_table : option table;
  all_tables : list table
}.

Record world := {
  (** what [requests.get] does for the URL: [resp.url] and the response *)
  net : str → outcome (str * http_response);
  (** [BeautifulSoup(html, "html.parser")] with the queries made on it *)
  parser : str → outcome soup;
  (** the formatted time of the row built for a URL *)
  now : str → str;
  as_completed : list str → list str;
  (** [sys.argv] *)
  argv : list str;
  (** [int(sys.argv[3])] *)
  int_argv3 : outcome Z;
  (** the file at a path *)
  input_csv : str → input_file
}.

Definition DEFAULT_MAX_WORKERS : Z := 10.

Definition build_row (w : world) (url : str) (parsed : dict) : dict :=
  (u "取得日時", now w url) :: (u "取得URL", url)
  :: map (fun k => (k, dget_default k [] parsed)) (drop 2 fieldnames).

Definition fetch_html (w : world) (url : str) : outcome (str * str) :=
  match net w url with
  | Raised e => Raised e
  | Returned (final_url, resp) =>
    if ((400 <=? status_code resp) && (status_code resp <? 600))%Z
    then Raised (status_error (status_code resp))
    else Returned (final_url, text resp)
  end.

Definition scrape_company_info_single (w : world) (url : str) : outcome (list dict) :=
  match fetch_html w url with
  | Raised e => Raised e
  | Returned (final_url, html) =>
    match parser w html with
    | Raised e => Raised e
    | Returned s =>
      match recruit_table s with
      | Some main_table =>
        Returned [build_row w final_url (parse_company_table main_table)]
      | None =>
        Returned
          (flat_map
             (fun t =>
                let parsed := parse_company_table t in
                if truthy (dget_default COL_NAME [] parsed)
                   || truthy (dget_default COL_ADDR [] parsed)
                then [build_row w final_url parsed] else [])
             (all_tables s))
      end
    end
  end.

(** [process_url]: the three [except] clauses print and fall through to
    [return []]. *)
Definition process_url (w : world) (url : str) : outcome (list dict) :=
  match scrape_company_info_single w url with
  | Returned rows => Returned rows
  | Raised (HTTPError _ _) => Returned []
  | Raised (Timeout _) => Returned []
  | Raised _ => Returned []
  end.

(** ** [read_urls_from_csv], [save_csv], [main] *)

(** The loop over the rows; [urls] is the list built so far. *)
Definition read_row (urls : list str) (row : list str) : list str :=
  match row with
  | [] => urls
  | c :: _ =>
    let candidate := strip c in
    if negb (truthy candidate) then urls
    else if bool_decide (urls = [])
            && negb (startswith (u "http") (map lower_ascii candidate))
    then urls
    else urls ++ [candidate]
  end.

Definition read_urls_from_csv (f : input_file) : outcome (list str) :=
  match open_csv f with
  | Raised e => Raised e
  | Returned rows => Returned (fold_left read_row rows [])
  end.

Definition save_csv (rows : list dict) : list str * list (list str) :=
  (fieldnames, map (writerow fieldnames) rows).

(** The loop over [as_completed(future_map)], with its own [try]. *)
Definition collect_step (w : world) (all_rows : list dict) (url : str) : list dict :=
  match process_url w url with
  | Returned rows => all_rows ++ rows
  | Raised _ => all_rows
  end.

Definition collect (w : world) (done : list str) : list dict :=
  fold_left (collect_step w) done [].

(** What the task of a URL adds to [all_rows]. *)
Definition emitted (w : world) (url : str) : list dict := collect_step w [] url.

Definition stop : run := {| exit_status := 1; submitted := []; written := None |}.

(** [main]: [sys.exit(1)] without an input path or without URLs; an
    exception that reaches the top level also ends the process with
    status 1. *)
Definition main (w : world) : run :=
  match argv w with
  | _ :: in_csv :: rest =>
    let max_workers :=
      match rest with
      | _ :: _ :: _ => int_argv3 w
      | _ => Returned DEFAULT_MAX_WORKERS
      end in
    match max_workers with
    | Raised _ => stop
    | Returned max_workers =>
      match read_urls_from_csv (input_csv w in_csv) with
      | Raised _ => stop
      | Returned [] => stop
      | Returned urls =>
        (* [ThreadPoolExecutor] refuses a width below 1 *)
        if (max_workers <=? 0)%Z then stop
        else {| exit_status := 0; submitted := urls;
                written := Some (save_csv (collect w (as_completed w urls))) |}
      end
    end
  | _ => stop
  end.

(** What a row with two cells is stored as: the normalized key and the
    value with its whitespace collapsed. *)
Definition harvest (cells : list str) : option (str * str) :=
  match cells with
  | key :: val :: _ => Some (norm_key key, strip (sub_ws val))
  | _ => None
  end.

(** The values stored under the key [k], in the order of the rows. *)
Definition harvested (k : str) (t : table) : list str :=
  omap (fun cells => match harvest cells with
                     | Some (k', v) => if decide (k' = k) then Some v else None
                     | None => None
                     end) t.

End Repre.

(** * [dairitenhonpo/scrape.py] *)

Module Dairitenhonpo.

Definition RETRY_COUNT : nat := 2.
(** [RETRY_BACKOFF_SEC = 2.0]; the delays are whole seconds. *)
Definition RETRY_BACKOFF_SEC : Z := 2.

Definition KNOWN_FIELD_MAP : list (str * str) := Eval vm_compute in
  [ (u "会社名", u "名称"); (u "社名", u "名称"); (u "所在地", u "住所");
    (u "住所", u "住所"); (u "設立", u "設立"); (u "代表者", u "代表者");
    (u "資本金", u "資本金"); (u "事業内容", u "事業内容");
    (u "電話", u "電話"); (u "TEL", u "電話"); (u "メール", u "メール");
    (u "E-mail", u "メール") ].

Definition COL_TIME : str := Eval vm_compute in u "取得日時".
Definition COL_URL : str := Eval vm_compute in u "取得URL".
Definition COL_NAME : str := Eval vm_compute in u "名称".
Definition COL_ADDR : str := Eval vm_compute in u "住所".

Definition REQUIRED_COLUMNS : list str := [COL_TIME; COL_URL; COL_NAME; COL_ADDR].

(** ** [fetch_html] *)

(** What [fetch_html] returns, [(html, status_code, error_message)], with
    what it did on the way: the number of [requests.get] calls and the
    arguments of [time.sleep], in order. *)
Record fetch_run := {
  fr_result : option str * option Z * option str;
  fr_requests : nat;
  fr_sleeps : list Z
}.

Definition finished (r : option str * option Z * option str) : fetch_run :=
  {| fr_result := r; fr_requests := 0; fr_sleeps := [] |}.

Definition requested (r : fetch_run) : fetch_run :=
  {| fr_result := fr_result r; fr_requests := S (fr_requests r);
     fr_sleeps := fr_sleeps r |}.

Definition slept (d : Z) (r : fetch_run) : fetch_run :=
  {| fr_result := fr_result r; fr_requests := fr_requests r;
     fr_sleeps := d :: fr_sleeps r |}.

(** [f"HTTP {status}"] *)
Definition http_msg (status : Z) : str := u "HTTP " ++ str_of_Z status.

Definition is_4xx (status : Z) : bool := ((400 <=? status) && (status <? 500))%Z.

(** [resp.raise_for_status()] raises [HTTPError] for 400 <= status < 600. *)
Definition raises_for_status (status : Z) : bool :=
  ((400 <=? status) && (status <? 600))%Z.

(** The loop [for attempt in range(retry_count + 1)], from iteration
    [attempt] on, with [todo] iterations left.  [get n] is what the [n]-th
    [requests.get] of this call does. *)
Fixpoint fetch_html_from (retry_count : nat) (backoff : Z)
    (get : nat → outcome http_response) (attempt todo : nat) : fetch_run :=
  match todo with
  | O => finished (None, None, Some (u "unknown error"))
  | S todo' =>
    (* the two retrying [except] clauses share their shape *)
    let retry_or (last : option str * option Z * option str) :=
      if (attempt <? retry_count)%nat
      then slept (backoff * (Z.of_nat attempt + 1))
                 (fetch_html_from retry_count backoff get (S attempt) todo')
      else finished last in
    (* [except requests.HTTPError as e] *)
    let on_http_error (status : option Z) (msg : str) :=
      match status with
      | Some st =>
        if negb (st =? 0)%Z && is_4xx st
        then finished (None, Some st, Some (http_msg st))
        else retry_or (None, Some st,
                       Some (if negb (st =? 0)%Z then http_msg st else msg))
      | None => retry_or (None, None, Some msg)
      end in
    requested
      match get attempt with
      | Returned resp =>
        let status := status_code resp in
        if is_4xx status
        then finished (None, Some status, Some (http_msg status))
        else if raises_for_status status
        then on_http_error (Some status) (exn_msg (status_error status))
        else finished (Some (text resp), Some status, None)
      | Raised (HTTPError status msg) => on_http_error status msg
      | Raised e => retry_or (None, None, Some (exn_msg e))
      end
  end.

Definition fetch_html_cfg (retry_count : nat) (backoff : Z)
    (get : nat → outcome http_response) : fetch_run :=
  fetch_html_from retry_count backoff get 0 (retry_count + 1).

Definition fetch_html (get : nat → outcome http_response) : fetch_run :=
  fetch_html_cfg RETRY_COUNT RETRY_BACKOFF_SEC get.

(** The attempts the loop answers by trying again: a response with a 5xx
    status, and an exception, unless it is an [HTTPError] that carries a 4xx
    status. *)
Definition retried (o : outcome http_response) : bool :=
  match o with
  | Returned resp =>
    negb (is_4xx (status_code resp)) && raises_for_status (status_code resp)
  | Raised (HTTPError (Some st) _) => negb (negb (st =? 0)%Z && is_4xx st)
  | Raised _ => true
  end.

(** The delays before the attempts [from + 1], ..., [from + n]. *)
Definition backoffs (backoff : Z) (n from : nat) : list Z :=
  map (fun i => (backoff * (Z.of_nat i + 1))%Z) (seq from n).

(** ** [parse_company_table] *)

(** [normalize_text] *)
Definition normalize_text (s : option str) : str :=
  match s with
  | None => []
  | Some s => if truthy s then strip (join [0x20] (split s)) else []
  end.

(** A [tr] as the parser reads it: [get_text()] of its first [th]/[dt] and
    of its first [td]/[dd], [None] where [tr.find] finds nothing. *)
Record row := { row_th : option str; row_td : option str }.

Abbreviation table := (list row).

(** What the parser queries of a document: the [h2]/[h3] headings in
    document order, each with its [get_text()] and the table
    [find_next(["table"])] gives for it, and the tables of
    [find_all("table")], each as its [find_all("tr")] rows. *)
Record soup := {
  headings : list (str * option table);
  tables : list table
}.

(** The loop over [KNOWN_FIELD_MAP.items()], with the fallback to the raw
    key. *)
Fixpoint normalized_key_in (km : list (str * str)) (key_raw : str) : str :=
  match km with
  | [] => key_raw
  | (k, colname) :: km' =>
    if contains k key_raw then colname else normalized_key_in km' key_raw
  end.

Definition normalized_key (key_raw : str) : str :=
  normalized_key_in KNOWN_FIELD_MAP key_raw.

(** The value as the body of the row loop stores it. *)
Definition clean_value (td_text : str) : str :=
  strip (replace1 0x0A [0x20] (replace1 0x0D [] (normalize_text (Some td_text)))).

(** What a row is harvested as: the normalized key and the cleaned value;
    nothing without both cells, or with an empty label. *)
Definition harvest (r : row) : option (str * str) :=
  match row_th r, row_td r with
  | Some th, Some td =>
    let key_raw := normalize_text (Some th) in
    if truthy key_raw then Some (normalized_key key_raw, clean_value td)
    else None
  | _, _ => None
  end.

(** One iteration of [for tr in table.find_all("tr")]: the value is stored
    when it is longer than the one [result] has. *)
Definition row_step (result : dict) (r : row) : dict :=
  match harvest r with
  | Some (nk, val_raw) =>
    let prev := dget_default nk [] result in
    if (length prev <? length val_raw)%nat then dset nk val_raw result
    else result
  | None => result
  end.

(** [for table in tables], with the early exit once both the name and the
    address are in [result]. *)
Fixpoint scan_tables (ts : list table) (result : dict) : dict :=
  match ts with
  | [] => result
  | t :: ts' =>
    let result' := fold_left row_step t result in
    if has_key COL_NAME result' && has_key COL_ADDR result' then result'
    else scan_tables ts' result'
  end.

(** The first heading whose text contains "会社情報". *)
Definition find_heading (hs : list (str * option table)) : option (option table) :=
  snd <$> List.find (fun h => contains (u "会社情報") (normalize_text (Some (fst h)))) hs.

(** The list [tables] the parser scans. *)
Definition tables_to_scan (s : soup) : list table :=
  match find_heading (headings s) with
  | Some (Some nxt) => nxt :: tables s
  | _ => tables s
  end.

Definition parse_company_table (s : soup) : dict :=
  scan_tables (tables_to_scan s) [].

(** The tables the loop gets to before its early exit. *)
Fixpoint scanned (ts : list table) (result : dict) : list table :=
  match ts with
  | [] => []
  | t :: ts' =>
    let result' := fold_left row_step t result in
    if has_key COL_NAME result' && has_key COL_ADDR result' then [t]
    else t :: scanned ts' result'
  end.

(** The values harvested under the key [k], in the order of the rows. *)
Definition harvested (k : str) (rows : list row) : list str :=
  omap (fun r => match harvest r with
                 | Some (k', v) => if decide (k' = k) then Some v else None
                 | None => None
                 end) rows.

(** ** [extract_record] *)

(** What a run of the script meets outside itself. *)
Record world := {
  (** [net url n]: what the [n]-th [requests.get] for [url] does *)
  net : str → nat → outcome http_response;
  (** [BeautifulSoup(html, "html.parser")] with the queries made on it *)
  parser : str → outcome soup;
  (** [now_jst_iso()] when the record of the URL is built *)
  now : str → str;
  (** the order in which [as_completed] yields the submitted URLs *)
  as_completed : list str → list str;
  (** the file [all_urls.csv] *)
  input_csv : input_file
}.

(** The loop copying the non-required columns of [table_data]. *)
Definition copy_others (table_data : dict) (record : dict) : dict :=
  fold_left
    (fun rec kv => if bool_decide (fst kv ∈ REQUIRED_COLUMNS) then rec
                   else dset (fst kv) (snd kv) rec)
    table_data record.

(** The body of the [try] block, given the parsed document. *)
Definition record_of_soup (w : world) (url : str) (s : soup) : option dict :=
  let table_data := parse_company_table s in
  let name := strip (dget_default COL_NAME [] table_data) in
  let address := strip (dget_default COL_ADDR [] table_data) in
  if negb (truthy name) then None
  else Some (copy_others table_data
               [ (COL_TIME, now w url); (COL_URL, url);
                 (COL_NAME, name); (COL_ADDR, address) ]).

Definition extract_record (w : world) (url : str) : outcome (option dict) :=
  match fst (fst (fr_result (fetch_html (net w url)))) with
  | None => Returned None
  | Some html =>
    (* [try: ... except Exception: return None] *)
    match parser w html with
    | Returned s => Returned (record_of_soup w url s)
    | Raised _ => Returned None
    end
  end.

(** What the task of a URL adds to [records]. *)
Definition emitted (w : world) (url : str) : list dict :=
  match extract_record w url with
  | Returned (Some rec) => [rec]
  | _ => []
  end.

(** ** [read_urls], [write_csv], [main] *)

Definition read_urls (file : input_file) : outcome (list str) :=
  match open_csv file with
  | Raised e => Raised e
  | Returned rows =>
    match rows with
    | [] => Returned []
    | r0 :: _ =>
      let first_cell := match r0 with c :: _ => c | [] => [] end in
      let start_idx := if startswith (u "http") first_cell then 0%nat else 1%nat in
      Returned
        (flat_map
           (fun row =>
              match row with
              | [] => []
              | c :: _ => let url := strip c in if truthy url then [url] else []
              end)
           (drop start_idx rows))
    end
  end.

(** The loop building [header]; [seen] holds the same strings as [header]. *)
Definition add_keys (header : list str) (rec : dict) : list str :=
  append_new header (keys rec).

Definition header_of (records : list dict) : list str :=
  fold_left add_keys records REQUIRED_COLUMNS.

Definition write_csv (records : list dict) : list str * list (list str) :=
  let header := header_of records in
  (header, map (writerow header) records).

(** [records.sort(key=...)] on the value under "取得URL", the empty string
    for a record without it: a stable sort. *)
Fixpoint insert_by_url (r : dict) (sorted : list dict) : list dict :=
  match sorted with
  | [] => [r]
  | r' :: rest =>
    if str_le (dget_default COL_URL [] r) (dget_default COL_URL [] r')
    then r :: sorted else r' :: insert_by_url r rest
  end.

Definition sort_by_url (records : list dict) : list dict :=
  fold_right insert_by_url [] records.

(** The loop over [as_completed(future_map)]: [future.result()] is not
    guarded, an exception of one task ends the loop. *)
Fixpoint collect (w : world) (done : list str) (records : list dict)
  : outcome (list dict) :=
  match done with
  | [] => Returned records
  | url :: done' =>
    match extract_record w url with
    | Raised e => Raised e
    | Returned None => collect w done' records
    | Returned (Some rec) => collect w done' (records ++ [rec])
    end
  end.

(** An exception that reaches the top level ends the process with status 1. *)
Definition main (w : world) : run :=
  match read_urls (input_csv w) with
  | Raised _ => {| exit_status := 1; submitted := []; written := None |}
  | Returned [] => {| exit_status := 1; submitted := []; written := None |}
  | Returned urls =>
    match collect w (as_completed w urls) [] with
    | Raised _ => {| exit_status := 1; submitted := urls; written := None |}
    | Returned records =>
      {| exit_status := 0; submitted := urls;
         written := Some (write_csv (sort_by_url records)) |}
    end
  end.

(** The sort key of a record, and the order the sort puts the records in. *)
Definition url_of (r : dict) : str := dget_default COL_URL [] r.

Definition url_le (a b : dict) : Prop := str_le (url_of a) (url_of b) = true.

End Dairitenhonpo.

(** * [dairitenbosyuu/scrape.py] *)

Module Dairitenbosyuu.

Definition COL_TIME : str := Eval vm_compute in u "取得日時".
Definition COL_URL : str := Eval vm_compute in u "取得URL".
Definition COL_NAME : str := Eval vm_compute in u "名称".
Definition COL_ADDR : str := Eval vm_compute in u "住所".

Definition REQUIRED_COLUMNS : list str := [COL_TIME; COL_URL; COL_NAME; COL_ADDR].

Definition EXTRA_COLUMNS : list str := Eval vm_compute in
  [ u "代表者"; u "設立"; u "資本金"; u "事業内容"; u "所在地"; u "電話番号";
    u "メール"; u "募集企業"; u "募集地域"; u "初期費用" ].

Definition COL_PHONE : str := Eval vm_compute in u "電話番号".
Definition COL_MAIL : str := Eval vm_compute in u "メール".

(** [fetch]: one request, no retry.  [get] is what [requests.get] does. *)
Definition fetch (get : outcome http_response) : outcome (option str) :=
  match get with
  | Returned resp =>
    Returned (if (status_code resp =? 200)%Z then Some (text resp) else None)
  | Raised e => if is_request_exception e then Returned None else Raised e
  end.

Definition textnorm (s : str) : str := strip (sub_ws s).

(** What the extraction queries of a document. *)
Record soup := {
  (** [find_all("table")], each with its [find_all("tr")], each with
      [get_text(" ", strip=True)] of its [th]/[td] cells *)
  tables : list (list (list str));
  (** the text nodes, in document order *)
  strings : list str;
  (** [get_text(" ", strip=True)] of the [h1], then the [h2], then the [h3] *)
  headings : list str;
  (** [get_text(" ", strip=True)] of the [p], then the [li], then the [div] *)
  blocks : list str;
  (** [soup.get_text(" ", strip=True)] *)
  whole_text : str
}.

(** What a row is harvested as: the two cell texts, when the row has two
    cells and neither text is empty. *)
Definition kv_pair (cells : list str) : option (str * str) :=
  match cells with
  | c0 :: c1 :: _ =>
    let key := textnorm c0 in
    let val := textnorm c1 in
    if truthy key && truthy val then Some (key, val) else None
  | _ => None
  end.

(** One iteration of the loop over the rows of a table: [kv[key] = val]. *)
Definition kv_row (kv : dict) (cells : list str) : dict :=
  match kv_pair cells with
  | Some (key, val) => dset key val kv
  | None => kv
  end.

(** The values harvested under the key [k], in the order of the rows. *)
Definition harvested (k : str) (rows : list (list str)) : list str :=
  omap (fun cells => match kv_pair cells with
                     | Some (k', v) => if decide (k' = k) then Some v else None
                     | None => None
                     end) rows.

Definition kv_of_tables (ts : list (list (list str))) : dict :=
  fold_left (fun kv t => fold_left kv_row t kv) ts [].

Definition extract_table_kv (s : soup) : dict := kv_of_tables (tables s).

(** [s.split(":")[-1]]: what follows the last colon. *)
Fixpoint until (c : N) (s : str) : str :=
  match s with
  | x :: s' => if x =? c then [] else x :: until c s'
  | [] => []
  end.

Definition after_last (c : N) (s : str) : str := rev (until c (rev s)).

Definition is_colon (c : N) : bool := (c =? 0x3A) || (c =? 0xFF1A).

(** [re.search(r"(募集企業|企業名|会社名)\s*[:：]\s*(.+)", t)], group 2. *)
Definition heading_labels : list str := Eval vm_compute in
  [ u "募集企業"; u "企業名"; u "会社名" ].

Fixpoint heading_match_at (labels : list str) (t : str) : option str :=
  match labels with
  | [] => None
  | l :: labels' =>
    let after :=
      if startswith l t then
        match lstrip (drop (length l) t) with
        | c :: r => if is_colon c then ws_dots false r else None
        | [] => None
        end
      else None in
    match after with
    | Some v => Some v
    | None => heading_match_at labels' t
    end
  end.

Fixpoint heading_search (t : str) : option str :=
  match heading_match_at heading_labels t with
  | Some v => Some v
  | None => match t with [] => None | _ :: t' => heading_search t' end
  end.

Definition is_company (c : str) : bool :=
  contains_any [u "株式会社"; u "有限会社"; u "合同会社"] c.

(** The candidates the labelled text nodes give. *)
Definition label_candidates (s : soup) : list str :=
  flat_map
    (fun label =>
       match List.find (contains label) (strings s) with
       | Some node =>
         let txt := textnorm node in
         if contains [0x3A] txt then
           let part := strip (after_last 0x3A txt) in
           if truthy part then [part] else []
         else []
       | None => []
       end)
    [ u "募集企業"; u "企業名"; u "会社名"; u "運営会社"; u "事業者名" ].

(** The candidates the headings give. *)
Definition heading_candidates (s : soup) : list str :=
  flat_map
    (fun h =>
       let t := textnorm h in
       (match heading_search t with Some g => [textnorm g] | None => [] end)
       ++ (if contains (u "株式会社") t || contains (u "有限会社") t then [t] else []))
    (headings s).

(** [candidates.insert(0, kv[key])] for the keys the table has. *)
Definition insert_kv_names (kv : dict) (candidates : list str) : list str :=
  fold_left
    (fun cs key =>
       match dget key kv with
       | Some v => if truthy v then v :: cs else cs
       | None => cs
       end)
    [ u "募集企業"; u "企業名"; u "会社名" ] candidates.

(** The loop removing blanks and duplicates. *)
Definition unique_of (candidates : list str) : list str :=
  fold_left
    (fun uniq c =>
       let c := textnorm c in
       if truthy c && negb (bool_decide (c ∈ uniq)) then uniq ++ [c] else uniq)
    candidates [].

Definition guess_name_from_headings (s : soup) : option str :=
  let candidates :=
    insert_kv_names (extract_table_kv s)
                    (label_candidates s ++ heading_candidates s) in
  let unique := unique_of candidates in
  match List.find is_company unique with
  | Some c => Some c
  | None => head unique
  end.

(** The compiled patterns, taken as given: [P t] is [m.group(0)] for the
    match [m = P.search(t)], [None] when there is no match. *)
Record patterns := {
  ADDRESS_PAT : str → option str;
  PHONE_PAT : str → option str;
  EMAIL_PAT : str → option str
}.

(** The first truthy value [kv] has under one of the keys. *)
Fixpoint first_value (ks : list str) (kv : dict) : option str :=
  match ks with
  | [] => None
  | k :: ks' =>
    match dget k kv with
    | Some v => if truthy v then Some v else first_value ks' kv
    | None => first_value ks' kv
    end
  end.

(** The first text block the address pattern matches. *)
Fixpoint first_address (P : patterns) (blobs : list str) : option str :=
  match blobs with
  | [] => None
  | t :: blobs' =>
    match ADDRESS_PAT P t with
    | Some g => Some (textnorm g)
    | None => first_address P blobs'
    end
  end.

Definition extract_address (P : patterns) (s : soup) (kv : dict) : option str :=
  match first_value [u "所在地"; u "住所"] kv with
  | Some v => Some v
  | None => first_address P (filter (fun t => truthy t = true) (map textnorm (blocks s)))
  end.

Definition extract_extras (P : patterns) (s : soup) (kv : dict) : dict :=
  let out :=
    fold_left
      (fun out key =>
         match dget key kv with
         | Some v => if truthy v then dset key v out else out
         | None => out
         end)
      EXTRA_COLUMNS [] in
  let whole := textnorm (whole_text s) in
  let out :=
    if has_key COL_PHONE out then out
    else match PHONE_PAT P whole with Some g => dset COL_PHONE g out | None => out end in
  if has_key COL_MAIL out then out
  else match EMAIL_PAT P whole with Some g => dset COL_MAIL g out | None => out end.

(** What a run of the script meets outside itself. *)
Record world := {
  (** what [requests.get] does for the URL *)
  net : str → outcome http_response;
  (** [BeautifulSoup(html, "html.parser")] with the queries made on it *)
  parser : str → outcome soup;
  pats : patterns;
  (** [datetime.datetime.now()], formatted, when the record is built *)
  now : str → str;
  (** the order in which [as_completed] yields the submitted URLs *)
  as_completed : list str → list str;
  (** the file [urls.csv] *)
  input_csv : input_file
}.

(** The record [parse_page] builds once it has a name. *)
Definition build_record (w : world) (url : str) (s : soup) (kv : dict)
    (name : str) : dict :=
  let addr := extract_address (pats w) s kv in
  let extras := extract_extras (pats w) s kv in
  let record :=
    [ (COL_TIME, now w url); (COL_URL, url); (COL_NAME, name);
      (COL_ADDR, match addr with
                 | Some a => if truthy a then a else []
                 | None => []
                 end) ] in
  let record :=
    fold_left (fun rec kv => if truthy (snd kv) then dset (fst kv) (snd kv) rec else rec)
              extras record in
  fold_left
    (fun rec k =>
       match dget k kv with
       | Some v => if truthy v then dset k v rec else rec
       | None => rec
       end)
    [u "募集地域"; u "初期費用"] record.

(** [parse_page], from the parsed document on. *)
Definition page_record (w : world) (url : str) (s : soup) : option dict :=
  let kv := extract_table_kv s in
  match guess_name_from_headings s with
  | None => None
  | Some name =>
    if negb (truthy name) then None
    else Some (build_record w url s kv name)
  end.

Definition parse_page (w : world) (url html : str) : outcome (option dict) :=
  match parser w html with
  | Returned s => Returned (page_record w url s)
  | Raised e => Raised e
  end.

Definition process_url (w : world) (url : str) : outcome (option dict) :=
  match fetch (net w url) with
  | Raised e => Raised e
  | Returned None => Returned None
  | Returned (Some html) =>
    if negb (truthy html) then Returned None else parse_page w url html
  end.

(** The loop of [unify_columns] over the keys of one record; [seen] holds
    the same strings as [cols]. *)
Definition add_keys (cols : list str) (rec : dict) : list str :=
  append_new cols (keys rec).

Definition unify_columns (records : list dict) : list str :=
  fold_left add_keys records REQUIRED_COLUMNS.

(** [save_csv]: nothing is written for an empty list. *)
Definition save_csv (records : list dict) : option (list str * list (list str)) :=
  match records with
  | [] => None
  | _ => let cols := unify_columns records in
         Some (cols, map (writerow cols) records)
  end.

Definition read_urls (f : input_file) : outcome (list str) :=
  match f with
  | Missing => Returned []
  | _ =>
    match open_csv f with
    | Raised e => Raised e
    | Returned rows =>
      Returned
        (flat_map
           (fun row =>
              match row with
              | [] => []
              | c :: _ =>
                let url := strip c in
                if truthy url
                   && (startswith (u "http://") url || startswith (u "https://") url)
                then [url] else []
              end)
           rows)
    end
  end.

(** The loop over [as_completed(future_map)]; the [try] around
    [fut.result()] absorbs what a task raised. *)
Definition collect_step (w : world) (results : list dict) (url : str) : list dict :=
  match process_url w url with
  | Returned (Some rec) =>
    if truthy (dget_default COL_NAME [] rec) && negb (bool_decide (rec = []))
    then results ++ [rec] else results
  | Returned None => results
  | Raised _ => results
  end.

(** What the task of a URL adds to [results]. *)
Definition emitted (w : world) (url : str) : list dict := collect_step w [] url.

Definition collect (w : world) (done : list str) : list dict :=
  fold_left (collect_step w) done [].

(** [main] returns in every branch; only an exception of [read_urls] ends
    the process with status 1. *)
Definition main (w : world) : run :=
  match read_urls (input_csv w) with
  | Raised _ => {| exit_status := 1; submitted := []; written := None |}
  | Returned [] => {| exit_status := 0; submitted := []; written := None |}
  | Returned urls =>
    {| exit_status := 0; submitted := urls;
       written := save_csv (collect w (as_completed w urls)) |}
  end.

End Dairitenbosyuu.

(** * [franchise_no_madoguti/scrape.py] *)

Module Franchise.

Definition COL_TIME : str := Eval vm_compute in u "取得日時".
Definition COL_URL : str := Eval vm_compute in u "取得URL".
Definition COL_NAME : str := Eval vm_compute in u "名称".
Definition COL_ADDR : str := Eval vm_compute in u "住所".
Definition COL_BUSINESS : str := Eval vm_compute in u "事業内容".
Definition COL_SITE : str := Eval vm_compute in u "URL".
Definition COL_ERROR : str := Eval vm_compute in u "エラー".

Definition REQUIRED_COLUMNS : list str := [COL_TIME; COL_URL; COL_NAME; COL_ADDR].

(** [LABEL_PATTERNS]: every pattern is an alternation of literals, kept as
    the list of its alternatives. *)
Definition LABEL_PATTERNS : list (list str * str) := Eval vm_compute in
  [ ([u "会社情報"; u "会社概要"], u "会社情報セクション");
    ([u "住所"; u "所在地"], u "住所");
    ([u "設立"; u "設立年月日"], u "設立");
    ([u "代表者"; u "代表取締役"; u "代表"], u "代表者");
    ([u "資本金"], u "資本金");
    ([u "事業内容"; u "業務内容"; u "事業"], u "事業内容");
    ([u "従業員"; u "社員数"; u "従業員数"], u "従業員");
    ([u "URL"; u "公式サイト"; u "サイト"; u "ホームページ"], u "URL");
    ([u "電話"; u "TEL"; u "電話番号"], u "電話");
    ([u "所在地"], u "住所") ].

(** [fetch]: the session retries inside [get]; the result of the call is
    what the function sees.  The wait that spaces the requests has no part
    in the result. *)
Definition fetch (get : outcome http_response) : outcome (option str) :=
  match get with
  | Returned r =>
    Returned (if (200 <=? status_code r)%Z && (status_code r <? 300)%Z
              then Some (text r) else None)
  | Raised e => if is_request_exception e then Returned None else Raised e
  end.

Definition normalize_space (s : str) : str := strip (sub_ws s).

(** [re.IGNORECASE] on these patterns: only their ASCII letters have a
    second case. *)
Definition search_ci (alternatives : list str) (s : str) : bool :=
  existsb (fun p => contains (map lower_ascii p) (map lower_ascii s)) alternatives.

Fixpoint label_to_key_in (pats : list (list str * str)) (lab : str) : str :=
  match pats with
  | [] => lab
  | (alts, key) :: pats' =>
    if search_ci alts lab then key else label_to_key_in pats' lab
  end.

Definition label_to_key (label : str) : str :=
  label_to_key_in LABEL_PATTERNS (normalize_space label).

(** ** [parse_label_value_text] *)

Definition is_line_break (c : N) : bool :=
  ((0x0A <=? c) && (c <=? 0x0D)) || ((0x1C <=? c) && (c <=? 0x1E))
  || (c =? 0x85) || (c =? 0x2028) || (c =? 0x2029).

(** [s.splitlines()]; [cur] is the line being read, reversed. *)
Fixpoint splitlines_aux (cur : str) (s : str) : list str :=
  match s with
  | [] => match cur with [] => [] | _ => [rev cur] end
  | c :: s' =>
    if is_line_break c then
      match s' with
      | c' :: s'' =>
        if (c =? 0x0D) && (c' =? 0x0A)
        then rev cur :: splitlines_aux [] s''
        else rev cur :: splitlines_aux [] s'
      | [] => [rev cur]
      end
    else splitlines_aux (c :: cur) s'
  end.

Definition splitlines (s : str) : list str := splitlines_aux [] s.

Definition is_colon (c : N) : bool := (c =? 0xFF1A) || (c =? 0x3A).

(** The lazy label [(.{1,30}?)] of both patterns: the shortest prefix of
    1 to 30 code points, without a line feed, after which [rest] succeeds.
    [pre] is the prefix taken so far, reversed; [n] counts what may still be
    added. *)
Fixpoint lazy_label (rest : str → option str) (n : nat) (pre : str) (s : str)
  : option (str * str) :=
  match n, s with
  | S n', c :: s' =>
    if c =? 0x0A then None
    else
      match rest s' with
      | Some v => Some (rev (c :: pre), v)
      | None => lazy_label rest n' (c :: pre) s'
      end
  | _, _ => None
  end.

(** [[：:]\s*(.+)$] *)
Definition colon_rest (s : str) : option str :=
  match s with
  | c :: r => if is_colon c then ws_dots true r else None
  | [] => None
  end.

(** [\s*[-]\s*(.+)$] *)
Definition dash_rest (s : str) : option str :=
  match lstrip s with
  | c :: r => if c =? 0x2D then ws_dots true r else None
  | [] => None
  end.

Definition match_line (line : str) : option (str * str) :=
  match lazy_label colon_rest 30 [] line with
  | Some m => Some m
  | None => lazy_label dash_rest 30 [] line
  end.

Definition parse_label_value_text (raw : str) : list (str * str) :=
  let lines :=
    map normalize_space
        (filter (fun line => truthy (normalize_space line) = true) (splitlines raw)) in
  flat_map (fun line => match match_line line with Some m => [m] | None => [] end)
           lines.

(** ** [extract_company_info_from_section] *)

(** [strong.next_sibling]: a tag, read through [get_text], or a string. *)
Inductive sibling :=
  | SibTag (text : str)
  | SibString (s : str).

(** What the extraction queries of a section node.  The texts of tags are
    [get_text(separator=" ", strip=True)]. *)
Record section := {
  (** for every [dt] of every [dl]: its text and the text of
      [dt.find_next_sibling("dd")] *)
  dl_pairs : list (str * option str);
  (** for every [tr] of every [table]: the texts of [tr.find("th")] and
      [tr.find("td")] *)
  table_rows : list (option str * option str);
  section_text : str;
  (** for every [strong]/[b]: its text and its [next_sibling] *)
  strongs : list (str * option sibling);
  (** the texts of the [p] elements *)
  paragraphs : list str
}.

(** [extract_text]; an absent element gives the empty string. *)
Definition extract_text (el : option str) : str :=
  match el with
  | None => []
  | Some txt => normalize_space txt
  end.

(** Stage 1, definition lists and tables: [data[key] = val]. *)
Definition stage_dl (sec : section) (data : dict) : dict :=
  fold_left
    (fun data p =>
       let key := label_to_key (extract_text (Some (fst p))) in
       let val := extract_text (snd p) in
       if truthy val then dset key val data else data)
    (dl_pairs sec) data.

Definition stage_table (sec : section) (data : dict) : dict :=
  fold_left
    (fun data p =>
       match p with
       | (Some th, Some td) =>
         let key := label_to_key (extract_text (Some th)) in
         let val := extract_text (Some td) in
         if truthy val then dset key val data else data
       | _ => data
       end)
    (table_rows sec) data.

(** Stage 2, labelled text lines: [data.setdefault(key, value)]. *)
Definition stage_text (sec : section) (data : dict) : dict :=
  fold_left
    (fun data p =>
       let key := label_to_key (fst p) in
       if truthy (snd p) then setdefault key (snd p) data else data)
    (parse_label_value_text (extract_text (Some (section_text sec)))) data.

(** Stage 3, the text next to a [strong] or [b]. *)
Definition next_text_of (sib : option sibling) : str :=
  match sib with
  | None => []
  | Some (SibTag t) => extract_text (Some t)
  | Some (SibString s) => if truthy s then normalize_space s else []
  end.

Definition stage_strong (sec : section) (data : dict) : dict :=
  fold_left
    (fun data p =>
       let label := extract_text (Some (fst p)) in
       let next_text := next_text_of (snd p) in
       if truthy next_text then
         let key := label_to_key label in
         if negb (existsb is_colon next_text) && (length next_text <=? 300)%nat
         then setdefault key next_text data else data
       else data)
    (strongs sec) data.

(** Stage 4, long paragraphs as the business description. *)
Definition stage_paragraphs (sec : section) (data : dict) : dict :=
  if has_key COL_BUSINESS data then data
  else
    let ps :=
      filter (fun t => truthy t = true ∧ (30 <= length t)%nat)
             (map normalize_space (paragraphs sec)) in
    match ps with
    | [] => data
    | _ => dset COL_BUSINESS (join (u " / ") (take 3 ps)) data
    end.

Definition extract_company_info_from_section (sec : section) : dict :=
  stage_paragraphs sec
    (stage_strong sec (stage_text sec (stage_table sec (stage_dl sec [])))).

(** ** [pick_name], [pick_address], [scrape_one] *)

(** What [scrape_one] queries of a document. *)
Record soup := {
  (** the nodes [find_company_section] returns *)
  company_sections : list section;
  (** the texts of [find_all(["li", "span", "a"])] *)
  crumbs : list str;
  (** the texts of the [h1], then of the [h2] *)
  h1h2 : list str;
  (** [soup.title.string], when there is a title with a string *)
  title : option str;
  (** the text of the whole document *)
  full_text : str;
  (** for every [a] with [href]: the attribute and the text *)
  links : list (str * str)
}.

(** [sorted(cs, key=len)[0]]: the first among the shortest. *)
Fixpoint shortest (best : str) (cs : list str) : str :=
  match cs with
  | [] => best
  | c :: cs' => shortest (if (length c <? length best)%nat then c else best) cs'
  end.

Definition is_bar (c : N) : bool := (c =? 0x7C) || (c =? 0xFF5C).

(** The lazy [.+?] after its first code point, up to [$] or a bar. *)
Fixpoint lazy_tail (s : str) : option str :=
  match s with
  | [] => Some []
  | c :: s' =>
    if is_bar c then Some []
    else if c =? 0x0A then (match s' with [] => Some [] | _ => None end)
    else match lazy_tail s' with Some v => Some (c :: v) | None => None end
  end.

(** [re.search(r"(株式会社.+?)($|[|｜]|｜)", title)], group 1. *)
Fixpoint title_search (t : str) : option str :=
  let here :=
    if startswith (u "株式会社") t then
      match drop 4 t with
      | c :: r =>
        if c =? 0x0A then None
        else match lazy_tail r with
             | Some v => Some (u "株式会社" ++ c :: v)
             | None => None
             end
      | [] => None
      end
    else None in
  match here with
  | Some g => Some g
  | None => match t with [] => None | _ :: t' => title_search t' end
  end.

Definition pick_name (s : soup) : option str :=
  let crumb_candidates :=
    filter (fun txt => contains_any [u "株式会社"; u "有限会社"; u "組合"; u "合同会社"] txt = true)
           (map normalize_space (crumbs s)) in
  match crumb_candidates with
  | c :: cs => Some (shortest c cs)
  | [] =>
    match List.find (contains_any [u "株式会社"; u "有限会社"; u "合同会社"])
                    (map normalize_space (h1h2 s)) with
    | Some txt => Some txt
    | None =>
      match title s with
      | Some t => if truthy t then title_search (normalize_space t) else None
      | None => None
      end
    end
  end.

(** The alternatives of the address pattern at one position, in order. *)
Definition region_prefixes (t : str) : list str :=
  (if startswith (u "東京都") t then [u "東京都"] else [])
  ++ (if startswith (u "北海道") t then [u "北海道"] else [])
  ++ (if startswith (u "京都府") t then [u "京都府"] else [])
  ++ (if startswith (u "大阪府") t then [u "大阪府"] else [])
  ++ (match t with
      | a :: b :: c :: d :: _ =>
        if (d =? 0x770C) && (3 <=? length (dots [a; b; c]))%nat then [[a; b; c; d]] else []
      | _ => []
      end)
  ++ (match t with
      | a :: b :: c :: _ =>
        if (c =? 0x770C) && (2 <=? length (dots [a; b]))%nat then [[a; b; c]] else []
      | _ => []
      end).

(** [re.search(r"(東京都|北海道|(?:京都|大阪)府|.{2,3}県).{5,80}", t)],
    group 0. *)
Fixpoint address_search (t : str) : option str :=
  let here :=
    List.find (fun p => (5 <=? length (dots (drop (length p) t)))%nat)
              (region_prefixes t) in
  match here with
  | Some p => Some (p ++ take 80 (dots (drop (length p) t)))
  | None => match t with [] => None | _ :: t' => address_search t' end
  end.

Definition pick_address (info_map : dict) (s : soup) : option str :=
  let from_text :=
    normalize_space <$> address_search (normalize_space (full_text s)) in
  match dget COL_ADDR info_map with
  | Some v => if truthy v then Some v else from_text
  | None => from_text
  end.

(** The loop of [scrape_one] merging the dict of one section: a key that
    [info_map] has is left alone. *)
Definition merge_section (info_map : dict) (extracted : dict) : dict :=
  fold_left
    (fun m kv => if negb (has_key (fst kv) m) && truthy (snd kv)
                 then dset (fst kv) (snd kv) m else m)
    extracted info_map.

Definition merge_sections (secs : list section) : dict :=
  fold_left (fun m sec => merge_section m (extract_company_info_from_section sec))
            secs [].

(** The name taken from [info_map] when [pick_name] gave none. *)
Definition fallback_name (info_map : dict) (name : option str) : option str :=
  fold_left
    (fun name k =>
       match dget k info_map, name with
       | Some v, None => Some v
       | Some v, Some [] => Some v
       | _, _ => name
       end)
    [u "会社名"; u "商号"; u "法人名"; u "名称"] name.

(** The first link taken as the site of the company. *)
Fixpoint first_site (ls : list (str * str)) : option str :=
  match ls with
  | [] => None
  | (href, txt) :: ls' =>
    if startswith (u "http") href
       && (contains_any [u "公式"; u "サイト"; u "ホームページ"; u "URL"] (normalize_space txt)
           || negb (contains (u "fc-mado.com") href))
    then Some href else first_site ls'
  end.

Record world := {
  (** what [_session.get] does for the URL *)
  net : str → outcome http_response;
  (** [BeautifulSoup(html, "lxml")] with the queries made on it *)
  parser : str → outcome soup;
  (** the formatted time of the row of a URL *)
  now : str → str;
  (** the formatted time of the error row of a URL *)
  now_error : str → str;
  as_completed : list str → list str;
  input_csv : input_file
}.

Definition or_empty (o : option str) : str :=
  match o with Some v => v | None => [] end.

(** [scrape_one], from the parsed document on. *)
Definition fill_base (base : dict) (s : soup) : dict :=
  let info_map := merge_sections (company_sections s) in
  let name := fallback_name info_map (pick_name s) in
  let address := pick_address info_map s in
  let base := dset COL_NAME (or_empty name) base in
  let base := dset COL_ADDR (or_empty address) base in
  let base :=
    fold_left
      (fun b kv => if bool_decide (fst kv ∈ [COL_ADDR; COL_NAME]) then b
                   else dset (fst kv) (snd kv) b)
      info_map base in
  if has_key COL_SITE base then base
  else match first_site (links s) with
       | Some href => dset COL_SITE href base
       | None => base
       end.

Definition scrape_one (w : world) (url : str) : outcome dict :=
  match fetch (net w url) with
  | Raised e => Raised e
  | Returned html =>
    let base := [ (COL_TIME, now w url); (COL_URL, url);
                  (COL_NAME, []); (COL_ADDR, []) ] in
    match html with
    | None => Returned base
    | Some html =>
      match parser w html with
      | Returned s => Returned (fill_base base s)
      | Raised e => Raised e
      end
    end
  end.

(** ** [to_dataframe], [main] *)

(** [pd.DataFrame(rows).columns]: the keys of the rows, each at its first
    occurrence. *)
Definition add_keys (cols : list str) (rec : dict) : list str :=
  append_new cols (keys rec).

Definition frame_columns (rows : list dict) : list str :=
  fold_left add_keys rows [].

(** [sorted] on strings. *)
Definition sorted (l : list str) : list str := merge_sort str_leR l.

(** The column order [to_dataframe] fixes. *)
Definition ordered_columns (rows : list dict) : list str :=
  let cols := frame_columns rows in
  let cols := append_new cols REQUIRED_COLUMNS in
  let other_cols := filter (fun c => c ∉ REQUIRED_COLUMNS) cols in
  REQUIRED_COLUMNS ++ sorted other_cols.

(** A row of the frame as [to_csv] writes it: a cell is the value of the
    row under the column, and a missing cell is written empty. *)
Definition frame_row (columns : list str) (rec : dict) : list str :=
  writerow columns rec.

Definition to_dataframe (rows : list dict) : list str * list (list str) :=
  let ordered := ordered_columns rows in
  (ordered, map (frame_row ordered) rows).

Definition load_urls_from_csv (f : input_file) : outcome (list str) :=
  match open_csv f with
  | Raised e => Raised e
  | Returned rows =>
    Returned
      (flat_map
         (fun row =>
            match row with
            | [] => []
            | c :: _ =>
              let val := strip c in
              if negb (truthy val) then []
              else if bool_decide (map lower_ascii val ∈ [u "url"; u "リンク"; u "urls"])
              then [] else [val]
            end)
         rows)
  end.

(** The loop over the completed futures: a task that raised leaves an error
    row. *)
Definition collect_step (w : world) (results : list dict) (url : str) : list dict :=
  match scrape_one w url with
  | Returned row => results ++ [row]
  | Raised e =>
    results ++ [[ (COL_TIME, now_error w url); (COL_URL, url); (COL_NAME, []);
                  (COL_ADDR, []); (COL_ERROR, exn_msg e) ]]
  end.

Definition collect (w : world) (done : list str) : list dict :=
  fold_left (collect_step w) done [].

(** What the task of a URL adds to [results]. *)
Definition emitted (w : world) (url : str) : list dict := collect_step w [] url.

Definition main (w : world) : run :=
  match load_urls_from_csv (input_csv w) with
  | Raised _ => {| exit_status := 1; submitted := []; written := None |}
  | Returned [] => {| exit_status := 1; submitted := []; written := None |}
  | Returned urls =>
    {| exit_status := 0; submitted := urls;
       written := Some (to_dataframe (collect w (as_completed w urls))) |}
  end.

End Franchise.

(** * [tabelog_all.py] *)

Module Tabelog.

Definition MAX_RETRIES : nat := 3.

Record world := {
  (** [net url n]: what the [n]-th [requests.get] for [url] does *)
  net : str → nat → outcome http_response;
  (** [parse_list_page_for_detail_urls(html, base_url)]: the detail URLs of
      the page and the URL of the next page *)
  parse_list_page : str → str → list str * option str
}.

(** [fetch_html]: up to [MAX_RETRIES] attempts; every failure is kept in
    [last_err], and after the last one a [ScrapeError] is raised.  The
    messages are kept without the URL the scripts also put in them. *)
Fixpoint fetch_html_from (get : nat → outcome http_response)
    (attempt todo : nat) (last_err : str) : outcome str :=
  match todo with
  | O => Raised (OtherException (u "Failed to fetch: " ++ last_err))
  | S todo' =>
    match get attempt with
    | Returned resp =>
      if (status_code resp =? 200)%Z then Returned (text resp)
      else fetch_html_from get (S attempt) todo'
             (u "HTTP " ++ str_of_Z (status_code resp))
    | Raised e => fetch_html_from get (S attempt) todo' (exn_msg e)
    end
  end.

Definition fetch_html (w : world) (url : str) : outcome str :=
  fetch_html_from (net w url) 0 MAX_RETRIES (u "None").

(** How far a crawl got: it returned [all_urls], an exception of the
    fetcher ended it, or the fuel of the model ran out with the loop still
    running.  [fetched] lists the URLs passed to [fetch_html], in order. *)
Inductive crawl_end :=
  | Done (all_urls : list str)
  | Aborted (e : exn)
  | Running.

Record crawl := { crawl_end_of : crawl_end; fetched : list str }.

(** The loop [for u in detail_urls: if u not in all_urls: ...]. *)
Definition add_new (all_urls : list str) (detail_urls : list str) : list str :=
  append_new all_urls detail_urls.

(** The [while] loop of [crawl_all_details]; [fuel] bounds the number of
    iterations. *)
Fixpoint crawl_loop (w : world) (fuel : nat) (next_url : option str)
    (seen_pages : gset str) (all_urls : list str) (trace : list str) : crawl :=
  match next_url with
  | None => {| crawl_end_of := Done all_urls; fetched := trace |}
  | Some url =>
    if truthy url && negb (bool_decide (url ∈ seen_pages)) then
      match fuel with
      | O => {| crawl_end_of := Running; fetched := trace |}
      | S fuel' =>
        let seen_pages := {[url]} ∪ seen_pages in
        match fetch_html w url with
        | Raised e => {| crawl_end_of := Aborted e; fetched := trace ++ [url] |}
        | Returned html =>
          let page := parse_list_page w html url in
          crawl_loop w fuel' (snd page) seen_pages (add_new all_urls (fst page))
                     (trace ++ [url])
        end
      end
    else {| crawl_end_of := Done all_urls; fetched := trace |}
  end.

Definition crawl_all_details (w : world) (fuel : nat) (list_url : str) : crawl :=
  crawl_loop w fuel (Some list_url) ∅ [] [].

(** The list pages the pagination can lead to from [start]. *)
Inductive reachable (w : world) (start : str) : str → Prop :=
  | reach_start : reachable w start start
  | reach_next url html nxt :
      reachable w start url →
      fetch_html w url = Returned html →
      snd (parse_list_page w html url) = Some nxt →
      reachable w start nxt.

(** An attempt that ends [fetch_html]: a response with status 200. *)
Definition is_ok (o : outcome http_response) : bool :=
  match o with
  | Returned resp => (status_code resp =? 200)%Z
  | Raised _ => false
  end.

(** ** [absolutize] *)

Fixpoint until_slash (s : str) : str :=
  match s with
  | c :: s' => if c =? 0x2F then [] else c :: until_slash s'
  | [] => []
  end.

(** [re.match(r"^(https?://[^/]+)/", base)], group 1: the scheme and the
    host, when a slash follows a non-empty host. *)
Definition origin_with (scheme : str) (base : str) : option str :=
  if startswith scheme base then
    let rest := drop (length scheme) base in
    let host := until_slash rest in
    if truthy host && startswith [0x2F] (drop (length host) rest)
    then Some (scheme ++ host) else None
  else None.

Definition origin_of (base : str) : option str :=
  match origin_with (u "https://") base with
  | Some o => Some o
  | None => origin_with (u "http://") base
  end.

Definition absolutize (base href : str) : option str :=
  if negb (truthy href) then None
  else if startswith (u "http") href then Some href
  else if startswith [0x2F] href then
    match origin_of base with
    | Some o => Some (o ++ href)
    | None => None
    end
  else None.

(** ** [main] *)

(** The detail URLs a list page gives, nothing when its fetch fails. *)
Definition details (w : world) (url : str) : list str :=
  match fetch_html w url with
  | Returned html => fst (parse_list_page w html url)
  | Raised _ => []
  end.

(** The dict [extract_store_info] returns: always the same four keys, each
    with a string or [None]. *)
Record store_info := {
  store_name : option str;
  store_address : option str;
  store_phone : option str;
  store_hp : option str
}.

(** A run of the script: the pages, [extract_store_info] on the text of a
    detail page, and [sys.argv]. *)
Record site := {
  web : world;
  extract_store_info : str → outcome store_info;
  argv : list str
}.

Definition fieldnames : list str := Eval vm_compute in
  [ u "店舗名"; u "住所"; u "電話番号"; u "HP"; u "詳細URL" ].

(** [None] is written as an empty cell. *)
Definition cell (o : option str) : str :=
  match o with Some v => v | None => [] end.

(** One iteration of the loop over the detail URLs: the row appended to
    [rows], nothing when the [try] block raised. *)
Definition detail_row (s : site) (url : str) : list (list str) :=
  match fetch_html (web s) url with
  | Returned html =>
    match extract_store_info s html with
    | Returned info =>
      [[ cell (store_name info); cell (store_address info);
         cell (store_phone info); cell (store_hp info); url ]]
    | Raised _ => []
    end
  | Raised _ => []
  end.

(** [main], with the fuel of the crawl; [None] when the fuel runs out.  An
    exception of [crawl_all_details] reaches the top level. *)
Definition main (s : site) (fuel : nat) : option run :=
  match argv s with
  | _ :: list_url :: _ :: _ =>
    match crawl_end_of (crawl_all_details (web s) fuel (strip list_url)) with
    | Running => None
    | Aborted _ => Some {| exit_status := 1; submitted := []; written := None |}
    | Done detail_urls =>
      Some {| exit_status := 0; submitted := detail_urls;
              written := Some (fieldnames, flat_map (detail_row s) detail_urls) |}
    end
  | _ => Some {| exit_status := 1; submitted := []; written := None |}
  end.

End Tabelog.

(** * Sample inputs *)

Module Samples.

Definition url_a : str := Eval vm_compute in u "http://a.example/x".
Definition url_b : str := Eval vm_compute in u "http://b.example/y".
Definition stamp : str := Eval vm_compute in u "2024/01/01 00:00:00".

(** Two records as the extraction produces them, with different optional
    keys. *)
Definition rec_a : dict := Eval vm_compute in
  [ (u "取得日時", stamp); (u "取得URL", url_a); (u "名称", u "A株式会社");
    (u "住所", u "東京都千代田区"); (u "代表者", u "山田太郎") ].

Definition rec_b : dict := Eval vm_compute in
  [ (u "取得日時", stamp); (u "取得URL", url_b); (u "名称", u "B株式会社");
    (u "住所", u "大阪府大阪市"); (u "設立", u "2001年4月") ].

(** A row as [scrape_one] of the franchise script builds it: the keys of
    [info_map] first, the key "URL" last. *)
Definition row_f : dict := Eval vm_compute in
  [ (u "取得日時", stamp); (u "取得URL", url_a); (u "名称", u "A株式会社");
    (u "住所", u "東京都千代田区"); (u "電話", u "03-0000-0000");
    (u "URL", u "http://a.example/") ].

(** A table of the repre script without a telephone row. *)
Definition table_no_tel : Repre.table := Eval vm_compute in
  [ [u "名称"; u "A株式会社"]; [u "住所"; u "東京都千代田区"] ].

(** A document of the dairitenbosyuu script whose table states the same
    label twice. *)
Definition soup_twice : Dairitenbosyuu.soup := Eval vm_compute in
  {| Dairitenbosyuu.tables :=
       [ [ [u "設立"; u "2001年4月1日"]; [u "設立"; u "不明"] ] ];
     Dairitenbosyuu.strings := [];
     Dairitenbosyuu.headings := [];
     Dairitenbosyuu.blocks := [];
     Dairitenbosyuu.whole_text := [] |}.

(** The same table as the dairitenhonpo script reads it. *)
Definition honpo_soup_twice : Dairitenhonpo.soup := Eval vm_compute in
  {| Dairitenhonpo.headings := [];
     Dairitenhonpo.tables :=
       [ [ {| Dairitenhonpo.row_th := Some (u "設立");
              Dairitenhonpo.row_td := Some (u "2001年4月1日") |};
           {| Dairitenhonpo.row_th := Some (u "設立");
              Dairitenhonpo.row_td := Some (u "不明") |} ] ] |}.

(** A server that answers 503 twice and then 200. *)
Definition flaky (n : nat) : outcome http_response :=
  match n with
  | 0%nat | 1%nat => Returned {| status_code := 503; text := [] |}
  | _ => Returned {| status_code := 200; text := u "<html></html>" |}
  end.

Definition not_found (n : nat) : outcome http_response :=
  Returned {| status_code := 404; text := u "not found" |}.

Definition created : http_response :=
  {| status_code := 201; text := u "<html></html>" |}.

(** A run of the franchise script over one URL that answers 404. *)
Definition franchise_down : Franchise.world :=
  {| Franchise.net := fun _ => Returned {| status_code := 404; text := [] |};
     Franchise.parser := fun _ => Raised (OtherException (u "no document"));
     Franchise.now := fun _ => stamp;
     Franchise.now_error := fun _ => stamp;
     Franchise.as_completed := fun urls => urls;
     Franchise.input_csv := Rows [[url_a]] |}.

(** The page of the end-to-end scenario: one table with the rows
    名称 / Example Co. and 住所 / Tokyo. *)
Definition honpo_page : Dairitenhonpo.soup := Eval vm_compute in
  {| Dairitenhonpo.headings := [];
     Dairitenhonpo.tables :=
       [ [ {| Dairitenhonpo.row_th := Some (u "名称");
              Dairitenhonpo.row_td := Some (u "Example Co.") |};
           {| Dairitenhonpo.row_th := Some (u "住所");
              Dairitenhonpo.row_td := Some (u "Tokyo") |} ] ] |}.

(** A run of the dairitenhonpo script over two URLs: the first answers with
    that page, the second always times out. *)
Definition honpo_world : Dairitenhonpo.world :=
  {| Dairitenhonpo.net := fun url _ =>
       if bool_decide (url = url_a)
       then Returned {| status_code := 200; text := u "<html>a</html>" |}
       else Raised (Timeout (u "timed out"));
     Dairitenhonpo.parser := fun _ => Returned honpo_page;
     Dairitenhonpo.now := fun _ => stamp;
     Dairitenhonpo.as_completed := fun urls => urls;
     Dairitenhonpo.input_csv := Rows [[u "url"]; [url_a]; [url_b]] |}.

(** A run of the dairitenbosyuu script whose input file is empty. *)
Definition bosyuu_empty : Dairitenbosyuu.world :=
  {| Dairitenbosyuu.net := fun _ => Raised (Timeout (u "timed out"));
     Dairitenbosyuu.parser := fun _ => Raised (OtherException (u "no document"));
     Dairitenbosyuu.pats :=
       {| Dairitenbosyuu.ADDRESS_PAT := fun _ => None;
          Dairitenbosyuu.PHONE_PAT := fun _ => None;
          Dairitenbosyuu.EMAIL_PAT := fun _ => None |};
     Dairitenbosyuu.now := fun _ => stamp;
     Dairitenbosyuu.as_completed := fun urls => urls;
     Dairitenbosyuu.input_csv := Rows [] |}.

(** The record the dairitenhonpo script builds from [honpo_page]. *)
Definition honpo_rec : dict := Eval vm_compute in
  [ (u "取得日時", stamp); (u "取得URL", url_a); (u "名称", u "Example Co.");
    (u "住所", u "Tokyo") ].

(** A section of the franchise script that states the address in a
    definition list, in a table and once more in its text. *)
Definition section_address : Franchise.section := Eval vm_compute in
  {| Franchise.dl_pairs := [ (u "住所", Some (u "東京都千代田区1-1")) ];
     Franchise.table_rows := [ (Some (u "所在地"), Some (u "東京都港区2-2")) ];
     Franchise.section_text := u "住所: 大阪府大阪市3-3";
     Franchise.strongs := [ (u "住所", Some (Franchise.SibString (u "京都府京都市4-4"))) ];
     Franchise.paragraphs := [] |}.

(** A list of two pages whose "next" links form a cycle. *)
Definition page_1 : str := Eval vm_compute in u "https://tabelog.com/osaka/rstLst/1/".
Definition page_2 : str := Eval vm_compute in u "https://tabelog.com/osaka/rstLst/2/".
Definition shop_1 : str := Eval vm_compute in u "https://tabelog.com/osaka/A1/1000001/".
Definition shop_2 : str := Eval vm_compute in u "https://tabelog.com/osaka/A1/1000002/".
Definition shop_3 : str := Eval vm_compute in u "https://tabelog.com/osaka/A1/1000003/".

Definition tabelog_cycle : Tabelog.world :=
  {| Tabelog.net := fun url _ => Returned {| status_code := 200; text := url |};
     Tabelog.parse_list_page := fun _ base =>
       if bool_decide (base = page_1) then ([shop_1; shop_2], Some page_2)
       else if bool_decide (base = page_2) then ([shop_2; shop_3], Some page_1)
       else ([], None) |}.

(** A run of the dairitenbosyuu script in which building the document of
    the one URL raises. *)
Definition bosyuu_broken : Dairitenbosyuu.world :=
  {| Dairitenbosyuu.net := fun _ =>
       Returned {| status_code := 200; text := u "<html>a</html>" |};
     Dairitenbosyuu.parser := fun _ => Raised (OtherException (u "parser failed"));
     Dairitenbosyuu.pats := Dairitenbosyuu.pats bosyuu_empty;
     Dairitenbosyuu.now := fun _ => stamp;
     Dairitenbosyuu.as_completed := fun urls => urls;
     Dairitenbosyuu.input_csv := Rows [[url_a]] |}.

(** A page of the dairitenbosyuu script whose table names the company and
    states its address under two labels. *)
Definition bosyuu_page : Dairitenbosyuu.soup := Eval vm_compute in
  {| Dairitenbosyuu.tables :=
       [ [ [u "会社名"; u "A株式会社"]; [u "住所"; u "大阪府大阪市2-2"];
           [u "所在地"; u "東京都千代田区1-1"] ] ];
     Dairitenbosyuu.strings := [];
     Dairitenbosyuu.headings := [u "B有限会社のご案内"];
     Dairitenbosyuu.blocks := [];
     Dairitenbosyuu.whole_text := [] |}.

Definition bosyuu_world : Dairitenbosyuu.world :=
  {| Dairitenbosyuu.net := fun _ =>
       Returned {| status_code := 200; text := u "<html>a</html>" |};
     Dairitenbosyuu.parser := fun _ => Returned bosyuu_page;
     Dairitenbosyuu.pats := Dairitenbosyuu.pats bosyuu_empty;
     Dairitenbosyuu.now := fun _ => stamp;
     Dairitenbosyuu.as_completed := fun urls => urls;
     Dairitenbosyuu.input_csv := Rows [[url_a]] |}.

(** A page of the franchise script with that section, the company in a
    breadcrumb, and a link to its site; and a run over one URL that gets
    it. *)
Definition franchise_page : Franchise.soup := Eval vm_compute in
  {| Franchise.company_sections := [section_address];
     Franchise.crumbs := [u "ホーム"; u "A株式会社"];
     Franchise.h1h2 := [];
     Franchise.title := None;
     Franchise.full_text := [];
     Franchise.links := [ (u "http://a.example/", u "公式サイト") ] |}.

Definition franchise_up : Franchise.world :=
  {| Franchise.net := fun _ =>
       Returned {| status_code := 200; text := u "<html>a</html>" |};
     Franchise.parser := fun _ => Returned franchise_page;
     Franchise.now := fun _ => stamp;
     Franchise.now_error := fun _ => stamp;
     Franchise.as_completed := fun urls => urls;
     Franchise.input_csv := Rows [[u "URL"]; [url_a]] |}.

(** A run of the repre script over one URL that is redirected to another
    and answers with a page whose company table is [table_no_tel]. *)
Definition repre_world : Repre.world :=
  {| Repre.net := fun _ =>
       Returned (url_b, {| status_code := 200; text := u "<html>a</html>" |});
     Repre.parser := fun _ =>
       Returned {| Repre.recruit_table := Some table_no_tel;
                   Repre.all_tables := [table_no_tel] |};
     Repre.now := fun _ => stamp;
     Repre.as_completed := fun urls => urls;
     Repre.argv := [u "scrape.py"; u "all_urls.csv"];
     Repre.int_argv3 := Returned 10%Z;
     Repre.input_csv := fun _ => Rows [[u "URL"]; [url_a]] |}.




(** A page of the dairitenbosyuu script whose table names a shop without a
    legal form, under a heading that names a company. *)
Definition bosyuu_shop : Dairitenbosyuu.soup := Eval vm_compute in
  {| Dairitenbosyuu.tables := [ [ [u "会社名"; u "A商店"] ] ];
     Dairitenbosyuu.strings := [];
     Dairitenbosyuu.headings := [u "B株式会社のご案内"];
     Dairitenbosyuu.blocks := [];
     Dairitenbosyuu.whole_text := [] |}.

End Samples.

(** * Facts on Python values *)

Close Scope N_scope.

Section PyFacts.

Lemma dget_dset_eq k v d : dget k (dset k v d) = Some v.
Proof.
  induction d as [|[k' v'] d IH]; simpl.
  - by rewrite decide_True.
  - destruct (decide (k' = k)) as [->|Hne]; simpl.
    + by rewrite decide_True.
    + by rewrite decide_False.
Qed.

Lemma dget_dset_ne k k' v d : k ≠ k' → dget k' (dset k v d) = dget k' d.
Proof.
  intros Hne. induction d as [|[k0 v0] d IH]; simpl.
  - by rewrite decide_False.
  - destruct (decide (k0 = k)) as [->|Hne0]; simpl.
    + by rewrite !decide_False.
    + destruct (decide (k0 = k')); [done | apply IH].
Qed.

Lemma elem_of_keys_dget k d : k ∈ keys d ↔ is_Some (dget k d).
Proof.
  unfold keys. induction d as [|[k' v'] d IH]; simpl.
  - split; [by intros ?%elem_of_nil | by intros [? ?]].
  - rewrite elem_of_cons, IH. destruct (decide (k' = k)) as [->|Hne].
    + split; [eauto | by left].
    + split; [intros [->|?]; [done | done] | by right].
Qed.

Lemma not_elem_of_keys_dget k d : k ∉ keys d ↔ dget k d = None.
Proof. rewrite elem_of_keys_dget, eq_None_not_Some. done. Qed.

Lemma elem_of_keys_dset k k' v d : k' ∈ keys (dset k v d) ↔ k' = k ∨ k' ∈ keys d.
Proof.
  rewrite !elem_of_keys_dget. destruct (decide (k = k')) as [->|Hne].
  - rewrite dget_dset_eq. split; [by left | eauto].
  - rewrite dget_dset_ne by done. split; [by right | intros [->|?]; done].
Qed.

Lemma has_key_true k d : has_key k d = true ↔ k ∈ keys d.
Proof. unfold has_key. by rewrite bool_decide_eq_true. Qed.

Lemma has_key_false k d : has_key k d = false ↔ k ∉ keys d.
Proof. unfold has_key. by rewrite bool_decide_eq_false. Qed.

(** [setdefault] never changes the value of a key the dict has. *)
Lemma dget_setdefault_keep k k' v d :
  is_Some (dget k d) → dget k (setdefault k' v d) = dget k d.
Proof.
  intros Hk. unfold setdefault. destruct (has_key k' d) eqn:Hh; [done|].
  apply dget_dset_ne. intros ->.
  apply has_key_false in Hh. by apply Hh, elem_of_keys_dget.
Qed.

(** ** The first-seen union *)

Lemma filter_first_seen (P : str → Prop) `{∀ x, Decision (P x)} l :
  filter P (first_seen l) = first_seen (filter P l).
Proof.
  induction l as [|x l IH]; [done|]. simpl.
  destruct (decide (P x)) as [HP|HP].
  - rewrite !filter_cons_True by done. simpl. f_equal.
    rewrite <- IH, !list_filter_filter. apply list_filter_iff. tauto.
  - rewrite !filter_cons_False by done. rewrite <- IH, list_filter_filter.
    apply list_filter_iff. intros y. split; [tauto|].
    intros Hy. split; [done | by intros ->].
Qed.

Lemma elem_of_first_seen x l : x ∈ first_seen l ↔ x ∈ l.
Proof.
  induction l as [|y l IH]; [done|]. simpl.
  rewrite !elem_of_cons, list_elem_of_filter, IH.
  destruct (decide (x = y)); tauto.
Qed.

Lemma NoDup_first_seen l : NoDup (first_seen l).
Proof.
  induction l as [|y l IH]; simpl; [constructor|].
  apply NoDup_cons. split; [|by apply NoDup_filter].
  rewrite list_elem_of_filter. tauto.
Qed.

(** The loop [append_new] computes the first-seen order of what is new. *)
Lemma append_new_spec cols ks :
  append_new cols ks = cols ++ first_seen (filter (fun k => k ∉ cols) ks).
Proof.
  unfold append_new. revert cols.
  induction ks as [|k ks IH]; intros cols; simpl.
  - by rewrite app_nil_r.
  - case_bool_decide as Hk.
    + rewrite IH, filter_cons_False; [done | by intros ?].
    + rewrite IH, filter_cons_True by done. simpl.
      rewrite <- app_assoc. simpl. do 2 f_equal.
      rewrite filter_first_seen, list_filter_filter. f_equal.
      apply list_filter_iff. intros y.
      rewrite not_elem_of_app, list_elem_of_singleton. tauto.
Qed.

Lemma append_new_app cols ks1 ks2 :
  append_new cols (ks1 ++ ks2) = append_new (append_new cols ks1) ks2.
Proof. unfold append_new. apply fold_left_app. Qed.

(** Folding [append_new] over the records is one pass over all their
    keys. *)
Lemma fold_append_new_keys (records : list dict) cols :
  fold_left (fun cs rec => append_new cs (keys rec)) records cols
  = append_new cols (concat (map keys records)).
Proof.
  revert cols. induction records as [|r rs IH]; intros cols; simpl; [done|].
  by rewrite IH, append_new_app.
Qed.

Lemma fold_append_new_spec required (records : list dict) :
  fold_left (fun cs rec => append_new cs (keys rec)) records required
  = required ++ union_first_seen required records.
Proof. by rewrite fold_append_new_keys, append_new_spec. Qed.

Lemma elem_of_concat (x : str) (ls : list (list str)) :
  x ∈ concat ls ↔ ∃ l, l ∈ ls ∧ x ∈ l.
Proof.
  induction ls as [|l ls IH]; simpl.
  - split; [by intros ?%elem_of_nil | by intros (? & ?%elem_of_nil & _)].
  - rewrite elem_of_app, IH. split.
    + intros [Hx|(l' & Hl' & Hx)]; [exists l | exists l'];
        (split; [|done]); [by left | by right].
    + intros (l' & [->|Hl']%elem_of_cons & Hx); [by left | right; eauto].
Qed.

Lemma elem_of_union_first_seen required (records : list dict) k :
  k ∈ union_first_seen required records
  ↔ (k ∉ required) ∧ (∃ rec, rec ∈ records ∧ k ∈ keys rec).
Proof.
  unfold union_first_seen.
  rewrite elem_of_first_seen, list_elem_of_filter, elem_of_concat.
  split.
  - intros [Hk (ks & Hks & Hin)]. split; [done|].
    apply list_elem_of_In, in_map_iff in Hks as (rec & <- & Hrec).
    exists rec. split; [by apply list_elem_of_In | done].
  - intros [Hk (rec & Hrec & Hin)]. split; [done|].
    exists (keys rec). split; [|done].
    apply list_elem_of_In, in_map, list_elem_of_In, Hrec.
Qed.

Lemma union_first_seen_Permutation required (rs rs' : list dict) :
  rs ≡ₚ rs' → union_first_seen required rs ≡ₚ union_first_seen required rs'.
Proof.
  intros Hp. apply NoDup_Permutation; [apply NoDup_first_seen ..|].
  intros k. rewrite !elem_of_union_first_seen.
  by setoid_rewrite Hp.
Qed.

(** ** The order on strings *)

Lemma str_le_total a b : str_le a b = true ∨ str_le b a = true.
Proof.
  revert b. induction a as [|x a IH]; intros [|y b]; simpl; auto.
  destruct (IH b) as [->| ->];
    destruct (N.ltb_spec x y), (N.ltb_spec y x), (N.eqb_spec x y), (N.eqb_spec y x);
    simpl; auto; lia.
Qed.

Lemma str_le_trans a b c :
  str_le a b = true → str_le b c = true → str_le a c = true.
Proof.
  revert b c. induction a as [|x a IH]; intros [|y b] [|z c]; simpl; auto;
    try discriminate.
  intros H1 H2.
  destruct (N.ltb_spec x y), (N.ltb_spec y z), (N.ltb_spec x z),
    (N.eqb_spec x y), (N.eqb_spec y z), (N.eqb_spec x z);
    simpl in *; try done; try lia.
  eauto.
Qed.

Lemma str_le_antisym a b : str_le a b = true → str_le b a = true → a = b.
Proof.
  revert b. induction a as [|x a IH]; intros [|y b]; simpl; auto;
    try discriminate.
  intros H1 H2.
  destruct (N.ltb_spec x y), (N.ltb_spec y x), (N.eqb_spec x y), (N.eqb_spec y x);
    simpl in *; try done; try lia.
  subst. f_equal. by apply IH.
Qed.

Global Instance str_leR_total : Total str_leR.
Proof. intros a b. apply str_le_total. Qed.

Global Instance str_leR_trans : Transitive str_leR.
Proof. intros a b c. apply str_le_trans. Qed.

Global Instance str_leR_antisym : AntiSymm (=) str_leR.
Proof. intros a b. apply str_le_antisym. Qed.

(** ** [writerow] *)

Lemma writerow_length cols rec : length (writerow cols rec) = length cols.
Proof. unfold writerow. apply length_map. Qed.

Lemma writerow_lookup cols rec (i : nat) k :
  cols !! i = Some k → writerow cols rec !! i = Some (dget_default k [] rec).
Proof. intros Hi. unfold writerow. by rewrite list_lookup_fmap, Hi. Qed.

Lemma writerow_surplus cols rec k v :
  k ∉ cols → writerow cols (dset k v rec) = writerow cols rec.
Proof.
  intros Hk. unfold writerow. apply map_ext_in. intros k' Hin.
  unfold dget_default. rewrite dget_dset_ne; [done|].
  intros ->. by apply Hk, list_elem_of_In.
Qed.

End PyFacts.

(** * The string functions on sample inputs

    The expected values are what Python returns for these inputs. *)

Section Checks.

Example split_sample :
  split [0x20; 0x61; 0x3000; 0x62; 0x20; 0x0A; 0x20; 0x63; 0x20]%N
  = [u "a"; u "b"; u "c"].
Proof. vm_compute. reflexivity. Qed.

Example splitlines_sample :
  Franchise.splitlines [0x61; 0x0D; 0x0A; 0x62; 0x0A; 0x63]%N = [u "a"; u "b"; u "c"].
Proof. vm_compute. reflexivity. Qed.

Example sorted_sample :
  Franchise.sorted [u "電話"; u "URL"; u "代表者"; u "TEL"]
  = [u "TEL"; u "URL"; u "代表者"; u "電話"].
Proof. vm_compute. reflexivity. Qed.

Example match_line_dash :
  Franchise.match_line (u "電話 - 03-1234-5678") = Some (u "電話", u "03-1234-5678").
Proof. vm_compute. reflexivity. Qed.

Example match_line_colon :
  Franchise.match_line (u "設立：2001年4月") = Some (u "設立", u "2001年4月").
Proof. vm_compute. reflexivity. Qed.

Example label_to_key_ignores_case :
  Franchise.label_to_key (u "公式url") = u "URL"
  ∧ Franchise.label_to_key (u "本社所在地") = u "住所"
  ∧ Franchise.label_to_key (u "備考") = u "備考".
Proof. vm_compute. done. Qed.

Example title_search_sample :
  Franchise.title_search (u "会社概要 | 株式会社サンプル｜フランチャイズの窓口")
  = Some (u "株式会社サンプル").
Proof. vm_compute. reflexivity. Qed.

Example address_search_sample :
  Franchise.address_search (u "本社 神奈川県横浜市西区1-2-3 サンプルビル")
  = Some (u "神奈川県横浜市西区1-2-3 サンプルビル").
Proof. vm_compute. reflexivity. Qed.

Example heading_search_sample :
  Dairitenbosyuu.heading_search (u "募集企業：SMBC GMO PAYMENT株式会社")
  = Some (u "SMBC GMO PAYMENT株式会社").
Proof. vm_compute. reflexivity. Qed.

Example normalized_key_sample :
  Dairitenhonpo.normalized_key (u "本社所在地") = u "住所"
  ∧ Dairitenhonpo.normalized_key (u "TEL/FAX") = u "電話"
  ∧ Repre.norm_key (u "電話番号") = u "TEL".
Proof. vm_compute. done. Qed.

End Checks.

(** * The column schema *)

Section ColumnSchema.

Lemma bosyuu_unify_columns_spec (records : list dict) :
  Dairitenbosyuu.unify_columns records
  = Dairitenbosyuu.REQUIRED_COLUMNS
      ++ union_first_seen Dairitenbosyuu.REQUIRED_COLUMNS records.
Proof. apply fold_append_new_spec. Qed.

Lemma honpo_header_of_spec (records : list dict) :
  Dairitenhonpo.header_of records
  = Dairitenhonpo.REQUIRED_COLUMNS
      ++ union_first_seen Dairitenhonpo.REQUIRED_COLUMNS records.
Proof. apply fold_append_new_spec. Qed.

Lemma filter_True_id (l : list str) : filter (fun k => k ∉ []) l = l.
Proof.
  induction l as [|x l IH]; [done|].
  rewrite filter_cons_True; [by f_equal | apply not_elem_of_nil].
Qed.

Lemma filter_nothing (P : str → Prop) `{∀ x, Decision (P x)} (l : list str) :
  (∀ x, x ∈ l → ¬ P x) → filter P l = [].
Proof.
  induction l as [|x l IH]; intros Hl; [done|].
  rewrite filter_cons_False; [|apply Hl; by left].
  apply IH. intros y Hy. apply Hl. by right.
Qed.

(** The frame has the keys of the rows in first-seen order. *)
Lemma franchise_frame_columns_spec (rows : list dict) :
  Franchise.frame_columns rows = first_seen (concat (map keys rows)).
Proof.
  unfold Franchise.frame_columns.
  etrans; [apply (fold_append_new_keys rows [])|].
  by rewrite append_new_spec, filter_True_id.
Qed.

Lemma franchise_ordered_columns_spec (rows : list dict) :
  Franchise.ordered_columns rows
  = Franchise.REQUIRED_COLUMNS
      ++ Franchise.sorted (union_first_seen Franchise.REQUIRED_COLUMNS rows).
Proof.
  unfold Franchise.ordered_columns. cbv zeta. f_equal. f_equal.
  rewrite append_new_spec, filter_app, franchise_frame_columns_spec.
  rewrite !filter_first_seen, list_filter_filter.
  rewrite (filter_nothing _ Franchise.REQUIRED_COLUMNS); [by rewrite app_nil_r|].
  intros x Hx [Hx' _]. done.
Qed.

Lemma sorted_sorted (l : list str) : StronglySorted str_leR (Franchise.sorted l).
Proof. apply StronglySorted_merge_sort; apply _. Qed.

Lemma sorted_Permutation (l : list str) : Franchise.sorted l ≡ₚ l.
Proof. apply merge_sort_Permutation. Qed.

(** Sorting forgets the order of its argument. *)
Lemma sorted_Permutation_eq (l l' : list str) :
  l ≡ₚ l' → Franchise.sorted l = Franchise.sorted l'.
Proof.
  intros Hp. apply (StronglySorted_unique str_leR); [apply sorted_sorted ..|].
  by rewrite !sorted_Permutation.
Qed.

(** C5 (as amended).  For every list of records, the column schema starts
    with the four required columns in their fixed positions.  In
    [unify_columns] (dairitenbosyuu) and in [write_csv] (dairitenhonpo) they
    are followed by the union of the other keys of the records, in
    first-seen order; in [to_dataframe] (franchise_no_madoguti) they are
    followed by the same union in ascending sorted order.  That union has no
    duplicates and holds exactly the non-required keys of the records.  A
    record is projected onto a schema cell by cell: the value of the record
    under the column, the empty string where the key is absent; keys outside
    the schema do not reach the row. *)
Theorem C5_column_schema (records : list dict) :
  let required := Dairitenbosyuu.REQUIRED_COLUMNS in
  let others := union_first_seen required records in
  Dairitenbosyuu.unify_columns records = required ++ others
  ∧ Dairitenhonpo.header_of records = required ++ others
  ∧ (Franchise.ordered_columns records = required ++ Franchise.sorted others
     ∧ StronglySorted str_leR (Franchise.sorted others)
     ∧ Franchise.sorted others ≡ₚ others)
  ∧ (NoDup others
     ∧ ∀ k, k ∈ others ↔ (k ∉ required) ∧ (∃ rec, rec ∈ records ∧ k ∈ keys rec))
  ∧ (∀ (cols : list str) (rec : dict),
       length (writerow cols rec) = length cols
       ∧ (∀ (i : nat) k, cols !! i = Some k →
            writerow cols rec !! i
            = Some (match dget k rec with Some v => v | None => [] end))
       ∧ (∀ k v, k ∉ cols → writerow cols (dset k v rec) = writerow cols rec)).
Proof.
  intros required others. split_and!.
  - apply bosyuu_unify_columns_spec.
  - apply honpo_header_of_spec.
  - apply franchise_ordered_columns_spec.
  - apply sorted_sorted.
  - apply sorted_Permutation.
  - apply NoDup_first_seen.
  - intros k. apply elem_of_union_first_seen.
  - intros cols rec. split_and!.
    + apply writerow_length.
    + intros i k Hi. by rewrite (writerow_lookup _ _ _ _ Hi).
    + apply writerow_surplus.
Qed.

Lemma C5_column_schema_witness :
  Dairitenbosyuu.unify_columns [Samples.rec_a; Samples.rec_b]
  = Dairitenbosyuu.REQUIRED_COLUMNS ++ [u "代表者"; u "設立"]
  ∧ writerow (Dairitenbosyuu.unify_columns [Samples.rec_a; Samples.rec_b])
             Samples.rec_b !! 4%nat = Some [].
Proof.
  destruct (C5_column_schema [Samples.rec_a; Samples.rec_b])
    as (Hcols & _ & _ & _ & Hrow).
  split.
  - rewrite Hcols. vm_compute. reflexivity.
  - destruct (Hrow (Dairitenbosyuu.unify_columns [Samples.rec_a; Samples.rec_b])
                   Samples.rec_b) as (_ & Hcell & _).
    rewrite (Hcell 4%nat (u "代表者")); vm_compute; reflexivity.
Defined.

(** C5 fails as stated on [to_dataframe]: the optional columns of the frame
    are sorted, so a row with the keys "電話" and then "URL" gives the
    columns "URL", "電話", not the first-seen order. *)
Lemma C5_counterexample_to_dataframe :
  Franchise.ordered_columns [Samples.row_f]
  ≠ Franchise.REQUIRED_COLUMNS
      ++ union_first_seen Franchise.REQUIRED_COLUMNS [Samples.row_f].
Proof. vm_compute. by intros [=]. Qed.

(** C6 (as amended).  When the list of records is permuted, the schema of
    [unify_columns] keeps the same set of columns and the required columns
    keep their positions, the optional columns following in the first-seen
    order of the permuted list; the schema of [to_dataframe] does not change
    at all, its optional columns being sorted. *)
Theorem C6_schema_under_permutation (rs rs' : list dict) :
  rs ≡ₚ rs' →
  (Dairitenbosyuu.unify_columns rs ≡ₚ Dairitenbosyuu.unify_columns rs'
   ∧ take 4 (Dairitenbosyuu.unify_columns rs) = Dairitenbosyuu.REQUIRED_COLUMNS
   ∧ take 4 (Dairitenbosyuu.unify_columns rs') = Dairitenbosyuu.REQUIRED_COLUMNS)
  ∧ Franchise.ordered_columns rs = Franchise.ordered_columns rs'.
Proof.
  intros Hp. rewrite !bosyuu_unify_columns_spec, !franchise_ordered_columns_spec.
  split_and!.
  - f_equiv. by apply union_first_seen_Permutation.
  - done.
  - done.
  - f_equal. by apply sorted_Permutation_eq, union_first_seen_Permutation.
Qed.

Lemma C6_schema_under_permutation_witness :
  Dairitenbosyuu.unify_columns [Samples.rec_a; Samples.rec_b]
  ≡ₚ Dairitenbosyuu.unify_columns [Samples.rec_b; Samples.rec_a]
  ∧ Franchise.ordered_columns [Samples.rec_a; Samples.rec_b]
    = Franchise.ordered_columns [Samples.rec_b; Samples.rec_a].
Proof.
  destruct (C6_schema_under_permutation
              [Samples.rec_a; Samples.rec_b] [Samples.rec_b; Samples.rec_a])
    as ((Hperm & _ & _) & Heq).
  - apply perm_swap.
  - split; [exact Hperm | exact Heq].
Defined.

(** C6 fails as stated on [unify_columns]: two records with different
    optional keys give different column sequences in the two orders. *)
Lemma C6_counterexample_unify_columns :
  Dairitenbosyuu.unify_columns [Samples.rec_a; Samples.rec_b]
  ≠ Dairitenbosyuu.unify_columns [Samples.rec_b; Samples.rec_a].
Proof. vm_compute. by intros [=]. Qed.

End ColumnSchema.

(** * [repre/scrape.py]: the table parser *)

Section RepreTable.
Import Repre.

Example u_decodes :
  u "名称" = [0x540D; 0x79F0]%N ∧ u "TEL" = [0x54; 0x45; 0x4C]%N.
Proof. split; reflexivity. Qed.

(** The keys the row loop leaves: those it started with and the normalized
    labels of the rows with two cells. *)
Lemma repre_fold_keys (t : table) (d : dict) k :
  k ∈ keys (fold_left row_step t d)
  ↔ k ∈ keys d ∨ (∃ key val rest, key :: val :: rest ∈ t ∧ norm_key key = k).
Proof.
  revert d. induction t as [|cells t IH]; intros d; simpl.
  - split; [by left | intros [?|(? & ? & ? & ?%elem_of_nil & _)]; done].
  - rewrite IH. split.
    + intros [Hk|(key & val & rest & Hin & Hk)].
      * destruct cells as [|key [|val rest]]; simpl in Hk; [by left ..|].
        apply elem_of_keys_dset in Hk as [->|Hk]; [|by left].
        right. exists key, val, rest. split; [by left | done].
      * right. exists key, val, rest. split; [by right | done].
    + intros [Hk|(key & val & rest & [Heq|Hin]%elem_of_cons & Hk)].
      * left. destruct cells as [|key [|val rest]]; simpl; [done ..|].
        apply elem_of_keys_dset. by right.
      * left. subst cells. simpl. apply elem_of_keys_dset. by left.
      * right. eauto.
Qed.

(** C9.  For every table, the dict [parse_company_table] of the repre
    script returns has the key "TEL"; when no row of the table has a label
    that normalizes to "TEL", the key is there with the empty string as its
    value. *)
Theorem C9_repre_tel_always_present (t : table) :
  TEL ∈ keys (parse_company_table t)
  ∧ ((∀ key val rest, key :: val :: rest ∈ t → norm_key key ≠ TEL) →
     dget TEL (parse_company_table t) = Some []).
Proof.
  unfold parse_company_table. cbv zeta.
  destruct (has_key TEL (fold_left row_step t [])) eqn:Hh.
  - apply has_key_true in Hh. split; [done|]. intros Hno.
    apply repre_fold_keys in Hh as [Hh|(key & val & rest & Hin & Hk)].
    + by apply elem_of_nil in Hh.
    + by destruct (Hno key val rest Hin).
  - split; [apply elem_of_keys_dset; by left | intros _; apply dget_dset_eq].
Qed.

Lemma C9_repre_tel_always_present_witness :
  dget TEL (parse_company_table Samples.table_no_tel) = Some [].
Proof.
  apply (C9_repre_tel_always_present Samples.table_no_tel).
  intros key val rest Hin. unfold Samples.table_no_tel in Hin.
  repeat (apply elem_of_cons in Hin as [[= -> -> ->]|Hin];
          [vm_compute; by intros [=]|]).
  by apply elem_of_nil in Hin.
Defined.

End RepreTable.

(** * The structured stage: repeated keys *)

Section RepeatedKeys.

(** ** dairitenhonpo: the longest value is kept *)

Import Dairitenhonpo.

Lemma honpo_row_step_other (d : dict) (r : row) k :
  (∀ v, harvest r ≠ Some (k, v)) → dget k (row_step d r) = dget k d.
Proof.
  intros Hr. unfold row_step. destruct (harvest r) as [[k' v]|]; [|done].
  case_match; [|done]. apply dget_dset_ne. intros ->. by apply (Hr v).
Qed.

(** What the row loop leaves under a key: the value it started with, if no
    harvested value is longer, and else the first harvested value that is
    longer than the start and at least as long as every other. *)
Lemma honpo_fold_longest (rows : list row) (d : dict) k :
  match dget k (fold_left row_step rows d) with
  | None => dget k d = None ∧ ∀ w, w ∈ harvested k rows → w = []
  | Some v =>
    (dget k d = Some v ∧ ∀ w, w ∈ harvested k rows → length w ≤ length v)
    ∨ (∃ pre post,
         harvested k rows = pre ++ v :: post
         ∧ length (dget_default k [] d) < length v
         ∧ (∀ w, w ∈ pre → length w < length v)
         ∧ (∀ w, w ∈ post → length w ≤ length v))
  end.
Proof.
  revert d. induction rows as [|r rows IH]; intros d.
  - simpl. destruct (dget k d) as [v|]; [left|]; (split; [done|]);
      by intros w ?%elem_of_nil.
  - simpl fold_left. specialize (IH (row_step d r)).
    destruct (harvest r) as [[k' v0]|] eqn:Hr.
    2:{ assert (harvested k (r :: rows) = harvested k rows) as ->.
        { unfold harvested. simpl. by rewrite Hr. }
        unfold dget_default in *.
        rewrite !honpo_row_step_other in IH; [done|]. intros v. by rewrite Hr. }
    destruct (decide (k' = k)) as [->|Hne].
    2:{ assert (harvested k (r :: rows) = harvested k rows) as ->.
        { unfold harvested. simpl. by rewrite Hr, decide_False. }
        unfold dget_default in *.
        rewrite !honpo_row_step_other in IH; [done|].
        intros v. rewrite Hr. by intros [= -> _]. }
    assert (harvested k (r :: rows) = v0 :: harvested k rows) as ->.
    { unfold harvested. simpl. by rewrite Hr, decide_True. }
    assert (row_step d r
            = if length (dget_default k [] d) <? length v0
              then dset k v0 d else d) as Hstep.
    { unfold row_step. by rewrite Hr. }
    rewrite Hstep in IH |- *. clear Hstep. revert IH.
    destruct (Nat.ltb_spec (length (dget_default k [] d)) (length v0)) as [Hlt|Hge];
      intros IH.
    + rewrite dget_dset_eq in IH.
      destruct (dget k (fold_left row_step rows _)) as [v|].
      * right. destruct IH as [[[= <-] Hall]|(pre & post & -> & Hv & Hpre & Hpost)].
        -- exists [], (harvested k rows). split_and!; [done | done | |done].
           by intros w ?%elem_of_nil.
        -- exists (v0 :: pre), post. unfold dget_default in Hv.
           rewrite dget_dset_eq in Hv. split_and!; [done | lia | | done].
           intros w [->|Hw]%elem_of_cons; [done | by apply Hpre].
      * by destruct IH.
    + destruct (dget k (fold_left row_step rows d)) as [v|].
      * destruct IH as [[Hd Hall]|(pre & post & -> & Hv & Hpre & Hpost)].
        -- left. split; [done|]. intros w [->|Hw]%elem_of_cons; [|by apply Hall].
           unfold dget_default in Hge. by rewrite Hd in Hge.
        -- right. exists (v0 :: pre), post. split_and!; [done | done | | done].
           intros w [->|Hw]%elem_of_cons; [lia | by apply Hpre].
      * destruct IH as [Hd Hall]. split; [done|].
        intros w [->|Hw]%elem_of_cons; [|by apply Hall].
        unfold dget_default in Hge. rewrite Hd in Hge.
        destruct v0; [done | simpl in Hge; lia].
Qed.

(** The early exit only cuts the list of tables short. *)
Lemma honpo_scan_tables_scanned (ts : list table) (d : dict) :
  scan_tables ts d = fold_left row_step (concat (scanned ts d)) d.
Proof.
  revert d. induction ts as [|t ts IH]; intros d; simpl; [done|].
  case_match.
  - simpl. by rewrite app_nil_r.
  - simpl. by rewrite fold_left_app, IH.
Qed.

Lemma honpo_scanned_prefix (ts : list table) (d : dict) :
  ∃ rest, ts = scanned ts d ++ rest
          ∧ (rest ≠ [] → has_key COL_NAME (scan_tables ts d) = true
                         ∧ has_key COL_ADDR (scan_tables ts d) = true).
Proof.
  revert d. induction ts as [|t ts IH]; intros d; simpl.
  - by exists [].
  - destruct (has_key COL_NAME _ && has_key COL_ADDR _) eqn:Hboth.
    + exists ts. split; [done|]. intros _. by apply andb_true_iff.
    + destruct (IH (fold_left row_step t d)) as (rest & Heq & Hrest).
      exists rest. split; [|done]. simpl. by f_equal.
Qed.

(** ** dairitenbosyuu: the last value is kept *)

Lemma bosyuu_fold_last (rows : list (list str)) (d : dict) k :
  dget k (fold_left Dairitenbosyuu.kv_row rows d)
  = match last (Dairitenbosyuu.harvested k rows) with
    | Some v => Some v
    | None => dget k d
    end.
Proof.
  revert d. induction rows as [|cells rows IH]; intros d; [done|].
  simpl fold_left. rewrite IH.
  assert (Dairitenbosyuu.harvested k (cells :: rows)
          = match Dairitenbosyuu.kv_pair cells with
            | Some (k', v) =>
              if decide (k' = k) then v :: Dairitenbosyuu.harvested k rows
              else Dairitenbosyuu.harvested k rows
            | None => Dairitenbosyuu.harvested k rows
            end) as ->.
  { unfold Dairitenbosyuu.harvested. simpl.
    destruct (Dairitenbosyuu.kv_pair cells) as [[k' v]|]; [|done].
    by destruct (decide (k' = k)). }
  unfold Dairitenbosyuu.kv_row.
  destruct (Dairitenbosyuu.kv_pair cells) as [[k' v]|]; [|done].
  destruct (decide (k' = k)) as [->|Hne].
  - rewrite last_cons.
    destruct (last (Dairitenbosyuu.harvested k rows)); [done | apply dget_dset_eq].
  - destruct (last (Dairitenbosyuu.harvested k rows)); [done | by apply dget_dset_ne].
Qed.

Lemma bosyuu_kv_of_tables_concat (ts : list (list (list str))) (d : dict) :
  fold_left (fun kv t => fold_left Dairitenbosyuu.kv_row t kv) ts d
  = fold_left Dairitenbosyuu.kv_row (concat ts) d.
Proof.
  revert d. induction ts as [|t ts IH]; intros d; simpl; [done|].
  by rewrite fold_left_app, IH.
Qed.

(** C3 (as amended).  In [parse_company_table] of the dairitenhonpo script,
    among the values harvested for a normalized key from the rows of the
    tables scanned before the early exit, the longest non-empty one is kept,
    the first of them when several are equally long; a key whose values are
    all empty is not set.  [extract_table_kv] of the dairitenbosyuu script
    keeps the last value harvested for a key. *)
Theorem C3_repeated_key :
  (∀ (s : soup) (k : str),
     let rows := concat (scanned (tables_to_scan s) []) in
     match dget k (parse_company_table s) with
     | None => ∀ w, w ∈ harvested k rows → w = []
     | Some v =>
       v ≠ []
       ∧ ∃ pre post,
           harvested k rows = pre ++ v :: post
           ∧ (∀ w, w ∈ pre → length w < length v)
           ∧ (∀ w, w ∈ post → length w ≤ length v)
     end)
  ∧ (∀ (s : soup),
       ∃ rest, tables_to_scan s = scanned (tables_to_scan s) [] ++ rest
               ∧ (rest ≠ [] → has_key COL_NAME (parse_company_table s) = true
                              ∧ has_key COL_ADDR (parse_company_table s) = true))
  ∧ (∀ (s : Dairitenbosyuu.soup) (k : str),
       dget k (Dairitenbosyuu.extract_table_kv s)
       = last (Dairitenbosyuu.harvested k (concat (Dairitenbosyuu.tables s)))).
Proof.
  split_and!.
  - intros s k rows. unfold parse_company_table.
    rewrite honpo_scan_tables_scanned. fold rows.
    pose proof (honpo_fold_longest rows [] k) as H.
    destruct (dget k (fold_left row_step rows [])) as [v|].
    + destruct H as [[[=] _]|(pre & post & Hh & Hv & Hpre & Hpost)].
      split; [|by exists pre, post].
      intros ->. simpl in Hv. lia.
    + by destruct H.
  - intros s. apply honpo_scanned_prefix.
  - intros s k. unfold Dairitenbosyuu.extract_table_kv, Dairitenbosyuu.kv_of_tables.
    rewrite bosyuu_kv_of_tables_concat, bosyuu_fold_last. by case_match.
Qed.

Lemma C3_repeated_key_witness :
  (∃ pre post,
     harvested (u "設立")
       (concat (scanned (tables_to_scan Samples.honpo_soup_twice) []))
     = pre ++ u "2001年4月1日" :: post
     ∧ (∀ w, w ∈ pre → length w < length (u "2001年4月1日"))
     ∧ (∀ w, w ∈ post → length w ≤ length (u "2001年4月1日")))
  ∧ dget (u "設立") (Dairitenbosyuu.extract_table_kv Samples.soup_twice)
    = Some (u "不明").
Proof.
  destruct C3_repeated_key as (Hlong & _ & Hlast). split.
  - pose proof (Hlong Samples.honpo_soup_twice (u "設立")) as H.
    cbv zeta in H.
    assert (dget (u "設立") (parse_company_table Samples.honpo_soup_twice)
            = Some (u "2001年4月1日")) as Hkept by (vm_compute; reflexivity).
    rewrite Hkept in H. apply H.
  - rewrite Hlast. vm_compute. reflexivity.
Defined.

(** C3 fails as stated on [extract_table_kv]: of two values harvested for
    the key "設立", the later and shorter one is kept. *)
Lemma C3_counterexample_extract_table_kv :
  dget (u "設立") (Dairitenbosyuu.extract_table_kv Samples.soup_twice)
  = Some (u "不明")
  ∧ u "2001年4月1日"
    ∈ Dairitenbosyuu.harvested (u "設立")
        (concat (Dairitenbosyuu.tables Samples.soup_twice))
  ∧ length (u "不明") < length (u "2001年4月1日").
Proof.
  split_and!.
  - vm_compute. reflexivity.
  - vm_compute. by left.
  - vm_compute. lia.
Qed.

End RepeatedKeys.

(** * Fetching *)

Section Fetching.
Import Dairitenhonpo.

Variables (retry_count : nat) (backoff : Z) (get : nat → outcome http_response).

Lemma fetch_step_4xx attempt todo resp :
  get attempt = Returned resp → is_4xx (status_code resp) = true →
  fetch_html_from retry_count backoff get attempt (S todo)
  = requested (finished (None, Some (status_code resp),
                         Some (http_msg (status_code resp)))).
Proof. intros Hget H4. cbn [fetch_html_from]. by rewrite Hget, H4. Qed.

Lemma fetch_step_ok attempt todo resp :
  get attempt = Returned resp →
  raises_for_status (status_code resp) = false →
  fetch_html_from retry_count backoff get attempt (S todo)
  = requested (finished (Some (text resp), Some (status_code resp), None)).
Proof.
  intros Hget Hok. cbn [fetch_html_from]. rewrite Hget.
  assert (is_4xx (status_code resp) = false) as ->; [|by rewrite Hok].
  unfold raises_for_status, is_4xx in *.
  apply andb_false_iff in Hok as [Hok|Hok]; apply andb_false_iff; [by left|].
  right. lia.
Qed.

Lemma fetch_step_retry attempt todo :
  retried (get attempt) = true → attempt < retry_count →
  fetch_html_from retry_count backoff get attempt (S todo)
  = requested (slept (backoff * (Z.of_nat attempt + 1))
                 (fetch_html_from retry_count backoff get (S attempt) todo)).
Proof.
  intros Hr Hlt. apply Nat.ltb_lt in Hlt. cbn [fetch_html_from]. rewrite Hlt.
  destruct (get attempt) as [resp|[[st|] msg|msg|msg|msg]]; cbn [retried] in Hr;
    try done.
  - apply andb_true_iff in Hr as [H4 H5]. apply negb_true_iff in H4.
    by rewrite H4, H5, andb_false_r.
  - apply negb_true_iff in Hr. by rewrite Hr.
Qed.

Lemma fetch_step_last attempt todo :
  retried (get attempt) = true → ¬ attempt < retry_count →
  ∃ status msg,
    fetch_html_from retry_count backoff get attempt (S todo)
    = requested (finished (None, status, Some msg)).
Proof.
  intros Hr Hlt. apply Nat.ltb_nlt in Hlt. cbn [fetch_html_from]. rewrite Hlt.
  destruct (get attempt) as [resp|[[st|] msg|msg|msg|msg]]; cbn [retried] in Hr;
    try by eauto.
  - apply andb_true_iff in Hr as [H4 H5]. apply negb_true_iff in H4.
    rewrite H4, H5, andb_false_r. eauto.
  - apply negb_true_iff in Hr. rewrite Hr. eauto.
Qed.

(** A run of retried attempts only adds requests and delays in front of
    what the loop does afterwards. *)
Lemma fetch_retried_prefix k attempt todo :
  attempt + k ≤ retry_count →
  (∀ i, attempt ≤ i < attempt + k → retried (get i) = true) →
  let rest := fetch_html_from retry_count backoff get (attempt + k) todo in
  fetch_html_from retry_count backoff get attempt (k + todo)
  = {| fr_result := fr_result rest;
       fr_requests := k + fr_requests rest;
       fr_sleeps := backoffs backoff k attempt ++ fr_sleeps rest |}.
Proof.
  revert attempt. induction k as [|k IH]; intros attempt Hle Hall rest.
  - subst rest. rewrite Nat.add_0_r. change (0 + todo) with todo.
    by destruct (fetch_html_from _ _ _ _ _).
  - change (S k + todo) with (S (k + todo)).
    rewrite fetch_step_retry; [|apply Hall; lia | lia].
    rewrite IH; [|lia | intros i Hi; apply Hall; lia].
    subst rest. replace (S attempt + k) with (attempt + S k) by lia. done.
Qed.

End Fetching.

Section FetchingClaims.
Import Dairitenhonpo.

(** C2 (as amended).  [fetch_html] of the dairitenhonpo script, with
    [retry_count] additional attempts: after any number [k] of retried
    attempts (5xx responses or transport errors) within the budget, a 4xx
    response ends the call at once with a failure, and a 2xx response ends
    it with the decoded body; every retried attempt is followed by its
    backoff delay, so a 4xx first response costs one request and no delay.
    When all [retry_count + 1] attempts are retried ones, the call returns a
    failure after exactly that many requests.  [fetch] of the dairitenbosyuu
    script makes a single request: it returns the body for status 200 and
    nothing otherwise, without a retry. *)
Theorem C2_fetch_outcomes (retry_count : nat) (backoff : Z)
    (get : nat → outcome http_response) :
  (∀ k resp,
     k ≤ retry_count → (∀ i, i < k → retried (get i) = true) →
     get k = Returned resp → (400 <= status_code resp < 500)%Z →
     fetch_html_cfg retry_count backoff get
     = {| fr_result := (None, Some (status_code resp),
                        Some (http_msg (status_code resp)));
          fr_requests := S k;
          fr_sleeps := backoffs backoff k 0 |})
  ∧ (∀ k resp,
       k ≤ retry_count → (∀ i, i < k → retried (get i) = true) →
       get k = Returned resp → (200 <= status_code resp < 300)%Z →
       fetch_html_cfg retry_count backoff get
       = {| fr_result := (Some (text resp), Some (status_code resp), None);
            fr_requests := S k;
            fr_sleeps := backoffs backoff k 0 |})
  ∧ ((∀ i, i ≤ retry_count → retried (get i) = true) →
     fst (fst (fr_result (fetch_html_cfg retry_count backoff get))) = None
     ∧ fr_requests (fetch_html_cfg retry_count backoff get) = S retry_count
     ∧ fr_sleeps (fetch_html_cfg retry_count backoff get)
       = backoffs backoff retry_count 0)
  ∧ (∀ resp,
       Dairitenbosyuu.fetch (Returned resp)
       = Returned (if (status_code resp =? 200)%Z then Some (text resp) else None))
  ∧ (∀ e, is_request_exception e = true →
          Dairitenbosyuu.fetch (Raised e) = Returned None).
Proof.
  unfold fetch_html_cfg. split_and!.
  - intros k resp Hk Hall Hget Hst.
    pose proof (fetch_retried_prefix retry_count backoff get k 0
                  (S (retry_count - k))) as Hp.
    cbv zeta in Hp. change (0 + k) with k in Hp.
    rewrite (fetch_step_4xx _ _ _ _ _ resp) in Hp; [|done | unfold is_4xx; lia].
    replace (retry_count + 1) with (k + S (retry_count - k)) by lia.
    rewrite Hp; [|lia | intros i Hi; apply Hall; lia].
    cbn [requested finished fr_result fr_requests fr_sleeps].
    f_equal; [lia | apply app_nil_r].
  - intros k resp Hk Hall Hget Hst.
    pose proof (fetch_retried_prefix retry_count backoff get k 0
                  (S (retry_count - k))) as Hp.
    cbv zeta in Hp. change (0 + k) with k in Hp.
    rewrite (fetch_step_ok _ _ _ _ _ resp) in Hp;
      [|done | unfold raises_for_status; lia].
    replace (retry_count + 1) with (k + S (retry_count - k)) by lia.
    rewrite Hp; [|lia | intros i Hi; apply Hall; lia].
    cbn [requested finished fr_result fr_requests fr_sleeps].
    f_equal; [lia | apply app_nil_r].
  - intros Hall.
    pose proof (fetch_retried_prefix retry_count backoff get retry_count 0 1) as Hp.
    cbv zeta in Hp. change (0 + retry_count) with retry_count in Hp.
    destruct (fetch_step_last retry_count backoff get retry_count 0)
      as (st & msg & Hlast); [apply Hall; lia | lia |].
    rewrite Hlast in Hp.
    rewrite Hp; [|lia | intros i Hi; apply Hall; lia].
    cbn [requested finished fr_result fr_requests fr_sleeps fst].
    split_and!; [done | lia | apply app_nil_r].
  - done.
  - intros e He. simpl. by rewrite He.
Qed.

Lemma C2_fetch_outcomes_witness :
  fetch_html Samples.flaky
  = {| fr_result := (Some (u "<html></html>"), Some 200%Z, None);
       fr_requests := 3;
       fr_sleeps := [2; 4]%Z |}
  ∧ fetch_html Samples.not_found
    = {| fr_result := (None, Some 404%Z, Some (u "HTTP 404"));
         fr_requests := 1;
         fr_sleeps := [] |}.
Proof.
  destruct (C2_fetch_outcomes RETRY_COUNT RETRY_BACKOFF_SEC Samples.flaky)
    as (_ & Hok & _).
  destruct (C2_fetch_outcomes RETRY_COUNT RETRY_BACKOFF_SEC Samples.not_found)
    as (H4xx & _).
  split.
  - unfold fetch_html.
    rewrite (Hok 2 {| status_code := 200; text := u "<html></html>" |});
      [reflexivity | unfold RETRY_COUNT; lia | | reflexivity | simpl; lia].
    intros [|[|i]] Hi; [reflexivity | reflexivity | lia].
  - unfold fetch_html.
    rewrite (H4xx 0 {| status_code := 404; text := u "not found" |});
      [reflexivity | lia | intros i Hi; lia | reflexivity | simpl; lia].
Defined.

(** C2 fails as stated on [fetch] of the dairitenbosyuu script: a response
    with the 2xx status 201 is not returned as a success. *)
Lemma C2_counterexample_fetch_201 :
  (200 <= status_code Samples.created < 300)%Z
  ∧ Dairitenbosyuu.fetch (Returned Samples.created) = Returned None.
Proof. split; [simpl; lia | reflexivity]. Qed.

(** The retry test of the specification: 503, 503, then 200. *)
Example fetch_html_flaky :
  fetch_html Samples.flaky
  = {| fr_result := (Some (u "<html></html>"), Some 200%Z, None);
       fr_requests := 3; fr_sleeps := [2; 4]%Z |}.
Proof. reflexivity. Qed.

End FetchingClaims.

(** * Records and names *)

(** Closed disequalities between strings, and closed decidable facts such
    as membership in a list of column names. *)
Ltac str_neq := vm_compute; by intros [=].
Ltac decided := apply (bool_decide_unpack _); by vm_compute.

Section RecordsAndNames.

Lemma fold_left_dget_keep {A} (f : dict → A → dict) (l : list A) (d : dict) k :
  (∀ d a, a ∈ l → dget k (f d a) = dget k d) →
  dget k (fold_left f l d) = dget k d.
Proof.
  revert d. induction l as [|a l IH]; intros d Hf; [done|]. simpl.
  rewrite IH; [apply Hf; by left|].
  intros d' a' Ha'. apply Hf. by right.
Qed.

(** A loop that only appends what each item emits. *)
Lemma fold_left_emit {A} (step : list dict → A → list dict)
    (emit : A → list dict) :
  (∀ acc a, step acc a = acc ++ emit a) →
  ∀ l acc, fold_left step l acc = acc ++ flat_map emit l.
Proof.
  intros Hstep l. induction l as [|a l IH]; intros acc; simpl.
  - by rewrite app_nil_r.
  - by rewrite IH, Hstep, <- app_assoc.
Qed.

(** ** dairitenhonpo *)

Lemma honpo_copy_others_required (table_data rec : dict) k :
  k ∈ Dairitenhonpo.REQUIRED_COLUMNS →
  dget k (Dairitenhonpo.copy_others table_data rec) = dget k rec.
Proof.
  intros Hk. apply fold_left_dget_keep. intros d [k' v'] _. simpl.
  case_bool_decide as Hreq; [done|].
  apply dget_dset_ne. by intros ->.
Qed.

Lemma honpo_record_of_soup_name w url s rec :
  Dairitenhonpo.record_of_soup w url s = Some rec →
  ∃ name, name ≠ []
          ∧ name = strip (dget_default Dairitenhonpo.COL_NAME []
                            (Dairitenhonpo.parse_company_table s))
          ∧ dget Dairitenhonpo.COL_NAME rec = Some name
          ∧ dget Dairitenhonpo.COL_URL rec = Some url.
Proof.
  unfold Dairitenhonpo.record_of_soup. cbv zeta.
  set (name := strip _). destruct name as [|c name'] eqn:Hname; [done|].
  simpl negb. cbv iota. intros [= <-]. exists (c :: name').
  split_and!; [done | done | |].
  - rewrite honpo_copy_others_required; [done|].
    decided.
  - rewrite honpo_copy_others_required; [done|].
    decided.
Qed.


(** [extract_record] returns in every case: what its calls raise is caught
    inside. *)
Lemma honpo_extract_record_returns w url :
  ∃ o, Dairitenhonpo.extract_record w url = Returned o.
Proof.
  unfold Dairitenhonpo.extract_record.
  destruct (fst (fst _)) as [html|]; [|eauto].
  destruct (Dairitenhonpo.parser w html); eauto.
Qed.

Lemma honpo_extract_record_some w url rec :
  Dairitenhonpo.extract_record w url = Returned (Some rec) →
  ∃ html s,
    fst (fst (Dairitenhonpo.fr_result
                (Dairitenhonpo.fetch_html (Dairitenhonpo.net w url)))) = Some html
    ∧ Dairitenhonpo.parser w html = Returned s
    ∧ Dairitenhonpo.record_of_soup w url s = Some rec.
Proof.
  unfold Dairitenhonpo.extract_record.
  destruct (fst (fst _)) as [html|]; [|done].
  destruct (Dairitenhonpo.parser w html) as [s|e] eqn:Hp; [|done].
  intros [= Hrec]. eauto.
Qed.

Lemma honpo_collect_spec w done acc :
  Dairitenhonpo.collect w done acc
  = Returned (acc ++ flat_map (Dairitenhonpo.emitted w) done).
Proof.
  revert acc. induction done as [|url done IH]; intros acc; simpl.
  - by rewrite app_nil_r.
  - unfold Dairitenhonpo.emitted.
    destruct (honpo_extract_record_returns w url) as [[rec|] ->].
    + by rewrite IH, <- app_assoc.
    + by rewrite IH.
Qed.

(** ** dairitenbosyuu *)

Lemma bosyuu_extras_fold_keys (kv : dict) (ks : list str) (out : dict) k :
  k ∈ keys
        (fold_left
           (fun out key =>
              match dget key kv with
              | Some v => if truthy v then dset key v out else out
              | None => out
              end) ks out) →
  k ∈ keys out ∨ k ∈ ks.
Proof.
  revert out. induction ks as [|key ks IH]; intros out; simpl; [by left|].
  intros [Hk|Hk]%IH; [|right; by right].
  destruct (dget key kv) as [v|]; [|by left].
  destruct (truthy v); [|by left].
  apply elem_of_keys_dset in Hk as [->|Hk]; [right; by left | by left].
Qed.

Lemma bosyuu_extras_keys P s kv k :
  k ∈ keys (Dairitenbosyuu.extract_extras P s kv) →
  k ∈ Dairitenbosyuu.EXTRA_COLUMNS.
Proof.
  unfold Dairitenbosyuu.extract_extras. cbv zeta.
  set (out0 := fold_left _ Dairitenbosyuu.EXTRA_COLUMNS []).
  assert (∀ k, k ∈ keys out0 → k ∈ Dairitenbosyuu.EXTRA_COLUMNS) as H0.
  { intros k' [Hk'|Hk']%bosyuu_extras_fold_keys; [|done].
    by apply elem_of_nil in Hk'. }
  set (out1 := if has_key Dairitenbosyuu.COL_PHONE out0 then out0 else _).
  assert (∀ k, k ∈ keys out1 → k ∈ Dairitenbosyuu.EXTRA_COLUMNS) as H1.
  { intros k'. subst out1. destruct (has_key _ out0); [apply H0|].
    destruct (Dairitenbosyuu.PHONE_PAT P _); [|apply H0].
    intros [->|Hk']%elem_of_keys_dset; [|by apply H0].
    decided. }
  destruct (has_key _ out1); [apply H1|].
  destruct (Dairitenbosyuu.EMAIL_PAT P _); [|apply H1].
  intros [->|Hk']%elem_of_keys_dset; [|by apply H1].
  decided.
Qed.






Lemma bosyuu_process_url_some w url rec :
  Dairitenbosyuu.process_url w url = Returned (Some rec) →
  ∃ html s, Dairitenbosyuu.parser w html = Returned s
            ∧ Dairitenbosyuu.page_record w url s = Some rec.
Proof.
  unfold Dairitenbosyuu.process_url, Dairitenbosyuu.parse_page.
  destruct (Dairitenbosyuu.fetch _) as [[html|]|]; [|done ..].
  destruct (negb (truthy html)); [done|].
  destruct (Dairitenbosyuu.parser w html) as [s|] eqn:Hp; [|done].
  intros [= Hrec]. eauto.
Qed.

Lemma bosyuu_collect_step_spec w results url :
  Dairitenbosyuu.collect_step w results url
  = results ++ Dairitenbosyuu.emitted w url.
Proof.
  unfold Dairitenbosyuu.emitted, Dairitenbosyuu.collect_step.
  destruct (Dairitenbosyuu.process_url w url) as [[rec|]|];
    [|by rewrite app_nil_r ..].
  destruct (_ && _); [done | by rewrite app_nil_r].
Qed.

Lemma bosyuu_collect_spec w done :
  Dairitenbosyuu.collect w done = flat_map (Dairitenbosyuu.emitted w) done.
Proof.
  unfold Dairitenbosyuu.collect.
  by rewrite (fold_left_emit _ _ (bosyuu_collect_step_spec w)).
Qed.

(** ** franchise_no_madoguti *)


Lemma franchise_collect_step_spec w results url :
  Franchise.collect_step w results url = results ++ Franchise.emitted w url.
Proof.
  unfold Franchise.emitted, Franchise.collect_step.
  by destruct (Franchise.scrape_one w url).
Qed.

Lemma franchise_collect_spec w done :
  Franchise.collect w done = flat_map (Franchise.emitted w) done.
Proof.
  unfold Franchise.collect.
  by rewrite (fold_left_emit _ _ (franchise_collect_step_spec w)).
Qed.



(** The end-to-end scenario of the specification, on the dairitenhonpo
    script: the page yields one record with the name and the address of
    its table. *)
Example honpo_end_to_end :
  Dairitenhonpo.extract_record Samples.honpo_world Samples.url_a
  = Returned (Some [ (u "取得日時", Samples.stamp); (u "取得URL", Samples.url_a);
                     (u "名称", u "Example Co."); (u "住所", u "Tokyo") ]).
Proof. vm_compute. reflexivity. Qed.


End RecordsAndNames.

(** * The cascade of the franchise script *)

Section Cascade.
Import Franchise.

Lemma fold_left_invariant {A B} (P : B → Prop) (f : B → A → B) (l : list A) (b : B) :
  (∀ b a, a ∈ l → P b → P (f b a)) → P b → P (fold_left f l b).
Proof.
  revert b. induction l as [|a l IH]; intros b Hf Hb; [done|]. simpl.
  apply IH; [|apply Hf; [by left | done]].
  intros b' a' Ha'. apply Hf. by right.
Qed.

Lemma dget_setdefault_Some k k' v v' d :
  dget k d = Some v → dget k (setdefault k' v' d) = Some v.
Proof. intros H. rewrite dget_setdefault_keep; [done | by rewrite H]. Qed.

(** A key the dict lacks is not the key whose value is asked for. *)
Lemma dget_dset_fresh k k' v v' d :
  dget k d = Some v → has_key k' d = false → dget k (dset k' v' d) = Some v.
Proof.
  intros H Hh. rewrite dget_dset_ne; [done|]. intros ->.
  apply has_key_false in Hh. apply Hh, elem_of_keys_dget. by rewrite H.
Qed.

Lemma stage_text_keep sec data k v :
  dget k data = Some v → dget k (stage_text sec data) = Some v.
Proof.
  intros H. unfold stage_text.
  apply (fold_left_invariant (fun d => dget k d = Some v)); [|done].
  intros d [label value] _ Hd. simpl.
  destruct (truthy value); [by apply dget_setdefault_Some | done].
Qed.

Lemma stage_strong_keep sec data k v :
  dget k data = Some v → dget k (stage_strong sec data) = Some v.
Proof.
  intros H. unfold stage_strong.
  apply (fold_left_invariant (fun d => dget k d = Some v)); [|done].
  intros d [label sib] _ Hd. cbv zeta. simpl fst. simpl snd.
  destruct (truthy (next_text_of sib)); [|done].
  destruct (_ && _); [by apply dget_setdefault_Some | done].
Qed.

Lemma stage_paragraphs_keep sec data k v :
  dget k data = Some v → dget k (stage_paragraphs sec data) = Some v.
Proof.
  intros H. unfold stage_paragraphs.
  destruct (has_key COL_BUSINESS data) eqn:Hh; [done|]. cbv zeta.
  destruct (filter _ _); [done|]. by apply dget_dset_fresh.
Qed.

Lemma merge_section_keep info_map extracted k v :
  dget k info_map = Some v → dget k (merge_section info_map extracted) = Some v.
Proof.
  intros H. unfold merge_section.
  apply (fold_left_invariant (fun d => dget k d = Some v)); [|done].
  intros d [k' v'] _ Hd. simpl.
  destruct (has_key k' d) eqn:Hh; simpl; [done|].
  destruct (truthy v'); [by apply dget_dset_fresh | done].
Qed.

Lemma merge_sections_app secs1 secs2 :
  merge_sections (secs1 ++ secs2)
  = fold_left (fun m sec => merge_section m (extract_company_info_from_section sec))
              secs2 (merge_sections secs1).
Proof. unfold merge_sections. apply fold_left_app. Qed.

(** C4.  In the cascade of [extract_company_info_from_section], once the
    structured stage (definition lists and tables) or any later stage has
    set a key, the stages that follow (labelled text lines, text next to a
    [strong]/[b], long paragraphs) leave its value as it is; and in
    [scrape_one], once a key is in [info_map], merging the dict of a later
    section leaves its value as it is. *)
Theorem C4_first_writer_wins :
  (∀ sec data k v,
     dget k data = Some v →
     dget k (stage_text sec data) = Some v
     ∧ dget k (stage_strong sec data) = Some v
     ∧ dget k (stage_paragraphs sec data) = Some v)
  ∧ (∀ sec k v,
       dget k (stage_table sec (stage_dl sec [])) = Some v →
       dget k (extract_company_info_from_section sec) = Some v)
  ∧ (∀ sec k v,
       dget k (stage_text sec (stage_table sec (stage_dl sec []))) = Some v →
       dget k (extract_company_info_from_section sec) = Some v)
  ∧ (∀ info_map extracted k v,
       dget k info_map = Some v →
       dget k (merge_section info_map extracted) = Some v)
  ∧ (∀ secs1 secs2 k v,
       dget k (merge_sections secs1) = Some v →
       dget k (merge_sections (secs1 ++ secs2)) = Some v).
Proof.
  split_and!.
  - intros sec data k v H. split_and!;
      [by apply stage_text_keep | by apply stage_strong_keep
       | by apply stage_paragraphs_keep].
  - intros sec k v H. unfold extract_company_info_from_section.
    by apply stage_paragraphs_keep, stage_strong_keep, stage_text_keep.
  - intros sec k v H. unfold extract_company_info_from_section.
    by apply stage_paragraphs_keep, stage_strong_keep.
  - apply merge_section_keep.
  - intros secs1 secs2 k v H. rewrite merge_sections_app.
    apply (fold_left_invariant (fun d => dget k d = Some v)); [|done].
    intros d sec _ Hd. by apply merge_section_keep.
Qed.

Lemma C4_first_writer_wins_witness :
  dget COL_ADDR (extract_company_info_from_section Samples.section_address)
  = Some (u "東京都港区2-2").
Proof.
  destruct C4_first_writer_wins as (_ & Hstage1 & _).
  apply Hstage1. vm_compute. reflexivity.
Defined.

(** Inside the structured stage a later row assigns again: the table row
    replaces what the definition list gave. *)
Example structured_stage_assigns :
  dget COL_ADDR (stage_dl Samples.section_address []) = Some (u "東京都千代田区1-1")
  ∧ dget COL_ADDR (stage_table Samples.section_address
                     (stage_dl Samples.section_address []))
    = Some (u "東京都港区2-2").
Proof. split; vm_compute; reflexivity. Qed.

End Cascade.

(** * Failures of single URLs *)

Section Isolation.

Lemma repre_process_url_returns w url :
  ∃ rows, Repre.process_url w url = Returned rows.
Proof.
  unfold Repre.process_url.
  destruct (Repre.scrape_company_info_single w url) as [rows|[]]; eauto.
Qed.

Lemma repre_process_url_raised w url e :
  Repre.scrape_company_info_single w url = Raised e →
  Repre.process_url w url = Returned [].
Proof. unfold Repre.process_url. intros ->. by destruct e. Qed.

Lemma repre_collect_step_spec w all_rows url :
  Repre.collect_step w all_rows url = all_rows ++ Repre.emitted w url.
Proof.
  unfold Repre.emitted, Repre.collect_step.
  destruct (Repre.process_url w url); [done | by rewrite app_nil_r].
Qed.

Lemma repre_collect_spec w done :
  Repre.collect w done = flat_map (Repre.emitted w) done.
Proof.
  unfold Repre.collect.
  by rewrite (fold_left_emit _ _ (repre_collect_step_spec w)).
Qed.

(** C7 (as amended).  An exception or a failed fetch while one URL is
    processed is absorbed at the boundary of that URL's task and counts as
    "no record".  [process_url] of the repre script and [extract_record] of
    the dairitenhonpo script return in every case, with nothing for a URL
    whose fetch or parse failed.  [process_url] of the dairitenbosyuu script
    absorbs the errors of the request only; what else it raises is dropped
    by the loop of [main] around [fut.result()].  In all three the results
    are the concatenation of what each URL emits, so the other URLs are
    unaffected, and a run over a non-empty URL list ends with status 0 and
    its output written from those results. *)
Theorem C7_failure_isolation :
  (∀ w url, ∃ rows, Repre.process_url w url = Returned rows)
  ∧ (∀ w url e,
       Repre.scrape_company_info_single w url = Raised e →
       Repre.process_url w url = Returned [] ∧ Repre.emitted w url = [])
  ∧ (∀ w done, Repre.collect w done = flat_map (Repre.emitted w) done)
  ∧ (∀ w prog path urls,
       Repre.argv w = [prog; path] →
       Repre.read_urls_from_csv (Repre.input_csv w path) = Returned urls →
       urls ≠ [] →
       Repre.main w
       = {| exit_status := 0; submitted := urls;
            written := Some (Repre.save_csv
                               (flat_map (Repre.emitted w)
                                         (Repre.as_completed w urls))) |})
  ∧ (∀ w url e,
       Dairitenbosyuu.process_url w url = Raised e →
       Dairitenbosyuu.emitted w url = [])
  ∧ (∀ w url,
       Dairitenbosyuu.fetch (Dairitenbosyuu.net w url) = Returned None →
       Dairitenbosyuu.emitted w url = [])
  ∧ (∀ w done,
       Dairitenbosyuu.collect w done = flat_map (Dairitenbosyuu.emitted w) done)
  ∧ (∀ w urls,
       Dairitenbosyuu.read_urls (Dairitenbosyuu.input_csv w) = Returned urls →
       urls ≠ [] →
       Dairitenbosyuu.main w
       = {| exit_status := 0; submitted := urls;
            written := Dairitenbosyuu.save_csv
                         (flat_map (Dairitenbosyuu.emitted w)
                                   (Dairitenbosyuu.as_completed w urls)) |})
  ∧ (∀ w url, ∃ o, Dairitenhonpo.extract_record w url = Returned o)
  ∧ (∀ w url,
       fst (fst (Dairitenhonpo.fr_result
                   (Dairitenhonpo.fetch_html (Dairitenhonpo.net w url)))) = None →
       Dairitenhonpo.extract_record w url = Returned None
       ∧ Dairitenhonpo.emitted w url = [])
  ∧ (∀ w url html e,
       fst (fst (Dairitenhonpo.fr_result
                   (Dairitenhonpo.fetch_html (Dairitenhonpo.net w url))))
       = Some html →
       Dairitenhonpo.parser w html = Raised e →
       Dairitenhonpo.extract_record w url = Returned None
       ∧ Dairitenhonpo.emitted w url = [])
  ∧ (∀ w done,
       Dairitenhonpo.collect w done []
       = Returned (flat_map (Dairitenhonpo.emitted w) done))
  ∧ (∀ w urls,
       Dairitenhonpo.read_urls (Dairitenhonpo.input_csv w) = Returned urls →
       urls ≠ [] →
       Dairitenhonpo.main w
       = {| exit_status := 0; submitted := urls;
            written := Some (Dairitenhonpo.write_csv
                               (Dairitenhonpo.sort_by_url
                                  (flat_map (Dairitenhonpo.emitted w)
                                            (Dairitenhonpo.as_completed w urls)))) |}).
Proof.
  split_and!.
  - apply repre_process_url_returns.
  - intros w url e He. pose proof (repre_process_url_raised _ _ _ He) as Hp.
    split; [done|]. unfold Repre.emitted, Repre.collect_step. by rewrite Hp.
  - apply repre_collect_spec.
  - intros w prog path urls Hargv Hread Hne. unfold Repre.main.
    rewrite Hargv, Hread. destruct urls as [|url urls]; [done|].
    simpl. by rewrite repre_collect_spec.
  - intros w url e He. unfold Dairitenbosyuu.emitted, Dairitenbosyuu.collect_step.
    by rewrite He.
  - intros w url Hf. unfold Dairitenbosyuu.emitted, Dairitenbosyuu.collect_step,
      Dairitenbosyuu.process_url. by rewrite Hf.
  - apply bosyuu_collect_spec.
  - intros w urls Hread Hne. unfold Dairitenbosyuu.main. rewrite Hread.
    destruct urls as [|url urls]; [done|]. by rewrite bosyuu_collect_spec.
  - apply honpo_extract_record_returns.
  - intros w url Hf. unfold Dairitenhonpo.emitted, Dairitenhonpo.extract_record.
    by rewrite Hf.
  - intros w url html e Hf Hp.
    unfold Dairitenhonpo.emitted, Dairitenhonpo.extract_record.
    by rewrite Hf, Hp.
  - intros w done. apply honpo_collect_spec.
  - intros w urls Hread Hne. unfold Dairitenhonpo.main. rewrite Hread.
    destruct urls as [|url urls]; [done|]. by rewrite honpo_collect_spec.
Qed.

Lemma C7_failure_isolation_witness :
  Dairitenhonpo.emitted Samples.honpo_world Samples.url_b = []
  ∧ Dairitenhonpo.main Samples.honpo_world
    = {| exit_status := 0; submitted := [Samples.url_a; Samples.url_b];
         written := Some (Dairitenhonpo.REQUIRED_COLUMNS,
                          [map snd Samples.honpo_rec]) |}.
Proof.
  destruct C7_failure_isolation
    as (_ & _ & _ & _ & _ & _ & _ & _ & _ & Hfail & _ & _ & Hmain).
  split.
  - apply (Hfail Samples.honpo_world Samples.url_b). vm_compute. reflexivity.
  - rewrite (Hmain Samples.honpo_world [Samples.url_a; Samples.url_b]);
      [vm_compute; reflexivity | vm_compute; reflexivity | done].
Defined.

(** C7 fails as stated on [process_url] of the dairitenbosyuu script: an
    exception raised while the document is built leaves the function; it is
    the loop of [main] that absorbs it. *)
Lemma C7_counterexample_bosyuu_process_url :
  Dairitenbosyuu.process_url Samples.bosyuu_broken Samples.url_a
  = Raised (OtherException (u "parser failed"))
  ∧ Dairitenbosyuu.main Samples.bosyuu_broken
    = {| exit_status := 0; submitted := [Samples.url_a]; written := None |}.
Proof. split; vm_compute; reflexivity. Qed.

End Isolation.

(** * Exit status *)

Section ExitStatus.

Lemma honpo_main_cases w :
  match Dairitenhonpo.read_urls (Dairitenhonpo.input_csv w) with
  | Returned (url :: urls) =>
    exit_status (Dairitenhonpo.main w) = 0%Z
    ∧ submitted (Dairitenhonpo.main w) = url :: urls
  | _ => Dairitenhonpo.main w
         = {| exit_status := 1; submitted := []; written := None |}
  end.
Proof.
  unfold Dairitenhonpo.main.
  destruct (Dairitenhonpo.read_urls _) as [[|url urls]|e]; [done | | done].
  by rewrite honpo_collect_spec.
Qed.

Lemma repre_main_cases w prog path rest :
  Repre.argv w = prog :: path :: rest → length rest ≤ 1 →
  match Repre.read_urls_from_csv (Repre.input_csv w path) with
  | Returned (url :: urls) =>
    exit_status (Repre.main w) = 0%Z ∧ submitted (Repre.main w) = url :: urls
  | _ => Repre.main w = {| exit_status := 1; submitted := []; written := None |}
  end.
Proof.
  intros Hargv Hrest. unfold Repre.main. rewrite Hargv.
  destruct rest as [|out [|workers rest]]; [| |simpl in Hrest; lia];
    by destruct (Repre.read_urls_from_csv _) as [[|url urls]|e].
Qed.

(** C8 (as amended).  In the dairitenhonpo and repre scripts (the latter
    called with its input path and at most an output path) the exit status
    is 0 on every run that has
    URLs to process, whatever it extracts, and it is 1, with nothing
    processed and nothing written, exactly when the URL list is empty or
    cannot be read.  The dairitenbosyuu script ends with status 0 also when
    the URL list is empty or the input file is absent: it prints its message
    and returns; only a file that exists and cannot be read ends it with a
    non-zero status. *)
Theorem C8_exit_status :
  (∀ w,
     (exit_status (Dairitenhonpo.main w) = 0%Z
      ↔ ∃ urls, Dairitenhonpo.read_urls (Dairitenhonpo.input_csv w) = Returned urls
                ∧ urls ≠ [])
     ∧ (exit_status (Dairitenhonpo.main w) ≠ 0%Z →
        Dairitenhonpo.main w
        = {| exit_status := 1; submitted := []; written := None |}))
  ∧ (∀ w, Dairitenhonpo.input_csv w = Missing
          ∨ (∃ e, Dairitenhonpo.input_csv w = Unreadable e) →
          exit_status (Dairitenhonpo.main w) = 1%Z)
  ∧ (∀ w prog path rest,
       Repre.argv w = prog :: path :: rest → length rest ≤ 1 →
       (exit_status (Repre.main w) = 0%Z
        ↔ ∃ urls, Repre.read_urls_from_csv (Repre.input_csv w path) = Returned urls
                  ∧ urls ≠ [])
       ∧ (exit_status (Repre.main w) ≠ 0%Z →
          Repre.main w = {| exit_status := 1; submitted := []; written := None |}))
  ∧ (∀ w,
       (exit_status (Dairitenbosyuu.main w) = 0%Z
        ↔ ∃ urls, Dairitenbosyuu.read_urls (Dairitenbosyuu.input_csv w)
                  = Returned urls)
       ∧ (Dairitenbosyuu.read_urls (Dairitenbosyuu.input_csv w) = Returned [] →
          Dairitenbosyuu.main w
          = {| exit_status := 0; submitted := []; written := None |})
       ∧ (Dairitenbosyuu.input_csv w = Missing →
          Dairitenbosyuu.main w
          = {| exit_status := 0; submitted := []; written := None |})
       ∧ (∀ e, Dairitenbosyuu.input_csv w = Unreadable e →
               exit_status (Dairitenbosyuu.main w) = 1%Z)).
Proof.
  split_and!.
  - intros w. pose proof (honpo_main_cases w) as H.
    destruct (Dairitenhonpo.read_urls _) as [[|url urls]|e].
    + rewrite H. simpl. split; [|done]. split; [done|]. by intros (? & [= <-] & ?).
    + destruct H as [H0 _]. split; [|done].
      split; [by eexists | done].
    + rewrite H. simpl. split; [|done]. split; [done|]. by intros (? & [=] & ?).
  - intros w Hf. pose proof (honpo_main_cases w) as H.
    assert (∃ e, Dairitenhonpo.read_urls (Dairitenhonpo.input_csv w) = Raised e)
      as [e He].
    { unfold Dairitenhonpo.read_urls.
      destruct Hf as [-> | [e ->]]; simpl; eauto. }
    rewrite He in H. by rewrite H.
  - intros w prog path rest Hargv Hrest.
    pose proof (repre_main_cases w prog path rest Hargv Hrest) as H.
    destruct (Repre.read_urls_from_csv _) as [[|url urls]|e].
    + rewrite H. simpl. split; [|done]. split; [done|]. by intros (? & [= <-] & ?).
    + destruct H as [H0 _]. split; [|done].
      split; [by eexists | done].
    + rewrite H. simpl. split; [|done]. split; [done|]. by intros (? & [=] & ?).
  - intros w. unfold Dairitenbosyuu.main. split_and!.
    + destruct (Dairitenbosyuu.read_urls _) as [[|url urls]|e]; simpl.
      * split; [by eexists | done].
      * split; [by eexists | done].
      * split; [done | by intros (? & [=])].
    + by intros ->.
    + by intros ->.
    + by intros e ->.
Qed.

Lemma C8_exit_status_witness :
  exit_status (Dairitenhonpo.main Samples.honpo_world) = 0%Z.
Proof.
  destruct C8_exit_status as (Hhonpo & _).
  apply (Hhonpo Samples.honpo_world).
  exists [Samples.url_a; Samples.url_b]. split; [vm_compute; reflexivity | done].
Defined.

(** C8 fails as stated on the dairitenbosyuu script: with an input file
    that holds no URL the run ends with status 0. *)
Lemma C8_counterexample_bosyuu_empty :
  Dairitenbosyuu.read_urls (Dairitenbosyuu.input_csv Samples.bosyuu_empty)
  = Returned []
  ∧ exit_status (Dairitenbosyuu.main Samples.bosyuu_empty) = 0%Z.
Proof. split; reflexivity. Qed.

End ExitStatus.

(** * The crawl over the list pages *)

Section Crawl.
Import Tabelog.

Lemma NoDup_append_new cols ks : NoDup cols → NoDup (append_new cols ks).
Proof.
  intros Hc. rewrite append_new_spec. apply NoDup_app. split_and!.
  - done.
  - intros x Hx. rewrite elem_of_first_seen, list_elem_of_filter. tauto.
  - apply NoDup_first_seen.
Qed.

(** The pages fetched so far are in [seen_pages], and the page fetched next
    is not. *)
Lemma crawl_loop_fetched_NoDup (w : world) (fuel : nat) (nxt0 : option str)
    (seen : gset str) (acc trace : list str) :
  NoDup trace → (∀ x, x ∈ trace → x ∈ seen) →
  NoDup (fetched (crawl_loop w fuel nxt0 seen acc trace)).
Proof.
  revert nxt0 seen acc trace.
  induction fuel as [|fuel IH]; intros nxt0 seen acc trace Hnd Hsub;
    destruct nxt0 as [url|]; simpl; try done.
  - by destruct (truthy url && _).
  - destruct (truthy url && _) eqn:Hc; [|done].
    apply andb_true_iff in Hc as [_ Hc].
    apply negb_true_iff, bool_decide_eq_false in Hc.
    assert (NoDup (trace ++ [url])) as Hnd'.
    { apply NoDup_app. split_and!; [done | | apply NoDup_singleton].
      intros x Hx ->%list_elem_of_singleton. by apply Hc, Hsub. }
    destruct (fetch_html w url) as [html|e]; [|done].
    apply IH; [done|].
    intros x [Hx| ->%list_elem_of_singleton]%elem_of_app; [|set_solver].
    apply elem_of_union. right. by apply Hsub.
Qed.

Lemma crawl_loop_all_NoDup (w : world) (fuel : nat) (nxt0 : option str)
    (seen : gset str) (acc trace urls : list str) :
  NoDup acc →
  crawl_end_of (crawl_loop w fuel nxt0 seen acc trace) = Done urls →
  NoDup urls.
Proof.
  revert nxt0 seen acc trace.
  induction fuel as [|fuel IH]; intros nxt0 seen acc trace Hnd;
    destruct nxt0 as [url|]; simpl; try by intros [= <-].
  - destruct (truthy url && _); [done | by intros [= <-]].
  - destruct (truthy url && _); [|by intros [= <-]].
    destruct (fetch_html w url) as [html|e]; [|done].
    apply IH. by apply NoDup_append_new.
Qed.

(** With the reachable pages inside a finite set, the pages not yet seen
    bound the iterations still to come. *)
Lemma crawl_loop_ends (w : world) (start : str) (pages : gset str) (fuel : nat)
    (nxt0 : option str) (seen : gset str)
    (acc trace : list str) :
  (∀ x, reachable w start x → x ∈ pages) →
  (∀ x, nxt0 = Some x → reachable w start x) →
  size (pages ∖ seen) ≤ fuel →
  crawl_end_of (crawl_loop w fuel nxt0 seen acc trace) ≠ Running.
Proof.
  intros Hfin. revert nxt0 seen acc trace.
  induction fuel as [|fuel IH]; intros nxt0 seen acc trace Hnext Hsize;
    destruct nxt0 as [url|]; simpl; try done.
  - destruct (truthy url && _) eqn:Hc; [|done].
    apply andb_true_iff in Hc as [_ Hc].
    apply negb_true_iff, bool_decide_eq_false in Hc.
    assert (url ∈ pages ∖ seen) as Hin.
    { apply elem_of_difference. split; [by apply Hfin, Hnext | done]. }
    assert (size (pages ∖ seen) ≠ 0); [|lia].
    apply size_non_empty_iff. intros Hempty. rewrite Hempty in Hin.
    by apply not_elem_of_empty in Hin.
  - destruct (truthy url && _) eqn:Hc; [|done].
    apply andb_true_iff in Hc as [_ Hc].
    apply negb_true_iff, bool_decide_eq_false in Hc.
    destruct (fetch_html w url) as [html|e] eqn:Hf; [|done].
    apply IH.
    + intros x Hx. by apply (reach_next w start url html x); [apply Hnext | |].
    + assert (pages ∖ ({[url]} ∪ seen) ⊂ pages ∖ seen) as Hsub.
      { split.
        - intros x. rewrite !elem_of_difference, not_elem_of_union. tauto.
        - intros Hrev. specialize (Hrev url).
          rewrite !elem_of_difference, not_elem_of_union in Hrev.
          destruct Hrev as [_ [Hurl _]]; [by split; [apply Hfin, Hnext|]|].
          by apply Hurl, elem_of_singleton. }
      apply subset_size in Hsub. lia.
Qed.

(** Fuel beyond what the loop uses changes nothing. *)
Lemma crawl_loop_fuel_mono (w : world) (fuel fuel' : nat) (nxt0 : option str)
    (seen : gset str) (acc trace : list str) :
  fuel ≤ fuel' →
  crawl_end_of (crawl_loop w fuel nxt0 seen acc trace) ≠ Running →
  crawl_loop w fuel' nxt0 seen acc trace = crawl_loop w fuel nxt0 seen acc trace.
Proof.
  revert fuel' nxt0 seen acc trace.
  induction fuel as [|fuel IH]; intros fuel' nxt0 seen acc trace Hle;
    destruct nxt0 as [url|]; simpl.
  - destruct fuel'; simpl; destruct (truthy url && _); done.
  - by destruct fuel'.
  - destruct fuel' as [|fuel']; [lia|]. simpl.
    destruct (truthy url && _); [|done].
    destruct (fetch_html w url) as [html|e]; [|done].
    apply IH. lia.
  - by destruct fuel'.
Qed.

(** C10.  During a crawl no list page is fetched twice: the URLs passed to
    the fetcher are pairwise distinct, however far the loop gets.  When the
    list pages reachable from the start URL lie in a finite set, the loop
    ends (it returns, or an exception of the fetcher ends it) within as many
    iterations as the set has elements, and more fuel does not change the
    result.  The list of detail URLs it returns has no duplicates. *)
Theorem C10_crawl_distinct_pages (w : world) (list_url : str) :
  (∀ fuel, NoDup (fetched (crawl_all_details w fuel list_url)))
  ∧ (∀ (pages : gset str),
       (∀ x, reachable w list_url x → x ∈ pages) →
       ∀ fuel, size pages ≤ fuel →
         crawl_end_of (crawl_all_details w fuel list_url) ≠ Running
         ∧ crawl_all_details w fuel list_url
           = crawl_all_details w (size pages) list_url)
  ∧ (∀ fuel urls,
       crawl_end_of (crawl_all_details w fuel list_url) = Done urls →
       NoDup urls).
Proof.
  unfold crawl_all_details. split_and!.
  - intros fuel. apply crawl_loop_fetched_NoDup; [constructor|].
    by intros x ?%elem_of_nil.
  - intros pages Hfin fuel Hfuel.
    assert (∀ n, size pages ≤ n →
                 crawl_end_of (crawl_loop w n (Some list_url) ∅ [] []) ≠ Running)
      as Hends.
    { intros n Hn. apply (crawl_loop_ends w list_url pages); [done | |].
      - intros x [= <-]. constructor.
      - etrans; [|exact Hn]. apply subseteq_size.
        intros x. rewrite elem_of_difference. tauto. }
    split; [by apply Hends|].
    apply crawl_loop_fuel_mono; [done | by apply Hends].
  - intros fuel urls. apply crawl_loop_all_NoDup. constructor.
Qed.

Lemma tabelog_cycle_reachable x :
  reachable Samples.tabelog_cycle Samples.page_1 x →
  x ∈ ({[Samples.page_1; Samples.page_2]} : gset str).
Proof.
  induction 1 as [|url html nxt _ IH _ Hnext]; [set_solver|].
  simpl in Hnext. repeat case_bool_decide; simplify_eq; set_solver.
Qed.

Lemma C10_crawl_distinct_pages_witness :
  crawl_all_details Samples.tabelog_cycle 2 Samples.page_1
  = {| crawl_end_of := Done [Samples.shop_1; Samples.shop_2; Samples.shop_3];
       fetched := [Samples.page_1; Samples.page_2] |}
  ∧ crawl_end_of (crawl_all_details Samples.tabelog_cycle 7 Samples.page_1)
    ≠ Running.
Proof.
  destruct (C10_crawl_distinct_pages Samples.tabelog_cycle Samples.page_1)
    as (_ & Hends & _).
  split; [vm_compute; reflexivity|].
  apply (Hends {[Samples.page_1; Samples.page_2]} tabelog_cycle_reachable).
  rewrite size_union, !size_singleton; [lia|].
  apply disjoint_singleton_l, not_elem_of_singleton. str_neq.
Defined.

End Crawl.

Section Whitespace.

Lemma lstrip_suffix s : ∃ a, s = a ++ lstrip s ∧ Forall (λ c, isspace c = true) a.
Proof.
  induction s as [|c s [a [IH1 IH2]]]; simpl.
  - by exists [].
  - destruct (isspace c) eqn:Hc.
    + exists (c :: a). split; [simpl; congruence | by constructor].
    + by exists [].
Qed.

Lemma lstrip_head s c t : lstrip s = c :: t → isspace c = false.
Proof.
  induction s as [|d s IH]; simpl; [done|].
  destruct (isspace d) eqn:Hd; [done|]. by intros [= <- _].
Qed.

Lemma lstrip_fixed s : match s with c :: _ => isspace c = false | [] => True end →
  lstrip s = s.
Proof. destruct s as [|c s]; simpl; [done|]. by intros ->. Qed.

Lemma lstrip_idemp s : lstrip (lstrip s) = lstrip s.
Proof.
  apply lstrip_fixed. destruct (lstrip s) eqn:E; [done|]. by eapply lstrip_head.
Qed.

Lemma lstrip_app x y : lstrip x ≠ [] → lstrip (x ++ y) = lstrip x ++ y.
Proof.
  induction x as [|c x IH]; simpl; [done|].
  destruct (isspace c); [done|]. by intros _.
Qed.

Lemma lstrip_mid a c b : isspace c = false → lstrip (a ++ c :: b) ≠ [].
Proof.
  intros Hc. induction a as [|d a IH]; simpl.
  - by rewrite Hc.
  - by destruct (isspace d).
Qed.

Lemma rstrip_snoc_space s c : isspace c = true → rstrip (s ++ [c]) = rstrip s.
Proof. intros Hc. unfold rstrip. rewrite rev_unit. simpl. by rewrite Hc. Qed.

Lemma rstrip_snoc_word s c : isspace c = false → rstrip (s ++ [c]) = s ++ [c].
Proof.
  intros Hc. unfold rstrip. rewrite rev_unit. simpl. rewrite Hc.
  simpl. by rewrite rev_involutive.
Qed.

Lemma rstrip_app x y : rstrip y ≠ [] → rstrip (x ++ y) = x ++ rstrip y.
Proof.
  unfold rstrip. intros Hy. rewrite rev_app_distr, lstrip_app.
  - by rewrite rev_app_distr, rev_involutive.
  - intros E. apply Hy. by rewrite E.
Qed.

Lemma rstrip_mid a c b : isspace c = false → rstrip (a ++ c :: b) ≠ [].
Proof.
  intros Hc. unfold rstrip. rewrite rev_app_distr. simpl. rewrite <- app_assoc. simpl.
  intros E. apply (f_equal (@rev N)) in E. rewrite rev_involutive in E. simpl in E.
  by eapply lstrip_mid.
Qed.

Lemma rstrip_prefix s : ∃ a, s = rstrip s ++ a.
Proof.
  unfold rstrip. destruct (lstrip_suffix (rev s)) as [a [E _]].
  exists (rev a). rewrite <- rev_app_distr, <- E. by rewrite rev_involutive.
Qed.

Lemma rstrip_idemp s : rstrip (rstrip s) = rstrip s.
Proof. unfold rstrip. by rewrite rev_involutive, lstrip_idemp. Qed.

Lemma strip_idemp s : strip (strip s) = strip s.
Proof.
  unfold strip. rewrite (lstrip_fixed (rstrip (lstrip s))).
  - apply rstrip_idemp.
  - destruct (rstrip_prefix (lstrip s)) as [a E].
    destruct (rstrip (lstrip s)) as [|c t]; [done|].
    simpl in E. by eapply lstrip_head.
Qed.

Lemma split_aux_cons_ne c cur t : split_aux (c :: cur) t ≠ [].
Proof.
  revert c cur. induction t as [|d t IH]; intros c cur; simpl.
  - done.
  - destruct (isspace d); [done | apply IH].
Qed.

Lemma join_cons2 sep w ws : ws ≠ [] → join sep (w :: ws) = w ++ sep ++ join sep ws.
Proof. by destruct ws. Qed.

Lemma norm_words_aux t :
  (∀ c0 cur, isspace c0 = false →
     rstrip (rev (c0 :: cur) ++ sub_ws_aux false t)
     = join [0x20%N] (split_aux (c0 :: cur) t))
  ∧ (∀ c0 cur, isspace c0 = false →
     rstrip (rev (c0 :: cur) ++ 0x20%N :: sub_ws_aux true t)
     = join [0x20%N] (rev (c0 :: cur) :: split_aux [] t)).
Proof.
  induction t as [|c t [IHq IHp]].
  - split; intros c0 cur H0; simpl.
    + rewrite app_nil_r. by apply rstrip_snoc_word.
    + rewrite (rstrip_snoc_space (rev cur ++ [c0]) 0x20%N) by done.
      by apply rstrip_snoc_word.
  - split; intros c0 cur H0.
    + cbn [sub_ws_aux split_aux]. destruct (isspace c) eqn:Hc.
      * by apply IHp.
      * rewrite <- (IHq c (c0 :: cur) Hc).
        f_equal. change (rev (c :: c0 :: cur)) with (rev (c0 :: cur) ++ [c]).
        by rewrite <- app_assoc.
    + cbn [sub_ws_aux split_aux]. destruct (isspace c) eqn:Hc.
      * by apply IHp.
      * rewrite join_cons2 by apply split_aux_cons_ne.
        rewrite <- (IHq c [] Hc).
        change (rev (c0 :: cur) ++ 32%N :: c :: sub_ws_aux false t)
          with (rev (c0 :: cur) ++ [32%N] ++ (rev [c] ++ sub_ws_aux false t)).
        rewrite app_assoc, rstrip_app.
        -- by rewrite <- app_assoc.
        -- apply (rstrip_mid [] c); done.
Qed.

Lemma strip_sub_ws_aux b s :
  rstrip (lstrip (sub_ws_aux b s)) = join [0x20%N] (split_aux [] s).
Proof.
  revert b. induction s as [|c s IH]; intros b.
  - done.
  - cbn [sub_ws_aux split_aux]. destruct (isspace c) eqn:Hc.
    + destruct b; [apply IH|]. cbn [lstrip]. 
      change (isspace 32) with true. cbn iota. apply IH.
    + cbn [lstrip]. rewrite Hc.
      apply (proj1 (norm_words_aux s) c [] Hc).
Qed.

Lemma strip_sub_ws_words s : strip (sub_ws s) = join [0x20%N] (split s).
Proof. apply strip_sub_ws_aux. Qed.

Lemma is_word_spec w :
  is_word w = true ↔ w ≠ [] ∧ Forall (λ c, isspace c = false) w.
Proof.
  unfold is_word. rewrite andb_true_iff, forallb_forall, Forall_forall.
  split.
  - intros [Hw Hall]. split; [by destruct w|].
    intros c Hc. apply negb_true_iff, Hall. by apply list_elem_of_In.
  - intros [Hw Hall]. split; [by destruct w|].
    intros c Hc. apply negb_true_iff, Hall. by apply list_elem_of_In.
Qed.

Lemma split_aux_words cur s :
  Forall (λ c, isspace c = false) cur →
  Forall (λ w, is_word w = true) (split_aux cur s).
Proof.
  revert cur. induction s as [|c s IH]; intros cur Hcur.
  - destruct cur as [|c0 cur]; simpl; [done|].
    constructor; [|done]. apply is_word_spec. split.
    + by destruct (rev cur).
    + change (rev cur ++ [c0]) with (rev (c0 :: cur)). by apply Forall_rev.
  - cbn [split_aux]. destruct (isspace c) eqn:Hc.
    + destruct cur as [|c0 cur]; [by apply IH|].
      constructor; [|by apply IH]. apply is_word_spec. split.
      * simpl. by destruct (rev cur).
      * by apply Forall_rev.
    + apply IH. by constructor.
Qed.

Lemma split_words s : Forall (λ w, is_word w = true) (split s).
Proof. by apply split_aux_words. Qed.

Lemma split_aux_app_word w cur rest :
  Forall (λ c, isspace c = false) w →
  split_aux cur (w ++ rest) = split_aux (rev w ++ cur) rest.
Proof.
  revert cur. induction w as [|c w IH]; intros cur Hw; [done|].
  inversion Hw as [|? ? Hc Hw']; subst. simpl. rewrite Hc, IH by done.
  by rewrite <- app_assoc.
Qed.

Lemma split_join ws :
  Forall (λ w, is_word w = true) ws → split (join [0x20%N] ws) = ws.
Proof.
  unfold split. induction ws as [|w ws IH]; intros Hws; [done|].
  inversion Hws as [|? ? Hw Hws']; subst.
  apply is_word_spec in Hw as [Hne Hw].
  assert (Hrev : ∀ tl, match rev w ++ [] with [] => tl | _ => rev (rev w ++ []) :: tl end
                       = w :: tl).
  { intros tl. rewrite app_nil_r, rev_involutive.
    destruct (rev w) eqn:E; [|done].
    apply (f_equal (@rev N)) in E. by rewrite rev_involutive in E. }
  destruct ws as [|w' ws].
  - simpl. rewrite <- (app_nil_r w) at 1. rewrite split_aux_app_word by done.
    simpl. apply (Hrev []).
  - rewrite join_cons2 by done. rewrite split_aux_app_word by done.
    change ([32%N] ++ join [32%N] (w' :: ws)) with (32%N :: join [32%N] (w' :: ws)).
    cbn [split_aux]. change (isspace 32) with true. cbn iota.
    rewrite IH by done. apply (Hrev (w' :: ws)).
Qed.

(** The characters of words joined by single spaces. *)
Lemma join_words_chars ws c :
  Forall (λ w, is_word w = true) ws →
  c ∈ join [0x20%N] ws → c = 0x20%N ∨ isspace c = false.
Proof.
  induction ws as [|w ws IH]; intros Hws Hc; [by apply elem_of_nil in Hc|].
  inversion Hws as [|? ? Hw Hws']; subst.
  apply is_word_spec in Hw as [_ Hw]. rewrite Forall_forall in Hw.
  destruct ws as [|w' ws].
  - right. by apply Hw.
  - rewrite join_cons2 in Hc by done.
    apply elem_of_app in Hc as [Hc|Hc]; [right; by apply Hw|].
    apply elem_of_app in Hc as [Hc|Hc]; [left; by apply list_elem_of_singleton in Hc|].
    by apply IH.
Qed.

Lemma replace1_absent old new s : old ∉ s → replace1 old new s = s.
Proof.
  unfold replace1. induction s as [|c s IH]; intros Hs; [done|].
  apply not_elem_of_cons in Hs as [Hc Hs]. simpl.
  destruct (N.eqb_spec c old) as [->|_]; [done|]. simpl. by rewrite IH.
Qed.

Lemma strip_join_words ws :
  strip (join [0x20%N] (split ws)) = join [0x20%N] (split ws).
Proof. rewrite <- strip_sub_ws_words. apply strip_idemp. Qed.

End Whitespace.

Section Normalisation.

Lemma textnorm_words s : Dairitenbosyuu.textnorm s = join [0x20%N] (split s).
Proof. apply strip_sub_ws_words. Qed.

Lemma textnorm_idemp s :
  Dairitenbosyuu.textnorm (Dairitenbosyuu.textnorm s) = Dairitenbosyuu.textnorm s.
Proof. rewrite !textnorm_words. by rewrite split_join by apply split_words. Qed.

Lemma normalize_text_words s :
  Dairitenhonpo.normalize_text (Some s) = join [0x20%N] (split s).
Proof.
  unfold Dairitenhonpo.normalize_text. destruct s as [|c s]; [done|].
  cbn [truthy]. apply strip_join_words.
Qed.

Lemma normalize_text_idemp s :
  Dairitenhonpo.normalize_text (Some (Dairitenhonpo.normalize_text (Some s)))
  = Dairitenhonpo.normalize_text (Some s).
Proof. rewrite !normalize_text_words. by rewrite split_join by apply split_words. Qed.

(** No whitespace other than the space is left in a normalized text. *)
Lemma normalized_no_other_space s (c : N) :
  isspace c = true → c ≠ 0x20%N → c ∉ join [0x20%N] (split s).
Proof.
  intros Hc Hne Hin.
  destruct (join_words_chars _ _ (split_words s) Hin); congruence.
Qed.

Lemma clean_value_normalize_text s :
  Dairitenhonpo.clean_value s = Dairitenhonpo.normalize_text (Some s).
Proof.
  unfold Dairitenhonpo.clean_value. rewrite normalize_text_words.
  rewrite (replace1_absent 0x0D%N), (replace1_absent 0x0A%N)
    by (by apply normalized_no_other_space).
  apply strip_join_words.
Qed.

(** X1. [textnorm] of dairitenbosyuu and [normalize_space] of
    franchise_no_madoguti are one function: the result is the whitespace
    separated words of the text joined by single spaces, every word non-empty
    and free of whitespace, and normalising a second time changes nothing. *)
Theorem X1_normalize_space_words (s : str) :
  Franchise.normalize_space s = Dairitenbosyuu.textnorm s
  ∧ Dairitenbosyuu.textnorm s = join [0x20%N] (split s)
  ∧ Forall (λ w, is_word w = true) (split s)
  ∧ Dairitenbosyuu.textnorm (Dairitenbosyuu.textnorm s) = Dairitenbosyuu.textnorm s.
Proof.
  split_and!;
    [done | apply textnorm_words | apply split_words | apply textnorm_idemp].
Qed.

(** X2. [normalize_text] of dairitenhonpo, written with [split] and [join],
    computes the same string as the regular expression of the other scripts;
    and on its result the two [replace] calls and the [strip] of the row loop
    change nothing, so the stored value is the normalized cell text. *)
Theorem X2_normalize_text_agrees (s : str) :
  Dairitenhonpo.normalize_text (Some s) = Dairitenbosyuu.textnorm s
  ∧ Dairitenhonpo.clean_value s = Dairitenhonpo.normalize_text (Some s).
Proof.
  split; [|apply clean_value_normalize_text].
  by rewrite normalize_text_words, textnorm_words.
Qed.

End Normalisation.

(** * The URL lists as filters over the first cells *)

Section UrlReaders.

(** A loop that takes the stripped first cell of every row that has one
    and passes a test is a filter over those cells. *)
Lemma flat_map_first_cells (P : str → Prop) `{∀ x, Decision (P x)}
    (g : list str → list str) (rows : csv_rows) :
  g [] = [] →
  (∀ c cs, g (c :: cs) = if decide (P (strip c)) then [strip c] else []) →
  flat_map g rows = filter P (strip <$> omap head rows).
Proof.
  intros Hnil Hcons. induction rows as [|row rows IH]; [done|].
  cbn [flat_map]. rewrite IH. destruct row as [|c cs].
  - by rewrite Hnil.
  - rewrite Hcons. change (omap head ((c :: cs) :: rows)) with (c :: omap head rows).
    rewrite fmap_cons. destruct (decide (P (strip c))).
    + by rewrite filter_cons_True.
    + by rewrite filter_cons_False.
Qed.

Lemma honpo_read_urls_order (rows : csv_rows) :
  Dairitenhonpo.read_urls (Rows rows)
  = Returned
      (filter (λ url, url ≠ [])
         (strip <$> omap head
            match rows with
            | r0 :: rest =>
              if startswith (u "http") (default [] (head r0)) then rows else rest
            | [] => []
            end)).
Proof.
  unfold Dairitenhonpo.read_urls. cbn [open_csv]. destruct rows as [|r0 rest]; [done|].
  cbv zeta. f_equal.
  assert (Hcell : match r0 with c :: _ => c | [] => [] end = default [] (head r0))
    by (by destruct r0).
  rewrite Hcell. rewrite (flat_map_first_cells (λ url, url ≠ [])).
  - by destruct (startswith (u "http") (default [] (head r0))).
  - done.
  - intros c cs. cbv zeta. destruct (strip c); [by rewrite decide_False by auto|].
    by rewrite decide_True.
Qed.

Lemma bosyuu_read_urls_order (rows : csv_rows) :
  Dairitenbosyuu.read_urls (Rows rows)
  = Returned
      (filter (λ url, startswith (u "http://") url = true
                      ∨ startswith (u "https://") url = true)
         (strip <$> omap head rows)).
Proof.
  unfold Dairitenbosyuu.read_urls. cbn [open_csv]. f_equal.
  apply (flat_map_first_cells
           (λ url, startswith (u "http://") url = true
                   ∨ startswith (u "https://") url = true)); [done|].
  intros c cs. cbv zeta. destruct (strip c) as [|x url].
  - rewrite decide_False; [done|]. by intros [?|?].
  - cbn [truthy andb].
    destruct (startswith (u "http://") (x :: url)) eqn:H1;
      destruct (startswith (u "https://") (x :: url)) eqn:H2; cbn [orb].
    + rewrite decide_True; [done | by left].
    + rewrite decide_True; [done | by left].
    + rewrite decide_True; [done | by right].
    + rewrite decide_False; [done | by intros [?|?]].
Qed.

Lemma franchise_load_urls_order (rows : csv_rows) :
  Franchise.load_urls_from_csv (Rows rows)
  = Returned
      (filter (λ val, val ≠ []
                      ∧ (map lower_ascii val ∉ [u "url"; u "リンク"; u "urls"]))
         (strip <$> omap head rows)).
Proof.
  unfold Franchise.load_urls_from_csv. cbn [open_csv]. f_equal.
  apply (flat_map_first_cells
           (λ val, val ≠ []
                   ∧ (map lower_ascii val ∉ [u "url"; u "リンク"; u "urls"])));
    [done|].
  intros c cs. cbv zeta. destruct (strip c) as [|x val].
  - rewrite decide_False; [done|]. by intros [? _].
  - cbn [truthy negb]. case_bool_decide as Hw.
    + rewrite decide_False; [done|]. by intros [_ ?].
    + by rewrite decide_True.
Qed.

End UrlReaders.

(** * dairitenhonpo: the fetch budget, the URL list, the sort *)

Section HonpoFetchBudget.
Import Dairitenhonpo.

Variables (retry_count : nat) (backoff : Z) (get : nat → outcome http_response).

(** An [HTTPError] that carries a 4xx status ends the call at once. *)
Lemma fetch_step_http_4xx attempt todo st msg :
  get attempt = Raised (HTTPError (Some st) msg) →
  negb (st =? 0)%Z && is_4xx st = true →
  fetch_html_from retry_count backoff get attempt (S todo)
  = requested (finished (None, Some st, Some (http_msg st))).
Proof. intros Hget H4. cbn [fetch_html_from]. by rewrite Hget, H4. Qed.

(** The four ways an attempt can go. *)
Lemma fetch_attempt_cases (o : outcome http_response) :
  (∃ resp, o = Returned resp ∧ is_4xx (status_code resp) = true)
  ∨ (∃ resp, o = Returned resp ∧ raises_for_status (status_code resp) = false)
  ∨ retried o = true
  ∨ (∃ st msg, o = Raised (HTTPError (Some st) msg)
               ∧ negb (st =? 0)%Z && is_4xx st = true).
Proof.
  destruct o as [resp|[[st|] msg|msg|msg|msg]]; cbn [retried]; auto.
  - destruct (is_4xx (status_code resp)) eqn:H4; [left; eauto|].
    destruct (raises_for_status (status_code resp)) eqn:H5;
      [right; right; by left | right; left; eauto].
  - destruct (negb (st =? 0)%Z && is_4xx st) eqn:H4;
      [right; right; right; eauto | right; right; by left].
Qed.

(** What holds of the loop from any iteration on. *)
Lemma fetch_html_from_budget todo : ∀ attempt,
  attempt + todo = retry_count + 1 → 1 ≤ todo →
  let r := fetch_html_from retry_count backoff get attempt todo in
  1 ≤ fr_requests r ≤ todo
  ∧ fr_sleeps r = backoffs backoff (fr_requests r - 1) attempt
  ∧ match fr_result r with
    | (Some html, status, err) =>
      err = None
      ∧ ∃ resp, get (attempt + fr_requests r - 1) = Returned resp
                ∧ html = text resp ∧ status = Some (status_code resp)
                ∧ raises_for_status (status_code resp) = false
    | (None, _, err) => err ≠ None
    end.
Proof.
  induction todo as [|todo IH]; intros attempt Hsum Hpos; [lia|].
  destruct (fetch_attempt_cases (get attempt))
    as [(resp & Hget & H4)|[(resp & Hget & Hok)|[Hr|(st & msg & Hget & H4)]]].
  - rewrite (fetch_step_4xx _ _ _ _ _ resp) by done.
    cbn. split_and!; [lia | lia | done | done].
  - rewrite (fetch_step_ok _ _ _ _ _ resp) by done.
    cbn. split_and!; [lia | lia | done | done |].
    exists resp. by replace (attempt + 1 - 1) with attempt by lia.
  - destruct (decide (attempt < retry_count)) as [Hlt|Hlt].
    + rewrite fetch_step_retry by done.
      destruct (IH (S attempt)) as (Hreq & Hsl & Hres); [lia | lia |].
      set (r := fetch_html_from retry_count backoff get (S attempt) todo) in *.
      cbn [requested slept fr_requests fr_sleeps fr_result].
      split_and!; [lia | lia | |].
      * rewrite Hsl. replace (S (fr_requests r) - 1) with (S (fr_requests r - 1)) by lia.
        done.
      * destruct (fr_result r) as [[[html|] status] err]; [|done].
        destruct Hres as (Herr & resp & Hget & Hrest). split; [done|].
        exists resp. split; [|done]. rewrite <- Hget. f_equal. lia.
    + destruct (fetch_step_last retry_count backoff get attempt todo)
        as (status & msg & ->); [done | done |].
      cbn. split_and!; [lia | lia | done | done].
  - rewrite (fetch_step_http_4xx _ _ st msg) by done.
    cbn. split_and!; [lia | lia | done | done].
Qed.

End HonpoFetchBudget.

Section HonpoRun.
Import Dairitenhonpo.

(** X3. Whatever the network does, [fetch_html] of dairitenhonpo makes at
    least one and at most [retry_count + 1] requests; it sleeps once between
    two requests and never after the last one, the [i]-th delay being [i]
    times the backoff; a body is returned only together with no error
    message, it is the text of the last response received, and the status
    of that response is outside 400..599; without a body there is always an
    error message. *)
Theorem X3_fetch_html_budget (retry_count : nat) (backoff : Z)
    (get : nat → outcome http_response) :
  let r := fetch_html_cfg retry_count backoff get in
  1 ≤ fr_requests r ≤ retry_count + 1
  ∧ fr_sleeps r = backoffs backoff (fr_requests r - 1) 0
  ∧ match fr_result r with
    | (Some html, status, err) =>
      err = None
      ∧ ∃ resp, get (fr_requests r - 1) = Returned resp
                ∧ html = text resp ∧ status = Some (status_code resp)
                ∧ ¬ (400 <= status_code resp < 600)%Z
    | (None, _, err) => err ≠ None
    end.
Proof.
  pose proof (fetch_html_from_budget retry_count backoff get (retry_count + 1) 0)
    as H.
  cbv zeta in *. unfold fetch_html_cfg.
  destruct H as (Hreq & Hsl & Hres); [lia | lia |].
  split_and!; [lia | lia | done |].
  destruct (fr_result _) as [[[html|] status] err]; [|done].
  destruct Hres as (Herr & resp & Hget & Hhtml & Hst & Hok). split; [done|].
  exists resp. split_and!; [done | done | done |].
  unfold raises_for_status in Hok. apply andb_false_iff in Hok. lia.
Qed.

(** The URLs [read_urls] returns, by the rows they come from. *)
Lemma honpo_read_urls_members (rows : csv_rows) :
  ∃ urls,
    read_urls (Rows rows) = Returned urls
    ∧ Forall (λ url, url ≠ [] ∧ strip url = url) urls
    ∧ ∀ url, url ∈ urls ↔
        url ≠ []
        ∧ ∃ i c cs, rows !! i = Some (c :: cs) ∧ strip c = url
                    ∧ (i = 0 → startswith (u "http") c = true).
Proof.
  set (f := λ row : list str,
         match row with
         | [] => []
         | c :: _ => let url := strip c in if truthy url then [url] else []
         end).
  assert (Hf : ∀ row url, url ∈ f row ↔
                 url ≠ [] ∧ ∃ c cs, row = c :: cs ∧ strip c = url).
  { intros [|c cs] url; simpl.
    - split; [by intros ?%elem_of_nil | by intros (_ & ? & ? & ? & _)].
    - destruct (strip c) as [|x s] eqn:E; simpl.
      + split; [by intros ?%elem_of_nil|].
        intros (Hne & c' & cs' & [= <- <-] & <-). by rewrite E in Hne.
      + rewrite list_elem_of_singleton. split.
        * intros ->. split; [done|]. exists c, cs. by rewrite E.
        * intros (_ & c' & cs' & [= <- <-] & <-). by rewrite E. }
  assert (Hflat : ∀ l url, url ∈ flat_map f l ↔
                    url ≠ [] ∧ ∃ i c cs, l !! i = Some (c :: cs) ∧ strip c = url).
  { intros l url. rewrite list_elem_of_In, in_flat_map. split.
    - intros (row & Hin & Hurl). apply list_elem_of_In in Hurl.
      apply Hf in Hurl as (Hne & c & cs & -> & E). split; [done|].
      apply list_elem_of_In, list_elem_of_lookup in Hin as [i Hi]. eauto.
    - intros (Hne & i & c & cs & Hi & E). exists (c :: cs). split.
      + eapply list_elem_of_In, list_elem_of_lookup_2, Hi.
      + apply list_elem_of_In, Hf. eauto. }
  assert (Hall : ∀ l, Forall (λ url, url ≠ [] ∧ strip url = url) (flat_map f l)).
  { intros l. apply Forall_forall. intros url (Hne & i & c & cs & _ & <-)%Hflat.
    split; [done | apply strip_idemp]. }
  destruct rows as [|r0 rest].
  - exists []. split_and!; [done | done |].
    intros url. split; [by intros ?%elem_of_nil|].
    by intros (_ & i & c & cs & ? & _).
  - unfold read_urls. cbn [open_csv]. cbv zeta. fold f.
    eexists. split; [reflexivity|]. split; [apply Hall|].
    intros url. rewrite Hflat.
    destruct r0 as [|c0 cs0].
    + change (startswith (u "http") []) with false. cbn iota. cbn [drop]. rewrite ?drop_0.
      split.
      * intros (Hne & i & c & cs & Hi & E). split; [done|].
        exists (S i), c, cs. split_and!; [done | done | lia].
      * intros (Hne & [|i] & c & cs & Hi & E & H0); [done|].
        split; [done|]. by exists i, c, cs.
    + destruct (startswith (u "http") c0) eqn:Hs; cbn [drop]; rewrite ?drop_0.
      * split.
        -- intros (Hne & i & c & cs & Hi & E). split; [done|].
           exists i, c, cs. split_and!; [done | done |].
           intros ->. by injection Hi as <- <-.
        -- intros (Hne & i & c & cs & Hi & E & _).
           split; [done|]. by exists i, c, cs.
      * split.
        -- intros (Hne & i & c & cs & Hi & E). split; [done|].
           exists (S i), c, cs. split_and!; [done | done | lia].
        -- intros (Hne & [|i] & c & cs & Hi & E & H0).
           ++ injection Hi as <- <-. specialize (H0 eq_refl). congruence.
           ++ split; [done|]. by exists i, c, cs.
Qed.

(** X4. [read_urls] of dairitenhonpo returns, in row order, the stripped
    first cells of the rows that are not empty after stripping.  Only the
    first row is tested for being a URL: it is left out when its first cell,
    as it stands in the file, does not start with "http"; the rows after it
    are taken whatever they hold. *)
Theorem X4_honpo_read_urls (rows : csv_rows) :
  ∃ urls,
    read_urls (Rows rows) = Returned urls
    ∧ urls
      = filter (λ url, url ≠ [])
          (strip <$> omap head
             match rows with
             | r0 :: rest =>
               if startswith (u "http") (default [] (head r0)) then rows else rest
             | [] => []
             end)
    ∧ Forall (λ url, url ≠ [] ∧ strip url = url) urls
    ∧ ∀ url, url ∈ urls ↔
        url ≠ []
        ∧ ∃ i c cs, rows !! i = Some (c :: cs) ∧ strip c = url
                    ∧ (i = 0 → startswith (u "http") c = true).
Proof.
  destruct (honpo_read_urls_members rows) as (urls & Hret & Hall & Hmem).
  exists urls. split; [done|]. split; [|done].
  rewrite honpo_read_urls_order in Hret. by injection Hret as <-.
Qed.

Lemma insert_by_url_Permutation r l : insert_by_url r l ≡ₚ r :: l.
Proof.
  induction l as [|r' l IH]; simpl; [done|].
  destruct (str_le _ _); [done|]. rewrite IH. apply Permutation_swap.
Qed.

Lemma insert_by_url_sorted r l :
  StronglySorted url_le l → StronglySorted url_le (insert_by_url r l).
Proof.
  induction 1 as [|r' l Hl IH Hall]; simpl.
  - by repeat constructor.
  - destruct (str_le (dget_default COL_URL [] r) (dget_default COL_URL [] r')) eqn:Hle.
    + constructor; [by constructor|]. constructor; [done|].
      eapply Forall_impl; [exact Hall|]. intros x Hx. unfold url_le, url_of in *.
      by eapply str_le_trans.
    + constructor; [done|]. rewrite insert_by_url_Permutation.
      constructor; [|done]. unfold url_le, url_of.
      destruct (str_le_total (dget_default COL_URL [] r) (dget_default COL_URL [] r'));
        congruence.
Qed.

Lemma str_le_refl a : str_le a a = true.
Proof. by destruct (str_le_total a a). Qed.

Lemma insert_by_url_filter r l k :
  filter (λ x, url_of x = k) (insert_by_url r l)
  = filter (λ x, url_of x = k) (r :: l).
Proof.
  induction l as [|r' l IH]; simpl; [done|].
  destruct (str_le (dget_default COL_URL [] r) (dget_default COL_URL [] r')) eqn:Hle;
    [done|].
  assert (url_of r ≠ url_of r') as Hne.
  { unfold url_of. intros E. rewrite E, str_le_refl in Hle. done. }
  rewrite (filter_cons _ r'), IH, !(filter_cons _ r), (filter_cons _ r').
  repeat case_decide; congruence.
Qed.

Lemma sort_by_url_Permutation l : sort_by_url l ≡ₚ l.
Proof.
  unfold sort_by_url. induction l as [|r l IH]; [done|]. simpl.
  by rewrite insert_by_url_Permutation, IH.
Qed.

Lemma sort_by_url_sorted l : StronglySorted url_le (sort_by_url l).
Proof.
  unfold sort_by_url. induction l as [|r l IH]; [constructor|]. simpl.
  by apply insert_by_url_sorted.
Qed.

Lemma sort_by_url_stable l k :
  filter (λ r, url_of r = k) (sort_by_url l) = filter (λ r, url_of r = k) l.
Proof.
  unfold sort_by_url. induction l as [|r l IH]; [done|]. simpl.
  by rewrite insert_by_url_filter, !(filter_cons _ r), IH.
Qed.

(** X5. The sort of [main] in dairitenhonpo rearranges the records without
    losing or adding one, leaves them in ascending order of their "取得URL"
    (code point order, a record without the key counting as the empty
    string), and is stable: records with the same URL keep the order in
    which they were collected. *)
Theorem X5_sort_by_url (records : list dict) :
  sort_by_url records ≡ₚ records
  ∧ StronglySorted url_le (sort_by_url records)
  ∧ ∀ k, filter (λ r, url_of r = k) (sort_by_url records)
         = filter (λ r, url_of r = k) records.
Proof.
  split_and!;
    [apply sort_by_url_Permutation | apply sort_by_url_sorted
    | intros k; apply sort_by_url_stable].
Qed.

End HonpoRun.

(** * Dicts built by assignment *)

Section DictFacts.

Lemma keys_cons k v (d : dict) : keys ((k, v) :: d) = k :: keys d.
Proof. done. Qed.

Lemma keys_dset k v d :
  keys (dset k v d) = if bool_decide (k ∈ keys d) then keys d else keys d ++ [k].
Proof.
  induction d as [|[k' v'] d IH]; [done|]. cbn [dset].
  destruct (decide (k' = k)) as [->|Hne]; rewrite !keys_cons.
  - rewrite bool_decide_eq_true_2; [done | by left].
  - rewrite IH. case_bool_decide as H1; case_bool_decide as H2; try done.
    + exfalso. apply H2. by right.
    + exfalso. apply elem_of_cons in H2 as [H2|H2]; [by subst | done].
Qed.

Lemma keys_dset_append_new k v d : keys (dset k v d) = append_new (keys d) [k].
Proof. by rewrite keys_dset. Qed.

Lemma NoDup_keys_dset k v d : NoDup (keys d) → NoDup (keys (dset k v d)).
Proof.
  intros Hd. rewrite keys_dset. case_bool_decide as Hk; [done|].
  apply NoDup_app. split_and!; [done | | apply NoDup_singleton].
  by intros x Hx ->%list_elem_of_singleton.
Qed.

Lemma Forall_dset (P : str * str → Prop) k v d :
  P (k, v) → Forall P d → Forall P (dset k v d).
Proof.
  intros Hkv. induction 1 as [|[k' v'] d Hx Hd IH]; simpl.
  - by constructor.
  - destruct (decide (k' = k)); by constructor.
Qed.

Lemma filter_all (P : str → Prop) `{∀ x, Decision (P x)} (l : list str) :
  (∀ x, x ∈ l → P x) → filter P l = l.
Proof.
  induction l as [|x l IH]; intros Hl; [done|].
  rewrite filter_cons_True by (apply Hl; by left).
  f_equal. apply IH. intros y Hy. apply Hl. by right.
Qed.

Lemma first_seen_NoDup l : NoDup l → first_seen l = l.
Proof.
  induction 1 as [|x l Hx Hl IH]; [done|]. simpl. rewrite IH. f_equal.
  apply filter_all. by intros y Hy ->.
Qed.

Lemma dget_Some_elem_of k v d : dget k d = Some v → (k, v) ∈ d.
Proof.
  induction d as [|[k' v'] d IH]; simpl; [done|].
  destruct (decide (k' = k)) as [->|Hne].
  - intros [= ->]. by left.
  - intros Hd. right. by apply IH.
Qed.

Lemma dget_default_elem_of k d :
  dget_default k [] d = [] ∨ (k, dget_default k [] d) ∈ d.
Proof.
  unfold dget_default. destruct (dget k d) as [v|] eqn:E; [|by left].
  right. by apply dget_Some_elem_of.
Qed.

(** The keys of a schema: the required columns, then the others. *)
Lemma schema_NoDup (required : list str) (records : list dict) :
  NoDup required → NoDup (required ++ union_first_seen required records).
Proof.
  intros Hreq. apply NoDup_app. split_and!; [done | | apply NoDup_first_seen].
  intros k Hk [Hk' _]%elem_of_union_first_seen. done.
Qed.

Lemma schema_covers (required : list str) (records : list dict) rec k :
  rec ∈ records → k ∈ keys rec →
  k ∈ required ++ union_first_seen required records.
Proof.
  intros Hrec Hk. apply elem_of_app.
  destruct (decide (k ∈ required)) as [Hin|Hout]; [by left|].
  right. apply elem_of_union_first_seen. eauto.
Qed.

Lemma rows_rectangular (cols : list str) (records : list dict) :
  Forall (λ row, length row = length cols) (map (writerow cols) records).
Proof.
  apply Forall_forall. intros row Hrow.
  apply list_elem_of_In, in_map_iff in Hrow as (rec & <- & _).
  apply writerow_length.
Qed.

Lemma required_NoDup :
  NoDup Dairitenhonpo.REQUIRED_COLUMNS
  ∧ NoDup Dairitenbosyuu.REQUIRED_COLUMNS
  ∧ NoDup Franchise.REQUIRED_COLUMNS.
Proof. split_and!; decided. Qed.

(** X6. Every table the scripts write is rectangular and loses nothing:
    the column names are pairwise distinct, there is one row per record,
    every row has one cell per column, and every key of every record is a
    column.  This holds of [write_csv] (dairitenhonpo), of [save_csv]
    (dairitenbosyuu), which writes a table when there is a record and none
    when there is no record, and of [to_dataframe]
    (franchise_no_madoguti). *)
Theorem X6_written_table_shape (records : list dict) :
  let shape (t : list str * list (list str)) :=
    NoDup t.1
    ∧ length t.2 = length records
    ∧ Forall (λ row, length row = length t.1) t.2
    ∧ (∀ rec k, rec ∈ records → k ∈ keys rec → k ∈ t.1) in
  shape (Dairitenhonpo.write_csv records)
  ∧ match Dairitenbosyuu.save_csv records with
    | Some t => records ≠ [] ∧ shape t
    | None => records = []
    end
  ∧ shape (Franchise.to_dataframe records).
Proof.
  intros shape. subst shape. cbv beta.
  destruct required_NoDup as (Hh & Hb & Hf).
  split; [|split].
  - unfold Dairitenhonpo.write_csv. cbv zeta. cbn [fst snd].
    rewrite honpo_header_of_spec.
    split_and!; [by apply schema_NoDup | apply length_map | apply rows_rectangular |].
    intros rec k. apply schema_covers.
  - destruct records as [|r rs]; [done|].
    unfold Dairitenbosyuu.save_csv. cbv zeta. cbn [fst snd].
    rewrite bosyuu_unify_columns_spec. split; [done|].
    split_and!; [by apply schema_NoDup | apply length_map | apply rows_rectangular |].
    intros rec k. apply schema_covers.
  - unfold Franchise.to_dataframe, Franchise.frame_row. cbv zeta. cbn [fst snd].
    rewrite franchise_ordered_columns_spec.
    split_and!; [| apply length_map | apply rows_rectangular |].
    + rewrite sorted_Permutation. by apply schema_NoDup.
    + intros rec k Hrec Hk. rewrite sorted_Permutation. by eapply schema_covers.
Qed.

End DictFacts.

(** * What the table parsers store *)

Section Harvests.

Lemma normal_words s : normal (join [0x20%N] (split s)).
Proof.
  unfold normal. rewrite strip_sub_ws_words. by rewrite split_join by apply split_words.
Qed.

Lemma normal_textnorm s : normal (Dairitenbosyuu.textnorm s).
Proof. rewrite textnorm_words. apply normal_words. Qed.

Lemma normal_normalize_text s : normal (Dairitenhonpo.normalize_text (Some s)).
Proof. rewrite normalize_text_words. apply normal_words. Qed.

Lemma normal_strip_fixed v : normal v → strip v = v.
Proof.
  unfold normal. rewrite strip_sub_ws_words. intros E. rewrite <- E.
  apply strip_join_words.
Qed.

Lemma normalized_key_in_cases km key_raw :
  Dairitenhonpo.normalized_key_in km key_raw = key_raw
  ∨ Dairitenhonpo.normalized_key_in km key_raw ∈ km.*2.
Proof.
  induction km as [|[k colname] km IH]; simpl; [by left|].
  destruct (contains k key_raw); [right; by left|].
  destruct IH as [IH|IH]; [by left | right; by right].
Qed.

(** The column names of the dairitenhonpo parser. *)
Lemma honpo_known_columns_normal :
  Forall (λ c, c ≠ [] ∧ normal c) Dairitenhonpo.KNOWN_FIELD_MAP.*2.
Proof. repeat constructor; try str_neq; vm_compute; reflexivity. Qed.

Lemma honpo_harvest_normal r nk val :
  Dairitenhonpo.harvest r = Some (nk, val) → nk ≠ [] ∧ normal nk ∧ normal val.
Proof.
  unfold Dairitenhonpo.harvest.
  destruct (Dairitenhonpo.row_th r) as [th|]; [|done].
  destruct (Dairitenhonpo.row_td r) as [td|]; [|done]. cbv zeta.
  pose proof (normal_normalize_text th) as Hth.
  set (key_raw := Dairitenhonpo.normalize_text (Some th)) in *.
  destruct (truthy key_raw) eqn:Ht; [|done].
  intros [= <- <-].
  assert (Dairitenhonpo.normalized_key key_raw ≠ []
          ∧ normal (Dairitenhonpo.normalized_key key_raw)) as [? ?].
  { unfold Dairitenhonpo.normalized_key.
    destruct (normalized_key_in_cases Dairitenhonpo.KNOWN_FIELD_MAP key_raw)
      as [->|Hin].
    - split; [by destruct key_raw | done].
    - pose proof honpo_known_columns_normal as Hall.
      rewrite Forall_forall in Hall. by apply Hall. }
  split_and!; [done | done |].
  rewrite clean_value_normalize_text. apply normal_normalize_text.
Qed.

Lemma honpo_row_step_clean d r : clean d → clean (Dairitenhonpo.row_step d r).
Proof.
  intros [Hnd Hall]. unfold Dairitenhonpo.row_step.
  destruct (Dairitenhonpo.harvest r) as [[nk val]|] eqn:Hh; [|done].
  cbv zeta. destruct (Nat.ltb_spec (length (dget_default nk [] d)) (length val));
    [|done].
  apply honpo_harvest_normal in Hh as (Hnk & Hnk' & Hval).
  split; [by apply NoDup_keys_dset|].
  apply Forall_dset; [|done]. simpl. split_and!; [done | | done | done].
  intros ->. simpl in *. lia.
Qed.

Lemma clean_nil : clean [].
Proof. split; [apply NoDup_nil_2 | constructor]. Qed.

Lemma honpo_scan_tables_clean ts d :
  clean d → clean (Dairitenhonpo.scan_tables ts d).
Proof.
  revert d. induction ts as [|t ts IH]; intros d Hd; [done|]. simpl.
  assert (clean (fold_left Dairitenhonpo.row_step t d)) as Ht.
  { apply (fold_left_invariant clean); [|done].
    intros d' r _. apply honpo_row_step_clean. }
  destruct (_ && _); [done | by apply IH].
Qed.

Lemma honpo_parse_company_table_clean s :
  clean (Dairitenhonpo.parse_company_table s).
Proof. apply honpo_scan_tables_clean, clean_nil. Qed.

Lemma bosyuu_kv_pair_normal cells key val :
  Dairitenbosyuu.kv_pair cells = Some (key, val) →
  key ≠ [] ∧ val ≠ [] ∧ normal key ∧ normal val.
Proof.
  unfold Dairitenbosyuu.kv_pair. destruct cells as [|c0 [|c1 cells]]; [done ..|].
  cbv zeta.
  pose proof (normal_textnorm c0) as N0. pose proof (normal_textnorm c1) as N1.
  destruct (Dairitenbosyuu.textnorm c0) as [|x0 k0]; [done|].
  destruct (Dairitenbosyuu.textnorm c1) as [|x1 k1]; [done|].
  intros [= <- <-]. done.
Qed.

Lemma bosyuu_extract_table_kv_clean s : clean (Dairitenbosyuu.extract_table_kv s).
Proof.
  unfold Dairitenbosyuu.extract_table_kv, Dairitenbosyuu.kv_of_tables.
  apply (fold_left_invariant clean); [|apply clean_nil].
  intros d t _ Hd. apply (fold_left_invariant clean); [|done].
  clear. intros d cells _ [Hnd Hall]. unfold Dairitenbosyuu.kv_row.
  destruct (Dairitenbosyuu.kv_pair cells) as [[key val]|] eqn:Hp; [|done].
  apply bosyuu_kv_pair_normal in Hp.
  split; [by apply NoDup_keys_dset | by apply Forall_dset].
Qed.

(** What a clean dict holds under a key. *)
Lemma clean_dget d k v : clean d → dget k d = Some v → v ≠ [] ∧ strip v = v.
Proof.
  intros [_ Hall] Hd%dget_Some_elem_of. rewrite Forall_forall in Hall.
  destruct (Hall _ Hd) as (_ & Hv & _ & Hn). split; [done|].
  by apply normal_strip_fixed.
Qed.

(** X7. The dicts the table parsers of dairitenhonpo and dairitenbosyuu
    return hold no key twice, no empty key and no empty value, and every key
    and value is whitespace-normalized: a row with an empty label or an
    empty value cell never reaches the dict. *)
Theorem X7_harvested_dicts_clean :
  (∀ s, clean (Dairitenhonpo.parse_company_table s))
  ∧ (∀ s, clean (Dairitenbosyuu.extract_table_kv s)).
Proof.
  split; [apply honpo_parse_company_table_clean | apply bosyuu_extract_table_kv_clean].
Qed.

End Harvests.

(** * dairitenhonpo: the layout of a record *)

Section HonpoRecord.
Import Dairitenhonpo.

Lemma honpo_copy_others_keys (table_data rec : dict) :
  keys (copy_others table_data rec)
  = append_new (keys rec) (filter (λ k, k ∉ REQUIRED_COLUMNS) (keys table_data)).
Proof.
  unfold copy_others. revert rec.
  induction table_data as [|[k v] td IH]; intros rec; [done|].
  rewrite keys_cons. cbn [fold_left fst snd]. rewrite IH.
  case_bool_decide as Hk.
  - by rewrite filter_cons_False by (by intros ?).
  - rewrite filter_cons_True by done. by rewrite keys_dset_append_new.
Qed.

Lemma honpo_copy_others_other (table_data rec : dict) k :
  NoDup (keys table_data) → k ∉ REQUIRED_COLUMNS →
  dget k (copy_others table_data rec)
  = match dget k table_data with Some v => Some v | None => dget k rec end.
Proof.
  unfold copy_others. intros Hnd Hk. revert rec.
  induction table_data as [|[k0 v0] td IH]; intros rec; [done|].
  rewrite keys_cons in Hnd. apply NoDup_cons in Hnd as [Hk0 Hnd].
  cbn [fold_left fst snd dget]. destruct (decide (k0 = k)) as [->|Hne].
  - rewrite bool_decide_eq_false_2 by done.
    rewrite fold_left_dget_keep; [apply dget_dset_eq|].
    intros d [k' v'] Hin. cbn [fst snd]. case_bool_decide; [done|].
    apply dget_dset_ne. intros ->. apply Hk0.
    apply list_elem_of_fmap. by exists (k, v').
  - rewrite IH by done. destruct (dget k td); [done|].
    case_bool_decide; [done | by apply dget_dset_ne].
Qed.

(** X8. [extract_record] of dairitenhonpo, from the parsed document on:
    a record is built exactly when the table data has the key "名称".  The
    record then starts with the four required columns, followed by the
    other keys of the table data in their order; its time and URL are those
    of the call, also when the page has rows with these labels; its name
    and address are the values of the table data as they are (the two
    [strip] calls change nothing), the address being empty without the key;
    every other column has the value of the table data. *)
Theorem X8_honpo_record_layout (w : world) (url : str) (s : soup) :
  let table_data := parse_company_table s in
  match record_of_soup w url s with
  | None => COL_NAME ∉ keys table_data
  | Some rec =>
    COL_NAME ∈ keys table_data
    ∧ keys rec
      = REQUIRED_COLUMNS ++ filter (λ k, k ∉ REQUIRED_COLUMNS) (keys table_data)
    ∧ dget COL_TIME rec = Some (now w url)
    ∧ dget COL_URL rec = Some url
    ∧ dget COL_NAME rec = dget COL_NAME table_data
    ∧ dget COL_ADDR rec = Some (dget_default COL_ADDR [] table_data)
    ∧ ∀ k, k ∉ REQUIRED_COLUMNS → dget k rec = dget k table_data
  end.
Proof.
  intros table_data. unfold record_of_soup. cbv zeta. fold table_data.
  pose proof (honpo_parse_company_table_clean s) as Hclean. fold table_data in Hclean.
  assert (Haddr : strip (dget_default COL_ADDR [] table_data)
                  = dget_default COL_ADDR [] table_data).
  { unfold dget_default. destruct (dget COL_ADDR table_data) as [v|] eqn:E; [|done].
    by destruct (clean_dget _ _ _ Hclean E). }
  rewrite Haddr. unfold dget_default at 1 2.
  destruct (dget COL_NAME table_data) as [v|] eqn:E.
  - destruct (clean_dget _ _ _ Hclean E) as [Hv ->].
    destruct v as [|c v]; [done|]. cbn [truthy negb].
    split_and!.
    + apply elem_of_keys_dget. by rewrite E.
    + rewrite honpo_copy_others_keys, append_new_spec. f_equal.
      rewrite list_filter_filter, first_seen_NoDup.
      * apply list_filter_iff. intros k. tauto.
      * apply NoDup_filter, Hclean.
    + rewrite honpo_copy_others_required; [done | decided].
    + rewrite honpo_copy_others_required; [done | decided].
    + rewrite honpo_copy_others_required; [done | decided].
    + rewrite honpo_copy_others_required; [done | decided].
    + intros k Hk. rewrite honpo_copy_others_other by (done || apply Hclean).
      destruct (dget k table_data); [done|].
      apply not_elem_of_keys_dget. exact Hk.
  - change (strip []) with (@nil N). cbn [truthy negb].
    by apply not_elem_of_keys_dget.
Qed.

End HonpoRecord.

(** * dairitenbosyuu: the URL list, the name, the record *)

Section Bosyuu.
Import Dairitenbosyuu.

(** The URLs [read_urls] returns, by the rows they come from. *)
Lemma bosyuu_read_urls_members :
  read_urls Missing = Returned []
  ∧ ∀ rows : csv_rows,
      ∃ urls,
        read_urls (Rows rows) = Returned urls
        ∧ Forall (λ url, strip url = url
                         ∧ (startswith (u "http://") url = true
                            ∨ startswith (u "https://") url = true)) urls
        ∧ ∀ url, url ∈ urls ↔
            (startswith (u "http://") url = true
             ∨ startswith (u "https://") url = true)
            ∧ ∃ c cs, c :: cs ∈ rows ∧ strip c = url.
Proof.
  split; [done|]. intros rows. unfold read_urls. cbn [open_csv].
  set (f := λ row : list str, match row with [] => [] | c :: _ => _ end).
  assert (Hf : ∀ row url, url ∈ f row ↔
                 (startswith (u "http://") url = true
                  ∨ startswith (u "https://") url = true)
                 ∧ ∃ c cs, row = c :: cs ∧ strip c = url).
  { intros [|c cs] url; subst f; cbv beta iota zeta.
    - split; [by intros ?%elem_of_nil | by intros (_ & ? & ? & ? & _)].
    - destruct (truthy (strip c)) eqn:Ht; cbn [andb].
      + destruct (startswith (u "http://") (strip c) || startswith (u "https://") (strip c))
          eqn:Hs.
        * rewrite list_elem_of_singleton. split.
          -- intros ->. split; [by apply orb_true_iff | by exists c, cs].
          -- by intros (_ & c' & cs' & [= <- <-] & <-).
        * split; [by intros ?%elem_of_nil|].
          intros (Hu & c' & cs' & [= <- <-] & <-).
          apply orb_true_iff in Hu. congruence.
      + split; [by intros ?%elem_of_nil|].
        intros (Hu & c' & cs' & [= <- <-] & <-).
        destruct (strip c); [|done]. by destruct Hu. }
  assert (Hflat : ∀ url, url ∈ flat_map f rows ↔
                    (startswith (u "http://") url = true
                     ∨ startswith (u "https://") url = true)
                    ∧ ∃ c cs, c :: cs ∈ rows ∧ strip c = url).
  { intros url. rewrite list_elem_of_In, in_flat_map. split.
    - intros (row & Hin & Hurl). apply list_elem_of_In in Hurl.
      apply Hf in Hurl as (Hu & c & cs & -> & E). split; [done|].
      exists c, cs. by split; [apply list_elem_of_In|].
    - intros (Hu & c & cs & Hin & E). exists (c :: cs).
      split; [by apply list_elem_of_In|]. apply list_elem_of_In, Hf.
      split; [done|]. by exists c, cs. }
  eexists. split; [reflexivity|]. split; [|exact Hflat].
  apply Forall_forall. intros url (Hu & c & cs & _ & <-)%Hflat.
  split; [apply strip_idemp | done].
Qed.

(** X9. [read_urls] of dairitenbosyuu returns nothing for a missing file.
    For a file it returns, in row order, the stripped first cells that
    start with "http://" or "https://" in lower case; every other row,
    header or not, is left out. *)
Theorem X9_bosyuu_read_urls :
  read_urls Missing = Returned []
  ∧ ∀ rows : csv_rows,
      ∃ urls,
        read_urls (Rows rows) = Returned urls
        ∧ urls
          = filter (λ url, startswith (u "http://") url = true
                           ∨ startswith (u "https://") url = true)
              (strip <$> omap head rows)
        ∧ Forall (λ url, strip url = url
                         ∧ (startswith (u "http://") url = true
                            ∨ startswith (u "https://") url = true)) urls
        ∧ ∀ url, url ∈ urls ↔
            (startswith (u "http://") url = true
             ∨ startswith (u "https://") url = true)
            ∧ ∃ c cs, c :: cs ∈ rows ∧ strip c = url.
Proof.
  split; [done|]. intros rows.
  destruct bosyuu_read_urls_members as [_ Hrows].
  destruct (Hrows rows) as (urls & Hret & Hall & Hmem).
  exists urls. split; [done|]. split; [|done].
  rewrite bosyuu_read_urls_order in Hret. by injection Hret as <-.
Qed.

(** The candidates the table gives are put in front, "会社名" first. *)
Lemma bosyuu_insert_kv_names_head kv cs v :
  first_value [u "会社名"; u "企業名"; u "募集企業"] kv = Some v →
  ∃ tl, insert_kv_names kv cs = v :: tl.
Proof.
  unfold insert_kv_names. cbn [first_value fold_left].
  destruct (dget (u "募集企業") kv) as [v1|];
    destruct (dget (u "企業名") kv) as [v2|];
    destruct (dget (u "会社名") kv) as [v3|];
    try destruct (truthy v1); try destruct (truthy v2); try destruct (truthy v3);
    intros [= <-]; eauto.
Qed.

Lemma bosyuu_unique_head cs x uniq :
  ∃ tl, fold_left
          (λ uniq c, if truthy (textnorm c)
                        && negb (bool_decide (textnorm c ∈ uniq))
                     then uniq ++ [textnorm c] else uniq) cs (x :: uniq) = x :: tl.
Proof.
  revert uniq. induction cs as [|c cs IH]; intros uniq; simpl; [eauto|].
  destruct (_ && _); [apply (IH (uniq ++ [_])) | apply IH].
Qed.

Lemma first_value_elem ks kv v :
  first_value ks kv = Some v → ∃ k, k ∈ ks ∧ dget k kv = Some v ∧ v ≠ [].
Proof.
  induction ks as [|k ks IH]; simpl; [done|].
  destruct (dget k kv) as [v'|] eqn:E.
  - destruct v' as [|c v']; simpl.
    + intros (k' & ? & ?)%IH. exists k'. split; [by right | done].
    + intros [= <-]. exists k. split; [by left | done].
  - intros (k' & ? & ?)%IH. exists k'. split; [by right | done].
Qed.

(** X10. In [guess_name_from_headings] of dairitenbosyuu the table comes
    first: when the table has a value under "会社名", or else under
    "企業名", or else under "募集企業", that value heads the list of
    distinct candidates.  The guess is the first candidate of the list that
    names a legal form (株式会社, 有限会社, 合同会社), and the table value
    when no candidate names one; so a table value that names a legal form
    is always the guess, and one that names none gives way to the first
    candidate that does. *)
Theorem X10_bosyuu_table_name_first (s : soup) (v : str) :
  first_value [u "会社名"; u "企業名"; u "募集企業"] (extract_table_kv s) = Some v →
  let unique :=
    unique_of (insert_kv_names (extract_table_kv s)
                               (label_candidates s ++ heading_candidates s)) in
  head unique = Some v
  ∧ guess_name_from_headings s
    = Some (match List.find is_company unique with Some c => c | None => v end)
  ∧ (is_company v = true → guess_name_from_headings s = Some v)
  ∧ (is_company v = false →
     ∀ c, List.find is_company unique = Some c →
          guess_name_from_headings s = Some c ∧ c ≠ v ∧ is_company c = true).
Proof.
  intros Hv unique.
  assert (Hhead : ∃ tl, unique = v :: tl).
  { subst unique.
    destruct (bosyuu_insert_kv_names_head _
                (label_candidates s ++ heading_candidates s) _ Hv) as [tl ->].
    apply first_value_elem in Hv as (k & _ & Hk & Hne).
    assert (Hnorm : textnorm v = v).
    { pose proof (bosyuu_extract_table_kv_clean s) as [_ Hall].
      rewrite Forall_forall in Hall.
      by destruct (Hall _ (dget_Some_elem_of _ _ _ Hk)) as (_ & _ & _ & ?). }
    unfold unique_of. cbn [fold_left]. rewrite Hnorm.
    destruct v as [|x v]; [done|]. cbn [truthy andb].
    rewrite bool_decide_eq_false_2 by apply not_elem_of_nil. cbn [negb app].
    apply bosyuu_unique_head. }
  destruct Hhead as [tl Hunique].
  assert (Hguess : guess_name_from_headings s
                   = Some (match List.find is_company unique with
                           | Some c => c
                           | None => v
                           end)).
  { unfold guess_name_from_headings. cbv zeta. fold unique.
    destruct (List.find is_company unique); [done|]. by rewrite Hunique. }
  split_and!.
  - by rewrite Hunique.
  - exact Hguess.
  - intros Hc. rewrite Hguess, Hunique. cbn [List.find]. by rewrite Hc.
  - intros Hc c Hfind. rewrite Hguess, Hfind.
    apply find_some in Hfind as [_ Hc']. split_and!; [done | | done].
    intros ->. congruence.
Qed.

Lemma X10_bosyuu_table_name_first_witness :
  guess_name_from_headings Samples.bosyuu_page = Some (u "A株式会社")
  ∧ guess_name_from_headings Samples.bosyuu_shop = Some (u "B株式会社のご案内").
Proof.
  split.
  - destruct (X10_bosyuu_table_name_first Samples.bosyuu_page (u "A株式会社"))
      as (_ & _ & Hc & _); [vm_compute; reflexivity|].
    apply Hc. vm_compute. reflexivity.
  - destruct (X10_bosyuu_table_name_first Samples.bosyuu_shop (u "A商店"))
      as (_ & Hg & _); [vm_compute; reflexivity|].
    rewrite Hg. vm_compute. reflexivity.
Defined.

(** ** The record *)

Lemma prefix_keys_dset (l : list str) k v d :
  l `prefix_of` keys d → l `prefix_of` keys (dset k v d).
Proof.
  intros Hp. rewrite keys_dset. case_bool_decide; [done | by apply prefix_app_r].
Qed.

(** The loop storing the values [kv] has under the keys [ks]. *)
Lemma fold_dset_keys_dget (kv : dict) ks out k :
  NoDup ks →
  dget k (fold_left
            (λ out key, match dget key kv with
                        | Some v => if truthy v then dset key v out else out
                        | None => out
                        end) ks out)
  = if bool_decide (k ∈ ks)
    then match dget k kv with
         | Some v => if truthy v then Some v else dget k out
         | None => dget k out
         end
    else dget k out.
Proof.
  intros Hnd. revert out. induction Hnd as [|key ks Hkey Hnd IH]; intros out; [done|].
  cbn [fold_left]. rewrite IH. destruct (decide (k = key)) as [->|Hne].
  - rewrite bool_decide_eq_false_2 by done.
    rewrite bool_decide_eq_true_2 by (by left).
    destruct (dget key kv) as [v|]; [|done].
    destruct (truthy v); [apply dget_dset_eq | done].
  - assert (dget k match dget key kv with
                   | Some v => if truthy v then dset key v out else out
                   | None => out
                   end = dget k out) as ->.
    { destruct (dget key kv) as [v|]; [|done].
      destruct (truthy v); [by apply dget_dset_ne | done]. }
    case_bool_decide as H1; case_bool_decide as H2; try done.
    + exfalso. apply H2. by right.
    + exfalso. apply elem_of_cons in H2 as [H2|H2]; done.
Qed.

(** The loop copying the truthy entries of a dict. *)
Lemma fold_dset_entries_dget (extras rec : dict) k :
  NoDup (keys extras) →
  dget k (fold_left
            (λ rec kv, if truthy (snd kv) then dset (fst kv) (snd kv) rec else rec)
            extras rec)
  = match dget k extras with
    | Some v => if truthy v then Some v else dget k rec
    | None => dget k rec
    end.
Proof.
  intros Hnd. revert rec. induction extras as [|[k0 v0] extras IH]; intros rec; [done|].
  rewrite keys_cons in Hnd. apply NoDup_cons in Hnd as [Hk0 Hnd].
  cbn [fold_left fst snd dget]. destruct (decide (k0 = k)) as [->|Hne].
  - rewrite IH by done.
    assert (dget k extras = None) as -> by (by apply not_elem_of_keys_dget).
    destruct (truthy v0); [apply dget_dset_eq | done].
  - rewrite IH by done. destruct (dget k extras) as [v|].
    + destruct (truthy v); [done|].
      destruct (truthy v0); [by apply dget_dset_ne | done].
    + destruct (truthy v0); [by apply dget_dset_ne | done].
Qed.

Lemma bosyuu_extras_NoDup P s kv : NoDup (keys (extract_extras P s kv)).
Proof.
  unfold extract_extras. cbv zeta.
  set (out0 := fold_left _ EXTRA_COLUMNS []).
  assert (NoDup (keys out0)) as H0.
  { apply (fold_left_invariant (λ d, NoDup (keys d))); [|apply NoDup_nil_2].
    intros d key _ Hd. destruct (dget key kv) as [v|]; [|done].
    destruct (truthy v); [by apply NoDup_keys_dset | done]. }
  set (out1 := if has_key COL_PHONE out0 then out0 else _).
  assert (NoDup (keys out1)) as H1.
  { subst out1. destruct (has_key COL_PHONE out0); [done|].
    destruct (PHONE_PAT P _); [by apply NoDup_keys_dset | done]. }
  destruct (has_key COL_MAIL out1); [done|].
  destruct (EMAIL_PAT P _); [by apply NoDup_keys_dset | done].
Qed.

(** What [extract_extras] holds under a key that the table has. *)
Lemma bosyuu_extras_dget P s kv k :
  clean kv → k ∈ EXTRA_COLUMNS →
  (∀ v, dget k kv = Some v → dget k (extract_extras P s kv) = Some v)
  ∧ (k ≠ COL_PHONE → k ≠ COL_MAIL → dget k (extract_extras P s kv) = dget k kv).
Proof.
  intros Hclean Hk. unfold extract_extras. cbv zeta.
  set (out0 := fold_left _ EXTRA_COLUMNS []).
  assert (dget k out0 = dget k kv) as H0.
  { subst out0. rewrite fold_dset_keys_dget by decided.
    rewrite bool_decide_eq_true_2 by done.
    destruct (dget k kv) as [v|] eqn:E; [|done].
    destruct (clean_dget _ _ _ Hclean E) as [Hv _]. by destruct v. }
  set (out1 := if has_key COL_PHONE out0 then out0 else _).
  assert ((∀ v, dget k kv = Some v → dget k out1 = Some v)
          ∧ (k ≠ COL_PHONE → dget k out1 = dget k kv)) as [H1 H1'].
  { subst out1. destruct (has_key COL_PHONE out0) eqn:Hh.
    - split; [intros v Hv; by rewrite H0 | by intros _].
    - destruct (PHONE_PAT P _) as [g|]; [|split; [intros v Hv; by rewrite H0 | done]].
      split.
      + intros v Hv. rewrite <- H0 in Hv. by apply dget_dset_fresh.
      + intros Hne. rewrite dget_dset_ne by done. done. }
  destruct (has_key COL_MAIL out1) eqn:Hh.
  - split; [done | by intros ? _; apply H1'].
  - destruct (EMAIL_PAT P _) as [g|]; [|split; [done | by intros ? _; apply H1']].
    split.
    + intros v Hv. apply dget_dset_fresh; [by apply H1 | done].
    + intros Hp Hm. rewrite dget_dset_ne by done. by apply H1'.
Qed.

(** The two loops of [parse_page] leave alone what is not an extra column. *)
Lemma bosyuu_build_record_keep w url s kv name k :
  k ∉ EXTRA_COLUMNS →
  dget k (build_record w url s kv name)
  = dget k [ (COL_TIME, now w url); (COL_URL, url); (COL_NAME, name);
             (COL_ADDR, match extract_address (pats w) s kv with
                        | Some a => if truthy a then a else []
                        | None => []
                        end) ].
Proof.
  intros Hk. unfold build_record. cbv zeta.
  rewrite fold_left_dget_keep.
  2:{ intros d k' Hk'. destruct (dget k' kv) as [v|]; [|done].
      destruct (truthy v); [|done]. apply dget_dset_ne. intros ->. apply Hk.
      apply elem_of_cons in Hk' as [->|Hk']; [decided|].
      apply list_elem_of_singleton in Hk' as ->. decided. }
  apply fold_left_dget_keep.
  intros d [k' v] Hin. cbn [fst snd]. destruct (truthy v); [|done].
  apply dget_dset_ne. intros ->. apply Hk.
  apply (bosyuu_extras_keys (pats w) s kv).
  apply list_elem_of_fmap. by exists (k, v).
Qed.

Lemma bosyuu_build_record_extra w url s kv name k :
  clean kv → k ∈ EXTRA_COLUMNS →
  (∀ v, dget k kv = Some v → dget k (build_record w url s kv name) = Some v)
  ∧ (k ≠ COL_PHONE → k ≠ COL_MAIL →
     dget k (build_record w url s kv name) = dget k kv).
Proof.
  intros Hclean Hk. unfold build_record. cbv zeta.
  set (rec0 := [ (COL_TIME, now w url); _; _; _ ]).
  assert (dget k rec0 = None) as Hrec0.
  { apply not_elem_of_keys_dget. intros Hin. revert k Hk Hin.
    apply (Forall_forall (λ k, k ∈ keys rec0 → False) EXTRA_COLUMNS).
    subst rec0. repeat constructor; intros Hin;
      repeat (apply elem_of_cons in Hin as [Hin|Hin]; [by vm_compute in Hin|]);
      by apply elem_of_nil in Hin. }
  destruct (bosyuu_extras_dget (pats w) s kv k Hclean Hk) as [He He'].
  set (extras := extract_extras (pats w) s kv) in *.
  assert (Hfold : ∀ rec1,
            (∀ v, dget k kv = Some v → dget k rec1 = Some v) →
            (∀ v, dget k kv = Some v →
               dget k (fold_left
                         (λ rec k', match dget k' kv with
                                    | Some v => if truthy v then dset k' v rec else rec
                                    | None => rec
                                    end) [u "募集地域"; u "初期費用"] rec1) = Some v)).
  { intros rec1 H1 v Hv. rewrite fold_dset_keys_dget by decided.
    rewrite Hv. destruct (clean_dget _ _ _ Hclean Hv) as [Hne _].
    destruct v; [done|]. cbn [truthy]. case_bool_decide; [done | by apply H1]. }
  set (rec1 := fold_left _ extras rec0).
  assert (H1 : dget k rec1
               = match dget k extras with
                 | Some v => if truthy v then Some v else None
                 | None => None
                 end).
  { subst rec1. rewrite fold_dset_entries_dget by apply bosyuu_extras_NoDup.
    rewrite Hrec0. by destruct (dget k extras) as [v|]; [destruct (truthy v)|]. }
  split.
  - apply Hfold. intros v Hv. rewrite H1, (He v Hv).
    destruct (clean_dget _ _ _ Hclean Hv) as [Hne _]. by destruct v.
  - intros Hp Hm. rewrite fold_dset_keys_dget by decided.
    rewrite H1, (He' Hp Hm).
    destruct (dget k kv) as [v|] eqn:Hv.
    + destruct (clean_dget _ _ _ Hclean Hv) as [Hne _].
      destruct v; [done|]. cbn [truthy]. by case_bool_decide.
    + by case_bool_decide.
Qed.

Lemma bosyuu_build_record_keys w url s kv name :
  REQUIRED_COLUMNS `prefix_of` keys (build_record w url s kv name)
  ∧ ∀ k, k ∈ keys (build_record w url s kv name) →
         k ∈ REQUIRED_COLUMNS ++ EXTRA_COLUMNS.
Proof.
  unfold build_record. cbv zeta.
  apply (fold_left_invariant
           (λ d, REQUIRED_COLUMNS `prefix_of` keys d
                 ∧ ∀ k, k ∈ keys d → k ∈ REQUIRED_COLUMNS ++ EXTRA_COLUMNS)).
  { intros d k' Hk' [Hp Hd]. destruct (dget k' kv) as [v|]; [|done].
    destruct (truthy v); [|done]. split; [by apply prefix_keys_dset|].
    intros k [->|Hk]%elem_of_keys_dset; [|by apply Hd].
    apply elem_of_cons in Hk' as [->|Hk']; [decided|].
    apply list_elem_of_singleton in Hk' as ->. decided. }
  apply (fold_left_invariant
           (λ d, REQUIRED_COLUMNS `prefix_of` keys d
                 ∧ ∀ k, k ∈ keys d → k ∈ REQUIRED_COLUMNS ++ EXTRA_COLUMNS)).
  { intros d [k' v] Hin [Hp Hd]. cbn [fst snd]. destruct (truthy v); [|done].
    split; [by apply prefix_keys_dset|].
    intros k [->|Hk]%elem_of_keys_dset; [|by apply Hd].
    apply elem_of_app. right. apply (bosyuu_extras_keys (pats w) s kv).
    apply list_elem_of_fmap. by exists (k', v). }
  split; [done|]. intros k Hk. apply elem_of_app. by left.
Qed.

Lemma bosyuu_emitted_built w url rec :
  rec ∈ emitted w url →
  ∃ s name, page_record w url s = Some rec
            ∧ rec = build_record w url s (extract_table_kv s) name.
Proof.
  unfold emitted, collect_step.
  destruct (process_url w url) as [[rec'|]|] eqn:Hp; [|by intros ?%elem_of_nil ..].
  destruct (_ && _); [|by intros ?%elem_of_nil].
  intros ->%list_elem_of_singleton.
  apply bosyuu_process_url_some in Hp as (html & s & _ & Hrec).
  exists s. revert Hrec. unfold page_record. cbv zeta.
  destruct (guess_name_from_headings s) as [name|]; [|done].
  destruct (negb (truthy name)); [done|]. intros [= <-]. eauto.
Qed.

(** X11. The table dairitenbosyuu writes has a closed set of columns:
    every collected record starts with the four required columns and has no
    key outside the required and the ten extra columns, whatever labels the
    pages hold; so the schema of a run has at most fourteen columns, all
    from that list. *)
Theorem X11_bosyuu_fixed_columns (w : world) (done : list str) :
  let records := collect w done in
  let cols := unify_columns records in
  Forall (λ rec, take 4 (keys rec) = REQUIRED_COLUMNS
                 ∧ ∀ k, k ∈ keys rec → k ∈ REQUIRED_COLUMNS ++ EXTRA_COLUMNS)
         records
  ∧ (∀ k, k ∈ cols → k ∈ REQUIRED_COLUMNS ++ EXTRA_COLUMNS)
  ∧ length cols ≤ 14.
Proof.
  intros records cols.
  assert (Hrec : Forall (λ rec, take 4 (keys rec) = REQUIRED_COLUMNS
                   ∧ ∀ k, k ∈ keys rec → k ∈ REQUIRED_COLUMNS ++ EXTRA_COLUMNS)
                   records).
  { subst records. rewrite bosyuu_collect_spec. apply Forall_forall.
    intros rec Hin. apply list_elem_of_In, in_flat_map in Hin as (url & _ & Hin).
    apply list_elem_of_In, bosyuu_emitted_built in Hin as (s & name & _ & ->).
    destruct (bosyuu_build_record_keys w url s (extract_table_kv s) name)
      as [[tl ->] Hk].
    split; [done | exact Hk]. }
  assert (Hcols : ∀ k, k ∈ cols → k ∈ REQUIRED_COLUMNS ++ EXTRA_COLUMNS).
  { subst cols. rewrite bosyuu_unify_columns_spec. intros k Hk.
    apply elem_of_app in Hk as [Hk|Hk]; [apply elem_of_app; by left|].
    apply elem_of_union_first_seen in Hk as (_ & rec & Hin & Hk).
    rewrite Forall_forall in Hrec. by apply (Hrec rec Hin). }
  split_and!; [done | done |].
  change 14 with (length (REQUIRED_COLUMNS ++ EXTRA_COLUMNS)).
  apply submseteq_length, NoDup_submseteq; [|done].
  subst cols. rewrite bosyuu_unify_columns_spec. apply schema_NoDup. decided.
Qed.

(** X12. A record of dairitenbosyuu takes its optional columns from the
    table and from nowhere else: the address is the value the table has
    under "所在地", or else under "住所"; every extra column other than
    the phone and the mail column has exactly the value of the table under
    the same label, and is absent when the table lacks the label; the phone
    and the mail column have the value of the table when it has one. *)
Theorem X12_bosyuu_record_from_table (w : world) (url : str) (s : soup) (rec : dict) :
  page_record w url s = Some rec →
  let kv := extract_table_kv s in
  (∀ v, first_value [u "所在地"; u "住所"] kv = Some v → dget COL_ADDR rec = Some v)
  ∧ (∀ k, k ∈ EXTRA_COLUMNS → k ≠ COL_PHONE → k ≠ COL_MAIL →
          dget k rec = dget k kv)
  ∧ (∀ k v, k ∈ [COL_PHONE; COL_MAIL] → dget k kv = Some v → dget k rec = Some v).
Proof.
  unfold page_record. cbv zeta.
  destruct (guess_name_from_headings s) as [name|]; [|done].
  destruct (negb (truthy name)); [done|]. intros [= <-].
  pose proof (bosyuu_extract_table_kv_clean s) as Hclean.
  split_and!.
  - intros v Hv. rewrite bosyuu_build_record_keep by decided.
    unfold extract_address. rewrite Hv.
    apply first_value_elem in Hv as (_ & _ & _ & Hne).
    destruct v; [done|]. reflexivity.
  - intros k Hk Hp Hm.
    by apply (bosyuu_build_record_extra w url s _ name k Hclean Hk).
  - intros k v Hk Hv.
    apply (bosyuu_build_record_extra w url s _ name k Hclean); [|done].
    apply elem_of_cons in Hk as [->|Hk]; [decided|].
    apply list_elem_of_singleton in Hk as ->. decided.
Qed.

Lemma X12_bosyuu_record_from_table_witness :
  ∃ rec, page_record Samples.bosyuu_world Samples.url_a Samples.bosyuu_page = Some rec
         ∧ dget COL_ADDR rec = Some (u "東京都千代田区1-1")
         ∧ dget (u "所在地") rec = Some (u "東京都千代田区1-1")
         ∧ dget (u "代表者") rec = None.
Proof.
  destruct (page_record Samples.bosyuu_world Samples.url_a Samples.bosyuu_page)
    as [rec|] eqn:Hrec; [|by vm_compute in Hrec].
  exists rec. split; [done|].
  destruct (X12_bosyuu_record_from_table _ _ _ _ Hrec) as (Haddr & Hextra & _).
  split_and!.
  - apply Haddr. vm_compute. reflexivity.
  - rewrite Hextra; [vm_compute; reflexivity | decided | str_neq | str_neq].
  - rewrite Hextra; [vm_compute; reflexivity | decided | str_neq | str_neq].
Defined.

End Bosyuu.

(** * franchise_no_madoguti: labels, rows, the written table *)

Section FranchiseKeys.
Import Franchise.

Lemma label_to_key_in_cases pats lab :
  label_to_key_in pats lab ∈ pats.*2
  ∨ (label_to_key_in pats lab = lab
     ∧ Forall (λ p, search_ci p.1 lab = false) pats).
Proof.
  induction pats as [|[alts key] pats IH]; simpl; [right; by split|].
  destruct (search_ci alts lab) eqn:Hs; [left; by left|].
  destruct IH as [IH|[IH1 IH2]]; [left; by right|].
  right. split; [done|]. by constructor.
Qed.

Lemma normalize_space_idemp s :
  normalize_space (normalize_space s) = normalize_space s.
Proof. apply textnorm_idemp. Qed.

(** The canonical keys are their own labels, and none of them is the column
    of the URL of the row. *)
Lemma franchise_canonical_keys :
  Forall (λ k, label_to_key k = k ∧ k ≠ COL_URL) LABEL_PATTERNS.*2.
Proof. repeat constructor; try str_neq; vm_compute; reflexivity. Qed.

Lemma label_to_key_idemp label : label_to_key (label_to_key label) = label_to_key label.
Proof.
  unfold label_to_key at 2 3.
  destruct (label_to_key_in_cases LABEL_PATTERNS (normalize_space label))
    as [Hin|[Heq Hall]].
  - pose proof franchise_canonical_keys as Hc. rewrite Forall_forall in Hc.
    by apply Hc.
  - rewrite Heq. unfold label_to_key. by rewrite normalize_space_idemp.
Qed.

Lemma label_to_key_not_url label : label_to_key label ≠ COL_URL.
Proof.
  unfold label_to_key.
  destruct (label_to_key_in_cases LABEL_PATTERNS (normalize_space label))
    as [Hin|[Heq Hall]].
  - pose proof franchise_canonical_keys as Hc. rewrite Forall_forall in Hc.
    by apply Hc.
  - rewrite Heq. intros E. rewrite E in Hall. rewrite Forall_forall in Hall.
    assert (search_ci [u "URL"; u "公式サイト"; u "サイト"; u "ホームページ"] COL_URL
            = false) as Hs.
    { apply (Hall ([u "URL"; u "公式サイト"; u "サイト"; u "ホームページ"], u "URL")).
      decided. }
    by vm_compute in Hs.
Qed.

(** X13. [label_to_key] of franchise_no_madoguti maps a label to one of
    the nine canonical keys or to the normalized label itself; mapping a
    key again gives the same key; no label is mapped to "取得URL"; and the
    last entry of [LABEL_PATTERNS], "所在地", never decides, every label it
    matches being taken by the entry of "住所|所在地" before it. *)
Theorem X13_label_to_key_closed (label : str) :
  (label_to_key label ∈ LABEL_PATTERNS.*2
   ∨ label_to_key label = normalize_space label)
  ∧ label_to_key (label_to_key label) = label_to_key label
  ∧ label_to_key label ≠ COL_URL
  ∧ label_to_key label
    = label_to_key_in (take 9 LABEL_PATTERNS) (normalize_space label).
Proof.
  split_and!.
  - unfold label_to_key.
    destruct (label_to_key_in_cases LABEL_PATTERNS (normalize_space label))
      as [Hin|[Heq _]]; [by left | by right].
  - apply label_to_key_idemp.
  - apply label_to_key_not_url.
  - unfold label_to_key. set (lab := normalize_space label).
    unfold LABEL_PATTERNS. cbn [take label_to_key_in].
    repeat match goal with
           | |- context [search_ci ?alts lab] =>
             let H := fresh "Hs" in
             destruct (search_ci alts lab) eqn:H; [reflexivity|]
           end.
    unfold search_ci in *. cbn [existsb] in *.
    apply orb_false_iff in Hs0 as [_ Hs0]. by rewrite Hs0.
Qed.

End FranchiseKeys.


Section FranchiseRows.
Import Franchise.

(** What the extraction keeps of a dict: no key twice, no key "取得URL",
    no empty value. *)
Lemma info_dset (d : dict) k v :
  k ≠ COL_URL → v ≠ [] →
  NoDup (keys d) ∧ Forall (λ kv, kv.1 ≠ COL_URL ∧ kv.2 ≠ []) d →
  NoDup (keys (dset k v d)) ∧ Forall (λ kv, kv.1 ≠ COL_URL ∧ kv.2 ≠ []) (dset k v d).
Proof.
  intros Hk Hv [Hnd Hall]. split; [by apply NoDup_keys_dset|].
  by apply Forall_dset.
Qed.

Lemma info_setdefault (d : dict) k v :
  k ≠ COL_URL → v ≠ [] →
  NoDup (keys d) ∧ Forall (λ kv, kv.1 ≠ COL_URL ∧ kv.2 ≠ []) d →
  NoDup (keys (setdefault k v d))
  ∧ Forall (λ kv, kv.1 ≠ COL_URL ∧ kv.2 ≠ []) (setdefault k v d).
Proof.
  intros Hk Hv Hd. unfold setdefault.
  destruct (has_key k d); [done | by apply info_dset].
Qed.

Lemma truthy_ne (v : str) : truthy v = true → v ≠ [].
Proof. by destruct v. Qed.

Lemma join_cons_ne sep (w : str) ws : w ≠ [] → join sep (w :: ws) ≠ [].
Proof. destruct w; [done|]. by destruct ws. Qed.

Lemma extract_company_info_from_section_info sec :
  NoDup (keys (extract_company_info_from_section sec))
  ∧ Forall (λ kv, kv.1 ≠ COL_URL ∧ kv.2 ≠ [])
           (extract_company_info_from_section sec).
Proof.
  unfold extract_company_info_from_section.
  set (I := λ d : dict, NoDup (keys d) ∧ Forall (λ kv, kv.1 ≠ COL_URL ∧ kv.2 ≠ []) d).
  assert (I []) as H0 by (split; [apply NoDup_nil_2 | constructor]).
  assert (I (stage_dl sec [])) as H1.
  { unfold stage_dl. apply (fold_left_invariant I); [|done].
    intros d p _ Hd. cbv zeta.
    destruct (truthy (extract_text p.2)) eqn:Ht; [|done].
    apply info_dset; [apply label_to_key_not_url | by apply truthy_ne | done]. }
  assert (I (stage_table sec (stage_dl sec []))) as H2.
  { unfold stage_table. apply (fold_left_invariant I); [|done].
    intros d [[th|] [td|]] _ Hd; try done. cbv zeta.
    destruct (truthy (extract_text (Some td))) eqn:Ht; [|done].
    apply info_dset; [apply label_to_key_not_url | by apply truthy_ne | done]. }
  assert (I (stage_text sec (stage_table sec (stage_dl sec [])))) as H3.
  { unfold stage_text. apply (fold_left_invariant I); [|done].
    intros d p _ Hd. cbv zeta. destruct (truthy p.2) eqn:Ht; [|done].
    apply info_setdefault; [apply label_to_key_not_url | by apply truthy_ne | done]. }
  assert (I (stage_strong sec (stage_text sec (stage_table sec (stage_dl sec [])))))
    as H4.
  { unfold stage_strong. apply (fold_left_invariant I); [|done].
    intros d p _ Hd. cbv zeta. destruct (truthy (next_text_of p.2)) eqn:Ht; [|done].
    destruct (_ && _); [|done].
    apply info_setdefault; [apply label_to_key_not_url | by apply truthy_ne | done]. }
  unfold stage_paragraphs. destruct (has_key COL_BUSINESS _); [done|]. cbv zeta.
  destruct (filter _ _) as [|p ps] eqn:Hps; [done|].
  apply info_dset; [str_neq | | done].
  cbn [take]. apply join_cons_ne.
  assert (p ∈ p :: ps) as Hin by (by left). rewrite <- Hps in Hin.
  apply list_elem_of_filter in Hin as [[Hp _] _]. by apply truthy_ne.
Qed.

Lemma merge_sections_info secs :
  NoDup (keys (merge_sections secs))
  ∧ Forall (λ kv, kv.1 ≠ COL_URL ∧ kv.2 ≠ []) (merge_sections secs).
Proof.
  unfold merge_sections.
  set (I := λ d : dict, NoDup (keys d) ∧ Forall (λ kv, kv.1 ≠ COL_URL ∧ kv.2 ≠ []) d).
  apply (fold_left_invariant I); [|split; [apply NoDup_nil_2 | constructor]].
  intros m sec _ Hm. unfold merge_section.
  apply (fold_left_invariant I); [|done].
  intros d [k v] Hin Hd. cbn [fst snd].
  destruct (negb (has_key k d) && truthy v) eqn:Hc; [|done].
  apply andb_true_iff in Hc as [_ Hv].
  destruct (extract_company_info_from_section_info sec) as [_ Hall].
  rewrite Forall_forall in Hall. destruct (Hall _ Hin) as [Hk _].
  apply info_dset; [done | by apply truthy_ne | done].
Qed.

Lemma first_site_truthy ls href : first_site ls = Some href → href ≠ [].
Proof.
  induction ls as [|[h txt] ls IH]; cbn [first_site]; [done|].
  destruct (startswith (u "http") h) eqn:Hs; [|done].
  destruct (_ || _); [|done]. intros [= <-]. by destruct h.
Qed.

(** A row: the required columns first, the URL of the call, and no empty
    value in an optional column. *)
Lemma row_dset (url : str) (row : dict) k v :
  k ≠ COL_URL → (k ∉ REQUIRED_COLUMNS → v ≠ []) →
  REQUIRED_COLUMNS `prefix_of` keys row
  ∧ dget COL_URL row = Some url
  ∧ (∀ k v, k ∉ REQUIRED_COLUMNS → dget k row = Some v → v ≠ []) →
  REQUIRED_COLUMNS `prefix_of` keys (dset k v row)
  ∧ dget COL_URL (dset k v row) = Some url
  ∧ (∀ k' v', k' ∉ REQUIRED_COLUMNS → dget k' (dset k v row) = Some v' → v' ≠ []).
Proof.
  intros Hk Hv (Hp & Hu & Hall). split_and!.
  - by apply prefix_keys_dset.
  - by rewrite dget_dset_ne.
  - intros k' v' Hk'. destruct (decide (k = k')) as [->|Hne].
    + rewrite dget_dset_eq. intros [= <-]. by apply Hv.
    + rewrite dget_dset_ne by done. by apply Hall.
Qed.

Lemma fill_base_row (url time : str) (s : soup) :
  let row := fill_base [ (COL_TIME, time); (COL_URL, url);
                         (COL_NAME, []); (COL_ADDR, []) ] s in
  REQUIRED_COLUMNS `prefix_of` keys row
  ∧ dget COL_URL row = Some url
  ∧ (∀ k v, k ∉ REQUIRED_COLUMNS → dget k row = Some v → v ≠ []).
Proof.
  unfold fill_base. cbv zeta.
  set (R := λ row : dict,
         REQUIRED_COLUMNS `prefix_of` keys row
         ∧ dget COL_URL row = Some url
         ∧ (∀ k v, k ∉ REQUIRED_COLUMNS → dget k row = Some v → v ≠ [])).
  set (base := [ (COL_TIME, time); _; _; _ ]).
  assert (R base) as H0.
  { split_and!; [done | done |]. intros k v Hk Hd. exfalso. apply Hk.
    apply (elem_of_keys_dget k base). by rewrite Hd. }
  set (b1 := dset COL_ADDR _ (dset COL_NAME _ base)).
  assert (R b1) as H1.
  { subst b1. apply row_dset; [str_neq | by intros []; decided |].
    apply row_dset; [str_neq | by intros []; decided | done]. }
  set (b2 := fold_left _ (merge_sections (company_sections s)) b1).
  assert (R b2) as H2.
  { subst b2. apply (fold_left_invariant R); [|done].
    intros b [k v] Hin Hb. cbn [fst snd]. case_bool_decide; [done|].
    destruct (merge_sections_info (company_sections s)) as [_ Hall].
    rewrite Forall_forall in Hall. destruct (Hall _ Hin) as [Hk Hv].
    by apply row_dset. }
  destruct (has_key COL_SITE b2); [done|].
  destruct (first_site (links s)) as [href|] eqn:Hsite; [|done].
  apply row_dset; [str_neq | | done]. intros _. by eapply first_site_truthy.
Qed.

Lemma scrape_one_row w url row :
  scrape_one w url = Returned row →
  REQUIRED_COLUMNS `prefix_of` keys row
  ∧ dget COL_URL row = Some url
  ∧ (∀ k v, k ∉ REQUIRED_COLUMNS → dget k row = Some v → v ≠ []).
Proof.
  unfold scrape_one. destruct (fetch (net w url)) as [[html|]|]; [| |done].
  - destruct (parser w html) as [s|]; [|done]. intros [= <-]. apply fill_base_row.
  - intros [= <-]. split_and!; [done | done |].
    intros k v Hk Hd. exfalso. apply Hk.
    eapply (elem_of_keys_dget k [ (COL_TIME, _); (COL_URL, _); (COL_NAME, _);
                                  (COL_ADDR, _) ]).
    by rewrite Hd.
Qed.

(** X14. A row [scrape_one] of franchise_no_madoguti returns starts with
    the four required columns; its "取得URL" is the URL of the call,
    whatever labels the page holds, since no label is mapped to that key;
    and an optional column that is present never has an empty value. *)
Theorem X14_franchise_row_shape (w : world) (url : str) (row : dict) :
  scrape_one w url = Returned row →
  take 4 (keys row) = REQUIRED_COLUMNS
  ∧ dget COL_URL row = Some url
  ∧ ∀ k v, k ∉ REQUIRED_COLUMNS → dget k row = Some v → v ≠ [].
Proof.
  intros ([tl Hp] & Hu & Hall)%scrape_one_row.
  split_and!; [by rewrite Hp | done | done].
Qed.

Lemma X14_franchise_row_shape_witness :
  ∃ row, scrape_one Samples.franchise_up Samples.url_a = Returned row
         ∧ take 4 (keys row) = REQUIRED_COLUMNS
         ∧ dget COL_URL row = Some Samples.url_a
         ∧ dget (u "URL") row = Some (u "http://a.example/").
Proof.
  destruct (scrape_one Samples.franchise_up Samples.url_a) as [row|e] eqn:Hrow;
    [|by vm_compute in Hrow].
  exists row. split; [done|].
  destruct (X14_franchise_row_shape _ _ _ Hrow) as (Hk & Hu & _).
  split_and!; [done | done |].
  vm_compute in Hrow. injection Hrow as <-. vm_compute. reflexivity.
Defined.

Lemma emitted_url w url :
  ∃ row, emitted w url = [row] ∧ dget COL_URL row = Some url.
Proof.
  unfold emitted, collect_step.
  destruct (scrape_one w url) as [row|e] eqn:Hrow.
  - exists row. split; [done|]. by apply scrape_one_row in Hrow as (_ & ? & _).
  - eexists. split; [reflexivity | done].
Qed.

Lemma franchise_rows_second_cell w (cols : list str) (urls : list str) :
  cols !! 1 = Some COL_URL →
  (λ row, row !! 1) <$> map (frame_row cols) (flat_map (emitted w) urls)
  = Some <$> urls.
Proof.
  intros Hc. induction urls as [|url rest IH]; [done|].
  cbn [flat_map]. destruct (emitted_url w url) as (row & -> & Hu).
  cbn [app map fmap list_fmap]. f_equal; [|exact IH].
  unfold frame_row. rewrite (writerow_lookup _ _ _ _ Hc).
  unfold dget_default. by rewrite Hu.
Qed.

(** X15. When [main] of franchise_no_madoguti writes its table, the second
    column is "取得URL" and the table has exactly one row per submitted
    URL, in the order in which the tasks complete, with that URL in the
    second column: no URL is left out and none is written twice, whether
    its page was fetched, failed or raised. *)
Theorem X15_franchise_one_row_per_url (w : world) cols rows :
  written (main w) = Some (cols, rows) →
  cols !! 1 = Some COL_URL
  ∧ (λ row, row !! 1) <$> rows = Some <$> as_completed w (submitted (main w)).
Proof.
  unfold main. destruct (load_urls_from_csv (input_csv w)) as [[|url0 urls]|];
    [done | | done].
  cbn [written submitted]. unfold to_dataframe. cbv zeta. intros [= <- <-].
  assert (Hc : ordered_columns (collect w (as_completed w (url0 :: urls))) !! 1
               = Some COL_URL).
  { by rewrite franchise_ordered_columns_spec. }
  split; [done|]. rewrite franchise_collect_spec in *.
  by apply franchise_rows_second_cell.
Qed.

Lemma X15_franchise_one_row_per_url_witness :
  ∃ cols rows,
    written (main Samples.franchise_up) = Some (cols, rows)
    ∧ (λ row, row !! 1) <$> rows = [Some Samples.url_a].
Proof.
  destruct (written (main Samples.franchise_up)) as [[cols rows]|] eqn:Hw;
    [|by vm_compute in Hw].
  exists cols, rows. split; [done|].
  destruct (X15_franchise_one_row_per_url _ _ _ Hw) as [_ ->].
  vm_compute. reflexivity.
Defined.

End FranchiseRows.


Section FranchiseText.
Import Franchise.

Lemma ws_dots_truthy anchored s v : ws_dots anchored s = Some v → v ≠ [].
Proof.
  induction s as [|c s IH]; [done|]. cbn [ws_dots]. cbv zeta.
  assert (Hhere : (if truthy (dots (c :: s))
                      && (negb anchored || at_end (drop (length (dots (c :: s))) (c :: s)))
                   then Some (dots (c :: s)) else None) = Some v → v ≠ []).
  { destruct (truthy (dots (c :: s))) eqn:Ht; [|done].
    destruct (_ || _); [|done]. intros [= <-]. by apply truthy_ne. }
  destruct (isspace c); [|exact Hhere].
  destruct (ws_dots anchored s) as [v'|]; [|exact Hhere].
  intros [= <-]. by apply IH.
Qed.

Lemma colon_rest_truthy s v : colon_rest s = Some v → v ≠ [].
Proof.
  unfold colon_rest. destruct s as [|c r]; [done|].
  destruct (is_colon c); [apply ws_dots_truthy | done].
Qed.

Lemma dash_rest_truthy s v : dash_rest s = Some v → v ≠ [].
Proof.
  unfold dash_rest. destruct (lstrip s) as [|c r]; [done|].
  destruct (c =? 45)%N; [apply ws_dots_truthy | done].
Qed.

(** The lazy label takes at least one code point and at most [n]. *)
Lemma lazy_label_bounds (rest : str → option str) n pre s label v :
  lazy_label rest n pre s = Some (label, v) →
  length pre < length label ≤ length pre + n ∧ ∃ r, rest r = Some v.
Proof.
  revert pre s. induction n as [|n IH]; intros pre s; [by destruct s|].
  destruct s as [|c s]; [done|]. cbn [lazy_label].
  destruct (c =? 10)%N; [done|].
  destruct (rest s) as [v'|] eqn:Hr.
  - intros [= <- <-]. simpl. rewrite ?length_app, ?length_rev. simpl.
    split; [lia | eauto].
  - intros [Hlen Hrest]%IH. cbn [length] in Hlen. split; [lia | done].
Qed.

Lemma match_line_bounds line label v :
  match_line line = Some (label, v) → 1 ≤ length label ≤ 30 ∧ v ≠ [].
Proof.
  unfold match_line.
  destruct (lazy_label colon_rest 30 [] line) as [[l' v']|] eqn:Hc.
  - intros [= <- <-]. apply lazy_label_bounds in Hc as [Hlen [r Hr]].
    cbn [length] in Hlen. split; [lia | by eapply colon_rest_truthy].
  - intros [Hlen [r Hr]]%lazy_label_bounds.
    cbn [length] in Hlen. split; [lia | by eapply dash_rest_truthy].
Qed.

Lemma is_line_break_space c :
  is_line_break c = true → isspace c = true ∧ c ≠ 0x20%N.
Proof.
  unfold is_line_break, isspace.
  rewrite !orb_true_iff, !andb_true_iff, !N.leb_le, !N.eqb_eq. lia.
Qed.

Lemma splitlines_aux_one_line cur s :
  Forall (λ c, is_line_break c = false) s → length (splitlines_aux cur s) ≤ 1.
Proof.
  revert cur. induction s as [|c s IH]; intros cur Hs.
  - destruct cur; simpl; lia.
  - inversion Hs as [|? ? Hc Hs']; subst. cbn [splitlines_aux]. rewrite Hc.
    by apply IH.
Qed.

Lemma normalize_space_one_line raw :
  length (splitlines (normalize_space raw)) ≤ 1.
Proof.
  apply splitlines_aux_one_line, Forall_forall. intros c Hc.
  destruct (is_line_break c) eqn:Hb; [|done].
  apply is_line_break_space in Hb as [Hsp Hne].
  unfold normalize_space in Hc. rewrite strip_sub_ws_words in Hc.
  by apply normalized_no_other_space in Hc.
Qed.

Lemma flat_map_option_length {A B} (f : A → option B) (l : list A) :
  length (flat_map (λ a, match f a with Some b => [b] | None => [] end) l) ≤ length l.
Proof.
  induction l as [|a l IH]; [done|]. cbn [flat_map]. rewrite length_app.
  destruct (f a); simpl; lia.
Qed.

Lemma parse_label_value_text_length raw :
  length (parse_label_value_text raw) ≤ length (splitlines raw).
Proof.
  unfold parse_label_value_text. cbv zeta.
  etrans; [apply flat_map_option_length|].
  rewrite length_map. apply length_filter.
Qed.

(** X16. [parse_label_value_text] of franchise_no_madoguti gives at most
    one pair per line; the label of a pair has 1 to 30 code points and the
    value is not empty.  On a text that went through [normalize_space], as
    the text of a section does, no line break is left, so at most one pair
    is found in the whole text, and the stage of the labelled text lines
    adds at most one key to the data of a section. *)
Theorem X16_label_value_lines :
  (∀ raw, length (parse_label_value_text raw) ≤ length (splitlines raw)
          ∧ Forall (λ p, 1 ≤ length p.1 ≤ 30 ∧ p.2 ≠ [])
                   (parse_label_value_text raw))
  ∧ (∀ raw, length (parse_label_value_text (normalize_space raw)) ≤ 1)
  ∧ (∀ sec data, ∃ ks, keys (stage_text sec data) = keys data ++ ks ∧ length ks ≤ 1).
Proof.
  split_and!.
  - intros raw. split; [apply parse_label_value_text_length|].
    unfold parse_label_value_text. cbv zeta. apply Forall_forall.
    intros [label v] Hin. apply list_elem_of_In, in_flat_map in Hin as (line & _ & Hin).
    destruct (match_line line) as [[l' v']|] eqn:Hm; [|done].
    destruct Hin as [[= -> ->]|[]]. by apply match_line_bounds in Hm.
  - intros raw. etrans; [apply parse_label_value_text_length|].
    apply normalize_space_one_line.
  - intros sec data. unfold stage_text.
    pose proof (parse_label_value_text_length
                  (extract_text (Some (section_text sec)))) as Hlen.
    pose proof (normalize_space_one_line (section_text sec)) as Hone.
    cbn [extract_text] in *.
    destruct (parse_label_value_text _) as [|p [|p' ps]];
      [| |cbn [length] in Hlen; lia].
    + exists []. split; [by rewrite app_nil_r | simpl; lia].
    + assert (∃ ks, keys data = keys data ++ ks ∧ length ks ≤ 1) as Hsame.
      { exists []. split; [by rewrite app_nil_r | simpl; lia]. }
      cbn [fold_left]. cbv zeta. destruct (truthy p.2); [|exact Hsame].
      unfold setdefault. destruct (has_key _ data) eqn:Hh; [exact Hsame|].
      rewrite keys_dset. apply has_key_false in Hh.
      rewrite bool_decide_eq_false_2 by done. by eexists [_].
Qed.

Lemma shortest_elem best cs : shortest best cs ∈ best :: cs.
Proof.
  revert best. induction cs as [|c cs IH]; intros best; cbn [shortest]; [by left|].
  specialize (IH (if (length c <? length best)%nat then c else best)).
  apply elem_of_cons in IH as [IH|IH]; [|right; by right].
  rewrite IH. destruct (_ <? _)%nat; [right; by left | by left].
Qed.

Lemma title_search_legal_form t g :
  title_search t = Some g → startswith (u "株式会社") g = true.
Proof.
  induction t as [|c t IH].
  - cbn. done.
  - cbn [title_search]. cbv zeta.
    destruct (startswith (u "株式会社") (c :: t)) eqn:Hs; [|exact IH].
    destruct (drop 4 (c :: t)) as [|c' r]; [exact IH|].
    destruct (c' =? 10)%N; [exact IH|].
    destruct (lazy_tail r) as [v|]; [|exact IH].
    by intros [= <-].
Qed.

Lemma contains_startswith p s : startswith p s = true → contains p s = true.
Proof. intros H. destruct s; simpl; by rewrite H. Qed.

(** X17. A name [pick_name] of franchise_no_madoguti returns always names
    a legal form: it contains "株式会社", "有限会社", "組合" or "合同会社",
    whichever of the breadcrumbs, the headings and the title gave it. *)
Theorem X17_pick_name_legal_form (s : soup) (name : str) :
  pick_name s = Some name →
  contains_any [u "株式会社"; u "有限会社"; u "組合"; u "合同会社"] name = true.
Proof.
  unfold pick_name. cbv zeta.
  destruct (filter _ (map normalize_space (crumbs s))) as [|c cs] eqn:Hf.
  - destruct (List.find _ (map normalize_space (h1h2 s))) as [txt|] eqn:Hfind.
    + intros [= <-]. apply find_some in Hfind as [_ Hc].
      unfold contains_any in *. cbn [existsb] in *.
      repeat (apply orb_true_iff in Hc as [Hc|Hc]); rewrite ?Hc, ?orb_true_r; done.
    + destruct (title s) as [t|]; [|done]. destruct (truthy t); [|done].
      intros Hg%title_search_legal_form. unfold contains_any. cbn [existsb].
      by rewrite (contains_startswith _ _ Hg).
  - intros [= <-]. pose proof (shortest_elem c cs) as Hin. rewrite <- Hf in Hin.
    by apply list_elem_of_filter in Hin as [Hin _].
Qed.

Lemma X17_pick_name_legal_form_witness :
  contains_any [u "株式会社"; u "有限会社"; u "組合"; u "合同会社"] (u "A株式会社")
  = true.
Proof.
  apply (X17_pick_name_legal_form Samples.franchise_page).
  vm_compute. reflexivity.
Defined.

(** The URLs [load_urls_from_csv] returns, by the rows they come from. *)
Lemma franchise_load_urls_members (rows : csv_rows) :
  ∃ urls,
    load_urls_from_csv (Rows rows) = Returned urls
    ∧ Forall (λ url, url ≠ [] ∧ strip url = url) urls
    ∧ ∀ url, url ∈ urls ↔
        url ≠ []
        ∧ (map lower_ascii url ∉ [u "url"; u "リンク"; u "urls"])
        ∧ ∃ c cs, c :: cs ∈ rows ∧ strip c = url.
Proof.
  unfold load_urls_from_csv. cbn [open_csv].
  set (f := λ row : list str, match row with [] => [] | c :: _ => _ end).
  assert (Hf : ∀ row url, url ∈ f row ↔
                 url ≠ []
                 ∧ (map lower_ascii url ∉ [u "url"; u "リンク"; u "urls"])
                 ∧ ∃ c cs, row = c :: cs ∧ strip c = url).
  { intros [|c cs] url; subst f; cbv beta iota zeta.
    - split; [by intros ?%elem_of_nil | by intros (_ & _ & ? & ? & ? & _)].
    - destruct (strip c) as [|x v] eqn:E; cbn [truthy negb].
      + split; [by intros ?%elem_of_nil|].
        intros (Hne & _ & c' & cs' & [= <- <-] & <-). by rewrite E in Hne.
      + case_bool_decide as Hw.
        * split; [by intros ?%elem_of_nil|].
          intros (_ & Hw' & c' & cs' & [= <- <-] & <-). by rewrite E in Hw'.
        * rewrite list_elem_of_singleton. split.
          -- intros ->. split_and!; [done | done |]. by exists c, cs.
          -- intros (_ & _ & c' & cs' & [= <- <-] & <-). by rewrite E. }
  assert (Hflat : ∀ url, url ∈ flat_map f rows ↔
                    url ≠ []
                    ∧ (map lower_ascii url ∉ [u "url"; u "リンク"; u "urls"])
                    ∧ ∃ c cs, c :: cs ∈ rows ∧ strip c = url).
  { intros url. rewrite list_elem_of_In, in_flat_map. split.
    - intros (row & Hin & Hurl). apply list_elem_of_In in Hurl.
      apply Hf in Hurl as (Hne & Hw & c & cs & -> & E). split_and!; [done | done |].
      exists c, cs. by split; [apply list_elem_of_In|].
    - intros (Hne & Hw & c & cs & Hin & E). exists (c :: cs).
      split; [by apply list_elem_of_In|]. apply list_elem_of_In, Hf.
      split_and!; [done | done |]. by exists c, cs. }
  eexists. split; [reflexivity|]. split; [|exact Hflat].
  apply Forall_forall. intros url (Hne & _ & c & cs & _ & <-)%Hflat.
  split; [done | apply strip_idemp].
Qed.

(** X18. [load_urls_from_csv] of franchise_no_madoguti returns, in row
    order, the stripped first cells that are not empty and are not one of
    the header words "url", "リンク", "urls" in any letter case; such a
    word is left out in every row, not only in the first, and no cell is
    tested for being a URL. *)
Theorem X18_franchise_load_urls (rows : csv_rows) :
  ∃ urls,
    load_urls_from_csv (Rows rows) = Returned urls
    ∧ urls
      = filter (λ val, val ≠ []
                       ∧ (map lower_ascii val ∉ [u "url"; u "リンク"; u "urls"]))
          (strip <$> omap head rows)
    ∧ Forall (λ url, url ≠ [] ∧ strip url = url) urls
    ∧ ∀ url, url ∈ urls ↔
        url ≠ []
        ∧ (map lower_ascii url ∉ [u "url"; u "リンク"; u "urls"])
        ∧ ∃ c cs, c :: cs ∈ rows ∧ strip c = url.
Proof.
  destruct (franchise_load_urls_members rows) as (urls & Hret & Hall & Hmem).
  exists urls. split; [done|]. split; [|done].
  rewrite franchise_load_urls_order in Hret. by injection Hret as <-.
Qed.

End FranchiseText.

(** * repre: the table, the rows, the URL list *)

Section RepreRows.
Import Repre.

Lemma repre_harvested_cons k cells (t : table) :
  harvested k (cells :: t)
  = match harvest cells with
    | Some (k', v) => if decide (k' = k) then v :: harvested k t else harvested k t
    | None => harvested k t
    end.
Proof.
  unfold harvested. simpl. destruct (harvest cells) as [[k' v]|]; [|done].
  by destruct (decide (k' = k)).
Qed.

(** What the row loop leaves under a key: the value of the last row stored
    under it. *)
Lemma repre_fold_last (t : table) (d : dict) k :
  dget k (fold_left row_step t d)
  = match last (harvested k t) with
    | Some v => Some v
    | None => dget k d
    end.
Proof.
  revert d. induction t as [|cells t IH]; intros d; [done|].
  cbn [fold_left]. rewrite IH, repre_harvested_cons.
  assert (Hstep : row_step d cells
                  = match harvest cells with
                    | Some (k', v) => dset k' v d
                    | None => d
                    end).
  { by destruct cells as [|key [|val rest]]. }
  rewrite Hstep. destruct (harvest cells) as [[k' v]|]; [|done].
  destruct (decide (k' = k)) as [->|Hne].
  - rewrite dget_dset_eq.
    destruct (harvested k t) as [|v' vs] eqn:E; [done|].
    rewrite last_cons_cons.
    destruct (last (v' :: vs)) eqn:El; [done | by apply last_None in El].
  - by rewrite dget_dset_ne.
Qed.

(** X19. [parse_company_table] of repre keeps, for every key, the value
    of the last row stored under it, also when that value is empty: a later
    row replaces an earlier one whatever the two values are.  A key no row
    is stored under is absent, except "TEL", which then has the empty
    string. *)
Theorem X19_repre_last_row_wins (t : table) (k : str) :
  dget k (parse_company_table t)
  = match last (harvested k t) with
    | Some v => Some v
    | None => if decide (k = TEL) then Some [] else None
    end.
Proof.
  unfold parse_company_table. cbv zeta.
  pose proof (repre_fold_last t [] k) as Hk.
  pose proof (repre_fold_last t [] TEL) as Htel.
  destruct (has_key TEL (fold_left row_step t [])) eqn:Hh.
  - rewrite Hk. destruct (last (harvested k t)) as [v|] eqn:E; [done|].
    destruct (decide (k = TEL)) as [->|Hne]; [|done].
    apply has_key_true, elem_of_keys_dget in Hh as [v Hv].
    rewrite Hk in Hv. done.
  - destruct (decide (k = TEL)) as [->|Hne].
    + rewrite dget_dset_eq. apply has_key_false, not_elem_of_keys_dget in Hh.
      rewrite Hk in Hh. by destruct (last (harvested TEL t)).
    + rewrite dget_dset_ne by done. rewrite Hk.
      by destruct (last (harvested k t)).
Qed.

Lemma writerow_own_keys (d : dict) :
  NoDup (keys d) → writerow (keys d) d = d.*2.
Proof.
  unfold writerow. induction d as [|[k v] d IH]; intros Hnd; [done|].
  rewrite keys_cons in *. apply NoDup_cons in Hnd as [Hk Hnd].
  cbn [map fmap list_fmap snd]. f_equal.
  - unfold dget_default. cbn [dget]. by rewrite decide_True.
  - rewrite <- IH by done. apply map_ext_in. intros k' Hin.
    unfold dget_default. cbn [dget]. rewrite decide_False; [done|].
    intros ->. by apply Hk, list_elem_of_In.
Qed.

Lemma repre_build_row_keys w url parsed :
  keys (build_row w url parsed) = fieldnames
  ∧ dget (u "取得URL") (build_row w url parsed) = Some url
  ∧ writerow fieldnames (build_row w url parsed) = (build_row w url parsed).*2.
Proof.
  assert (Hk : keys (build_row w url parsed) = fieldnames) by done.
  split_and!; [done | done |].
  rewrite <- Hk at 1. apply writerow_own_keys. rewrite Hk. decided.
Qed.

(** X20. Every row [scrape_company_info_single] of repre returns has
    exactly the eleven output columns, in the order of the header, so the
    row written for it is the list of its values and the writer never meets
    an unknown or a missing key; its "取得URL" is the URL of the response
    after redirects, not the URL that was requested.  When the company
    table is found there is exactly one row; otherwise every row comes from
    a table with a name or an address. *)
Theorem X20_repre_rows (w : world) (url : str) (rows : list dict) :
  scrape_company_info_single w url = Returned rows →
  ∃ final_url resp s,
    net w url = Returned (final_url, resp)
    ∧ parser w (text resp) = Returned s
    ∧ Forall (λ row, keys row = fieldnames
                     ∧ dget (u "取得URL") row = Some final_url
                     ∧ writerow fieldnames row = row.*2) rows
    ∧ match recruit_table s with
      | Some _ => length rows = 1
      | None =>
        Forall (λ row, dget_default COL_NAME [] row ≠ []
                       ∨ dget_default COL_ADDR [] row ≠ []) rows
      end.
Proof.
  unfold scrape_company_info_single, fetch_html.
  destruct (net w url) as [[final_url resp]|] eqn:Hnet; [|done].
  destruct (_ && _); [done|].
  destruct (parser w (text resp)) as [s|] eqn:Hp; [|done].
  intros Hrows. exists final_url, resp, s. split; [done|]. split; [done|].
  destruct (recruit_table s) as [t|].
  - injection Hrows as <-. split; [|done].
    constructor; [apply repre_build_row_keys | constructor].
  - injection Hrows as <-. split.
    + apply Forall_forall. intros row Hin.
      apply list_elem_of_In, in_flat_map in Hin as (t & _ & Hin).
      destruct (_ || _); [|done]. destruct Hin as [<-|[]].
      apply repre_build_row_keys.
    + apply Forall_forall. intros row Hin.
      apply list_elem_of_In, in_flat_map in Hin as (t & _ & Hin).
      destruct (truthy (dget_default COL_NAME [] (parse_company_table t))) eqn:Hn;
        destruct (truthy (dget_default COL_ADDR [] (parse_company_table t))) eqn:Ha;
        cbn [orb] in Hin; try done; destruct Hin as [<-|[]].
      * left. by apply truthy_ne.
      * left. by apply truthy_ne.
      * right. by apply truthy_ne.
Qed.

Lemma X20_repre_rows_witness :
  ∃ rows, scrape_company_info_single Samples.repre_world Samples.url_a = Returned rows
          ∧ length rows = 1
          ∧ Forall (λ row, dget (u "取得URL") row = Some Samples.url_b) rows.
Proof.
  destruct (scrape_company_info_single Samples.repre_world Samples.url_a)
    as [rows|] eqn:Hrows; [|by vm_compute in Hrows].
  exists rows. split; [done|].
  destruct (X20_repre_rows _ _ _ Hrows) as (final_url & resp & s & Hnet & Hp & Hall & Hone).
  injection Hnet as <- <-. injection Hp as <-. split; [exact Hone|].
  eapply Forall_impl; [exact Hall|]. by intros row (_ & ? & _).
Defined.

(** The non-empty stripped first cells of the rows, in order. *)
Lemma repre_read_row_taken (urls : list str) (row : list str) :
  urls ≠ [] →
  read_row urls row
  = urls ++ match row with
            | [] => []
            | c :: _ => if truthy (strip c) then [strip c] else []
            end.
Proof.
  intros Hne. destruct row as [|c cs]; cbn [read_row]; [by rewrite app_nil_r|].
  cbv zeta. destruct (truthy (strip c)); cbn [negb]; [|by rewrite app_nil_r].
  by rewrite bool_decide_eq_false_2.
Qed.

Lemma repre_fold_read_row_taken (rows : csv_rows) (urls : list str) :
  urls ≠ [] →
  fold_left read_row rows urls
  = urls ++ flat_map (λ row, match row with
                             | [] => []
                             | c :: _ => if truthy (strip c) then [strip c] else []
                             end) rows.
Proof.
  revert urls. induction rows as [|row rows IH]; intros urls Hne.
  - by rewrite app_nil_r.
  - cbn [fold_left flat_map]. rewrite repre_read_row_taken by done.
    rewrite IH; [by rewrite app_assoc|]. by destruct urls.
Qed.

(** X21. [read_urls_from_csv] of repre goes through the non-empty stripped
    first cells of the rows in order: it skips them until the first one
    that starts with "http" in any letter case, and from that one on it
    takes every one of them, URL or not.  So the list it returns is empty
    or starts with such a cell, and no entry is empty or has surrounding
    whitespace. *)
Theorem X21_repre_read_urls (rows : csv_rows) :
  let cells := flat_map (λ row, match row with
                                | [] => []
                                | c :: _ => if truthy (strip c) then [strip c] else []
                                end) rows in
  ∃ skipped urls,
    read_urls_from_csv (Rows rows) = Returned urls
    ∧ cells = skipped ++ urls
    ∧ Forall (λ c, startswith (u "http") (map lower_ascii c) = false) skipped
    ∧ match urls with
      | [] => True
      | url :: _ => startswith (u "http") (map lower_ascii url) = true
      end
    ∧ Forall (λ url, url ≠ [] ∧ strip url = url) urls.
Proof.
  intros cells. unfold read_urls_from_csv. cbn [open_csv].
  assert (Hcells : Forall (λ url, url ≠ [] ∧ strip url = url) cells).
  { apply Forall_forall. intros url Hin.
    apply list_elem_of_In, in_flat_map in Hin as (row & _ & Hin).
    destruct row as [|c cs]; [done|].
    destruct (truthy (strip c)) eqn:Ht; [|done]. destruct Hin as [<-|[]].
    split; [by apply truthy_ne | apply strip_idemp]. }
  assert (∃ skipped,
            cells = skipped ++ fold_left read_row rows []
            ∧ Forall (λ c, startswith (u "http") (map lower_ascii c) = false) skipped
            ∧ match fold_left read_row rows [] with
              | [] => True
              | url :: _ => startswith (u "http") (map lower_ascii url) = true
              end) as (skipped & Hsplit & Hskipped & Hhead).
  { subst cells. clear Hcells. induction rows as [|row rows IH].
    - by exists [].
    - cbn [fold_left flat_map]. destruct row as [|c cs]; [exact IH|].
      cbn [read_row]. cbv zeta.
      destruct (truthy (strip c)) eqn:Ht; cbn [negb]; [|exact IH].
      rewrite bool_decide_eq_true_2 by done. cbn [andb].
      destruct (startswith (u "http") (map lower_ascii (strip c))) eqn:Hs; cbn [negb].
      + exists []. rewrite repre_fold_read_row_taken by done.
        split_and!; [done | done |]. by cbn [app].
      + destruct IH as (skipped & IH1 & IH2 & IH3). exists (strip c :: skipped).
        split_and!; [cbn [app]; by rewrite IH1 | by constructor | done]. }
  exists skipped, (fold_left read_row rows []).
  split_and!; [done | done | done | done |].
  rewrite Hsplit in Hcells. by apply Forall_app in Hcells as [_ ?].
Qed.

End RepreRows.

(** * tabelog: the fetcher, absolute URLs, the crawl, the run *)

Section TabelogRun.
Import Tabelog.

Lemma tabelog_fetch_ok get attempt todo last_err resp :
  get attempt = Returned resp → status_code resp = 200%Z →
  fetch_html_from get attempt (S todo) last_err = Returned (text resp).
Proof. intros Hget Hst. cbn [fetch_html_from]. by rewrite Hget, Hst. Qed.

Lemma tabelog_fetch_retry get attempt todo last_err :
  is_ok (get attempt) = false →
  ∃ err, fetch_html_from get attempt (S todo) last_err
         = fetch_html_from get (S attempt) todo err.
Proof.
  intros Hok. cbn [fetch_html_from]. destruct (get attempt) as [resp|e]; [|eauto].
  cbn [is_ok] in Hok. rewrite Hok. eauto.
Qed.

Lemma tabelog_fetch_from get k : ∀ attempt todo last_err,
  (∀ i, attempt ≤ i < attempt + k → is_ok (get i) = false) →
  ∃ err, fetch_html_from get attempt (k + todo) last_err
         = fetch_html_from get (attempt + k) todo err.
Proof.
  induction k as [|k IH]; intros attempt todo last_err Hall.
  - exists last_err. by rewrite Nat.add_0_r.
  - change (S k + todo) with (S (k + todo)).
    destruct (tabelog_fetch_retry get attempt (k + todo) last_err) as [err ->];
      [apply Hall; lia|].
    destruct (IH (S attempt) todo err) as [err' ->]; [intros i Hi; apply Hall; lia|].
    exists err'. f_equal. lia.
Qed.

(** X22. [fetch_html] of the two tabelog scripts, with [n] attempts (three
    by default): the text of the first response with status 200 among the
    first [n] attempts is returned, every other attempt, a 4xx answer
    included, being answered by the next attempt; when none of the [n]
    attempts gives status 200 the call raises. *)
Theorem X22_tabelog_fetch_attempts (get : nat → outcome http_response) (n : nat)
    (last_err : str) :
  (∀ k resp,
     k < n → (∀ i, i < k → is_ok (get i) = false) →
     get k = Returned resp → status_code resp = 200%Z →
     fetch_html_from get 0 n last_err = Returned (text resp))
  ∧ ((∀ i, i < n → is_ok (get i) = false) →
     ∃ e, fetch_html_from get 0 n last_err = Raised e).
Proof.
  split.
  - intros k resp Hk Hall Hget Hst.
    replace n with (k + S (n - S k)) by lia.
    destruct (tabelog_fetch_from get k 0 (S (n - S k)) last_err) as [err ->];
      [intros i Hi; apply Hall; lia|].
    by apply tabelog_fetch_ok.
  - intros Hall. replace n with (n + 0) by lia.
    destruct (tabelog_fetch_from get n 0 0 last_err) as [err ->];
      [intros i Hi; apply Hall; lia|].
    cbn [fetch_html_from]. eauto.
Qed.

Lemma X22_tabelog_fetch_attempts_witness :
  fetch_html_from Samples.flaky 0 MAX_RETRIES (u "None")
  = Returned (u "<html></html>")
  ∧ ∃ e, fetch_html_from Samples.not_found 0 MAX_RETRIES (u "None") = Raised e.
Proof.
  split.
  - apply (X22_tabelog_fetch_attempts Samples.flaky MAX_RETRIES (u "None"))
      with (k := 2) (resp := {| status_code := 200; text := u "<html></html>" |});
      [unfold MAX_RETRIES; lia | | reflexivity | reflexivity].
    intros [|[|i]] Hi; [reflexivity | reflexivity | lia].
  - apply (X22_tabelog_fetch_attempts Samples.not_found MAX_RETRIES (u "None")).
    intros i _. reflexivity.
Defined.

Lemma startswith_app p s t : startswith p s = true → startswith p (s ++ t) = true.
Proof.
  revert s. induction p as [|a p IH]; intros [|b s]; try done. cbn [startswith app].
  intros [-> Hp]%andb_true_iff. by rewrite IH.
Qed.

Lemma origin_with_http scheme base o (rest : str) :
  startswith (u "http") scheme = true →
  origin_with scheme base = Some o →
  startswith (u "http") (o ++ rest) = true.
Proof.
  intros Hs. unfold origin_with. destruct (startswith scheme base); [|done].
  cbv zeta. destruct (_ && _); [|done]. intros [= <-].
  rewrite <- app_assoc. by apply startswith_app.
Qed.

Lemma origin_of_http base o (rest : str) :
  origin_of base = Some o → startswith (u "http") (o ++ rest) = true.
Proof.
  unfold origin_of.
  destruct (origin_with (u "https://") base) as [o'|] eqn:E.
  - intros [= <-].
    by apply (origin_with_http (u "https://") base); [vm_compute|].
  - intros E'. by apply (origin_with_http (u "http://") base); [vm_compute|].
Qed.

(** X23. What [absolutize] of tabelog_all returns is an absolute URL and
    is stable: it starts with "http", and making it absolute again, against
    any base, gives it back.  A reference that starts with "http" is
    returned as it is; any other reference is resolved only if it starts
    with a slash and the base has a scheme, a host and a slash after the
    host, and then it is the scheme and host of the base followed by the
    reference; a relative path is never resolved. *)
Theorem X23_absolutize_absolute (base href r : str) :
  absolutize base href = Some r →
  startswith (u "http") r = true
  ∧ (∀ base', absolutize base' r = Some r)
  ∧ (if startswith (u "http") href then r = href
     else startswith [0x2F%N] href = true
          ∧ ∃ origin, origin_of base = Some origin ∧ r = origin ++ href).
Proof.
  unfold absolutize. destruct href as [|c href]; [done|]. cbn [truthy negb].
  assert (Hstable : ∀ r, startswith (u "http") r = true →
                         ∀ base', absolutize base' r = Some r).
  { intros r' Hr base'. unfold absolutize. destruct r'; [done|].
    cbn [truthy negb]. by rewrite Hr. }
  destruct (startswith (u "http") (c :: href)) eqn:Hs.
  - intros [= <-]. split_and!; [done | by apply Hstable | done].
  - destruct (startswith [0x2F%N] (c :: href)) eqn:Hslash; [|done].
    destruct (origin_of base) as [o|] eqn:Ho; [|done]. intros [= <-].
    pose proof (origin_of_http base o (c :: href) Ho) as Hr.
    split_and!; [done | by apply Hstable | done | by exists o].
Qed.

Lemma X23_absolutize_absolute_witness :
  startswith (u "http") (u "https://tabelog.com/osaka/A1/1000001/") = true
  ∧ absolutize Samples.page_2 (u "https://tabelog.com/osaka/A1/1000001/")
    = Some (u "https://tabelog.com/osaka/A1/1000001/").
Proof.
  destruct (X23_absolutize_absolute Samples.page_1 (u "/osaka/A1/1000001/")
              (u "https://tabelog.com/osaka/A1/1000001/")) as (Hs & Hstable & _);
    [vm_compute; reflexivity|].
  split; [exact Hs | apply Hstable].
Defined.

Lemma append_new_nil ks : append_new [] ks = first_seen ks.
Proof. by rewrite append_new_spec, filter_True_id. Qed.

Lemma crawl_loop_collects (w : world) (fuel : nat) (nxt0 : option str)
    (seen : gset str) (acc trace urls : list str) :
  crawl_end_of (crawl_loop w fuel nxt0 seen acc trace) = Done urls →
  ∃ pages, fetched (crawl_loop w fuel nxt0 seen acc trace) = trace ++ pages
           ∧ urls = append_new acc (concat (map (details w) pages)).
Proof.
  revert nxt0 seen acc trace.
  induction fuel as [|fuel IH]; intros nxt0 seen acc trace;
    destruct nxt0 as [url|]; cbn [crawl_loop].
  - destruct (truthy url && _); cbn [crawl_end_of fetched]; [done|].
    intros [= <-]. exists []. by rewrite app_nil_r.
  - intros [= <-]. exists []. by rewrite app_nil_r.
  - destruct (truthy url && _); cbn [crawl_end_of fetched].
    + cbv zeta. destruct (fetch_html w url) as [html|e] eqn:Hf; [|done].
      intros (pages & Hfetched & Hurls)%IH. exists (url :: pages).
      split; [by rewrite Hfetched, <- app_assoc|].
      rewrite Hurls. cbn [map concat]. rewrite append_new_app.
      unfold add_new, details. by rewrite Hf.
    + intros [= <-]. exists []. by rewrite app_nil_r.
  - intros [= <-]. exists []. by rewrite app_nil_r.
Qed.

(** X24. When [crawl_all_details] of tabelog_all returns, its result is
    the first-seen order of the detail URLs of the list pages it fetched,
    page after page: every detail URL of every fetched page is in the
    result exactly once, at the place of its first occurrence. *)
Theorem X24_crawl_collects (w : world) (fuel : nat) (list_url : str)
    (urls : list str) :
  crawl_end_of (crawl_all_details w fuel list_url) = Done urls →
  urls = first_seen
           (concat (map (details w) (fetched (crawl_all_details w fuel list_url)))).
Proof.
  unfold crawl_all_details.
  intros (pages & Hfetched & Hurls)%crawl_loop_collects.
  rewrite Hfetched. cbn [app]. by rewrite <- append_new_nil.
Qed.

Lemma X24_crawl_collects_witness :
  crawl_end_of (crawl_all_details Samples.tabelog_cycle 5 Samples.page_1)
  = Done [Samples.shop_1; Samples.shop_2; Samples.shop_3]
  ∧ [Samples.shop_1; Samples.shop_2; Samples.shop_3]
    = first_seen
        (concat (map (details Samples.tabelog_cycle)
                     (fetched (crawl_all_details Samples.tabelog_cycle 5
                                                 Samples.page_1)))).
Proof.
  assert (H : crawl_end_of (crawl_all_details Samples.tabelog_cycle 5 Samples.page_1)
              = Done [Samples.shop_1; Samples.shop_2; Samples.shop_3])
    by (vm_compute; reflexivity).
  split; [exact H | exact (X24_crawl_collects _ _ _ _ H)].
Defined.





End TabelogRun.

(** * dairitenhonpo: the written table and the completion order *)

Section HonpoOrder.
Import Dairitenhonpo.

Lemma honpo_emitted_url w url rec : rec ∈ emitted w url → url_of rec = url.
Proof.
  unfold emitted. destruct (extract_record w url) as [[rec'|]|] eqn:He;
    [|by intros ?%elem_of_nil ..].
  intros ->%list_elem_of_singleton.
  apply honpo_extract_record_some in He as (html & s & _ & _ & Hrec).
  apply honpo_record_of_soup_name in Hrec as (name & _ & _ & _ & Hurl).
  unfold url_of, dget_default. by rewrite Hurl.
Qed.

Lemma honpo_emitted_urls_NoDup w (urls : list str) :
  NoDup urls → NoDup (url_of <$> flat_map (emitted w) urls).
Proof.
  induction 1 as [|url urls Hurl Hnd IH]; [constructor|].
  cbn [flat_map]. rewrite fmap_app. apply NoDup_app. split_and!; [| |done].
  - pose proof (honpo_emitted_url w url) as Hu. unfold emitted in *.
    destruct (extract_record w url) as [[rec|]|]; [|constructor ..].
    apply NoDup_singleton.
  - intros k Hk Hk'.
    apply list_elem_of_fmap in Hk as (rec & -> & Hrec).
    apply list_elem_of_fmap in Hk' as (rec' & Heq & Hrec').
    apply list_elem_of_In, in_flat_map in Hrec' as (url' & Hin & Hrec').
    apply list_elem_of_In, honpo_emitted_url in Hrec'.
    apply honpo_emitted_url in Hrec. apply Hurl.
    rewrite <- Hrec, Heq, Hrec'. by apply list_elem_of_In.
Qed.

(** Records with pairwise distinct URLs have one sorted arrangement. *)
Lemma sort_by_url_unique l l' :
  NoDup (url_of <$> l) → l ≡ₚ l' → sort_by_url l = sort_by_url l'.
Proof.
  intros Hnd Hp.
  apply (StronglySorted_unique_strong url_le); [|apply sort_by_url_sorted ..|].
  - intros x y Hx Hy Hxy Hyx.
    rewrite sort_by_url_Permutation in Hx. rewrite sort_by_url_Permutation, <- Hp in Hy.
    assert (url_of x = url_of y) as E by (by apply str_le_antisym).
    apply list_elem_of_lookup in Hx as [i Hi]. apply list_elem_of_lookup in Hy as [j Hj].
    assert (i = j) as ->.
    { apply (NoDup_lookup (url_of <$> l) i j (url_of x)); [done | |].
      - by rewrite list_lookup_fmap, Hi.
      - by rewrite list_lookup_fmap, Hj, E. }
    congruence.
  - by rewrite !sort_by_url_Permutation.
Qed.

(** X26. The table dairitenhonpo writes does not depend on the order in
    which the tasks complete: for pairwise distinct URLs, two completion
    orders of the same URLs give the same sorted list of records, hence
    the same header and the same rows. *)
Theorem X26_honpo_output_independent (w : world) (done done' : list str) :
  NoDup done → done ≡ₚ done' →
  ∃ recs recs',
    collect w done [] = Returned recs
    ∧ collect w done' [] = Returned recs'
    ∧ sort_by_url recs = sort_by_url recs'
    ∧ write_csv (sort_by_url recs) = write_csv (sort_by_url recs').
Proof.
  intros Hnd Hp. rewrite !honpo_collect_spec. cbn [app].
  eexists _, _. split; [reflexivity|]. split; [reflexivity|].
  assert (sort_by_url (flat_map (emitted w) done)
          = sort_by_url (flat_map (emitted w) done')) as E.
  { apply sort_by_url_unique; [by apply honpo_emitted_urls_NoDup|].
    by apply Permutation_flat_map. }
  split; [done | by rewrite E].
Qed.

Lemma X26_honpo_output_independent_witness :
  ∃ recs recs',
    collect Samples.honpo_world [Samples.url_a; Samples.url_b] [] = Returned recs
    ∧ collect Samples.honpo_world [Samples.url_b; Samples.url_a] [] = Returned recs'
    ∧ sort_by_url recs = sort_by_url recs'
    ∧ write_csv (sort_by_url recs) = write_csv (sort_by_url recs').
Proof.
  apply (X26_honpo_output_independent Samples.honpo_world).
  - decided.
  - apply perm_swap.
Defined.

End HonpoOrder.

(** * franchise_no_madoguti: where the name comes from *)

Section FranchiseName.
Import Franchise.

Lemma pick_name_truthy s name : pick_name s = Some name → name ≠ [].
Proof.
  unfold pick_name. cbv zeta.
  destruct (filter _ (map normalize_space (crumbs s))) as [|c cs] eqn:Hf.
  - destruct (List.find _ (map normalize_space (h1h2 s))) as [txt|] eqn:Hfind.
    + intros [= <-]. apply find_some in Hfind as [_ Hc]. by destruct txt.
    + destruct (title s) as [t|]; [|done]. destruct (truthy t); [|done].
      intros Hg%title_search_legal_form. by destruct name.
  - intros [= <-]. pose proof (shortest_elem c cs) as Hin. rewrite <- Hf in Hin.
    apply list_elem_of_filter in Hin as [Hin _]. by destruct (shortest c cs).
Qed.

(** X27. In [scrape_one] of franchise_no_madoguti the page comes before
    the company data: a name [pick_name] finds is never replaced, and only
    without one the name is the value the company data has under "会社名",
    or else under "商号", "法人名", "名称", in this order. *)
Theorem X27_franchise_name_precedence (s : soup) :
  let info_map := merge_sections (company_sections s) in
  fallback_name info_map (pick_name s)
  = match pick_name s with
    | Some name => Some name
    | None =>
      match dget (u "会社名") info_map with
      | Some v => Some v
      | None =>
        match dget (u "商号") info_map with
        | Some v => Some v
        | None =>
          match dget (u "法人名") info_map with
          | Some v => Some v
          | None => dget (u "名称") info_map
          end
        end
      end
    end.
Proof.
  intros info_map.
  assert (Hv : ∀ k v, dget k info_map = Some v → v ≠ []).
  { intros k v Hd%dget_Some_elem_of.
    destruct (merge_sections_info (company_sections s)) as [_ Hall].
    rewrite Forall_forall in Hall. by destruct (Hall _ Hd). }
  unfold fallback_name. cbn [fold_left].
  destruct (pick_name s) as [name|] eqn:Hp.
  - apply pick_name_truthy in Hp. destruct name as [|c name]; [done|].
    by repeat match goal with
              | |- context [dget ?k info_map] => destruct (dget k info_map)
              end.
  - repeat match goal with
           | |- context [dget ?k info_map] =>
             let E := fresh "E" in
             destruct (dget k info_map) as [[|? ?]|] eqn:E;
               [by apply Hv in E | |]
           end; done.
Qed.

End FranchiseName.
